(** * Scheduling core of the Playwright test runner

    A shallow embedding of the dependency-phase builder ([buildPhases]),
    the phase runner ([createRunTestsTask]), the load task
    ([createLoadTask]), the file loader ([TestLoader.loadTestFile],
    [loadTestFilesInProcess]) and the reporter [Multiplexer], each followed
    by the properties established about it. *)

From stdpp Require Import base gmap sets list strings relations.

#[local] Set Warnings "-clear-no-such-hyp".

Open Scope string_scope.
Open Scope list_scope.
Open Scope nat_scope.

(** ** Data model *)

(** A [FullProjectInternal] is a mutable object compared by identity (it is
    a key of [Set<FullProjectInternal>]); the object graph [_deps] may be
    cyclic.  A project is therefore a reference, and its [_deps] field is
    read from the heap of project objects. *)
Definition ProjectRef := string.

(** A test case, identified by its id. *)
Definition TestCase := string.

(** The part of a project [Suite] the scheduler reads: the project it was
    created for and the tests below it ([allTests()]). *)
Record Suite := mkSuite {
  _projectConfig : ProjectRef;
  allTests : list TestCase;
}.

#[global] Instance Suite_eq_dec : EqDecision Suite.
Proof. solve_decision. Defined.

(** How a call of a JavaScript function completes. *)
Inductive completion (A : Type) : Type :=
| Returns (a : A)
| Throws (message : string).
Arguments Returns {A} a.
Arguments Throws {A} message.

Section Phases.

(** [_deps p]: the field [_deps] of the project object [p]. *)
Variable _deps : ProjectRef → list ProjectRef.

(** [processed.has(p)] *)
Definition has (s : gset ProjectRef) (p : ProjectRef) : bool :=
  bool_decide (p ∈ s).

(** [project._deps.find(p => !processed.has(p))], as a truth value. *)
Definition findUnprocessedDep (processed : gset ProjectRef) (p : ProjectRef) : bool :=
  existsb (fun d => negb (has processed d)) (_deps p).

(** The inner [for (const projectSuite of projectSuites)] loop of
    [buildPhases]: both [continue] branches, then [phase.push]. *)
Fixpoint collectPhase (processed : gset ProjectRef) (projectSuites : list Suite)
  : list Suite :=
  match projectSuites with
  | [] => []
  | projectSuite :: rest =>
      if has processed (_projectConfig projectSuite) then
        collectPhase processed rest
      else if findUnprocessedDep processed (_projectConfig projectSuite) then
        collectPhase processed rest
      else
        projectSuite :: collectPhase processed rest
  end.

(** [for (const projectSuite of phase) processed.add(projectSuite._projectConfig)] *)
Definition addAll (processed : gset ProjectRef) (phase : list Suite) : gset ProjectRef :=
  foldl (fun acc projectSuite => {[ _projectConfig projectSuite ]} ∪ acc) processed phase.

(** The outer loop [for (let i = 0; i < projectSuites.length; i++)]; [n] is
    the number of iterations left. *)
Fixpoint buildPhasesLoop (n : nat) (projectSuites : list Suite)
    (phases : list (list Suite)) (processed : gset ProjectRef)
  : list (list Suite) * gset ProjectRef :=
  match n with
  | O => (phases, processed)
  | S n' =>
      let phase := collectPhase processed projectSuites in
      let processed' := addAll processed phase in
      let phases' := match phase with [] => phases | _ :: _ => phases ++ [phase] end in
      buildPhasesLoop n' projectSuites phases' processed'
  end.

Definition buildPhases (projectSuites : list Suite) : list (list Suite) :=
  fst (buildPhasesLoop (length projectSuites) projectSuites [] ∅).

(** [buildPhases] has no [throw] statement and calls nothing that throws:
    every call completes normally. *)
Definition buildPhasesCall (projectSuites : list Suite) : completion (list (list Suite)) :=
  Returns (buildPhases projectSuites).

(** *** The dependency graph of an input *)

Definition projectsOf (l : list Suite) : list ProjectRef := map _projectConfig l.

(** [p] is an input project and [q] is one of its dependencies. *)
Definition dependsOn (projectSuites : list Suite) (p q : ProjectRef) : Prop :=
  p ∈ projectsOf projectSuites ∧ q ∈ _deps p.

(** Every dependency of an input project is an input project: the
    dependency edges stay inside the vertex set. *)
Definition closedGraph (projectSuites : list Suite) : Prop :=
  Forall (λ s, Forall (λ d, d ∈ projectsOf projectSuites) (_deps (_projectConfig s)))
         projectSuites.

#[global] Instance closedGraph_dec projectSuites : Decision (closedGraph projectSuites).
Proof. unfold closedGraph. apply _. Defined.

Definition cyclic (projectSuites : list Suite) : Prop :=
  ∃ p, tc (dependsOn projectSuites) p p.

Definition acyclic (projectSuites : list Suite) : Prop :=
  ∀ p, ¬ tc (dependsOn projectSuites) p p.

(** [p] lies on a dependency cycle. *)
Definition onCycle (p : ProjectRef) : Prop :=
  tc (fun a b => b ∈ _deps a) p p.

(** Phase [i] contains a suite of project [p]. *)
Definition inPhase (phases : list (list Suite)) (i : nat) (p : ProjectRef) : Prop :=
  ∃ phase, phases !! i = Some phase ∧ p ∈ projectsOf phase.

(** *** Reading of one pass *)

(** The test the inner loop applies to a suite, as a proposition: the
    project is not processed and none of its dependencies is unprocessed. *)
Definition eligible (processed : gset ProjectRef) (p : ProjectRef) : Prop :=
  (p ∉ processed) ∧ Forall (λ d, d ∈ processed) (_deps p).

#[global] Instance eligible_dec processed p : Decision (eligible processed p).
Proof. unfold eligible. apply _. Defined.

(** The suites whose project is not processed yet. *)
Definition remaining (processed : gset ProjectRef) (projectSuites : list Suite)
  : list Suite :=
  filter (λ s, _projectConfig s ∉ processed) projectSuites.

(** What every pass of the outer loop preserves. *)
Record PhasesInv (projectSuites : list Suite) (phases : list (list Suite))
    (processed : gset ProjectRef) : Prop := {
  inv_processed : ∀ p, p ∈ processed ↔ p ∈ projectsOf (concat phases);
  inv_perm : concat phases ++ remaining processed projectSuites ≡ₚ projectSuites;
  inv_nonempty : ∀ phase, phase ∈ phases → phase ≠ [];
  inv_order : ∀ phase, phase ∈ phases → sublist phase projectSuites;
  inv_layer : ∀ i phase s d,
    phases !! i = Some phase → s ∈ phase → d ∈ _deps (_projectConfig s) →
    ∃ j, j < i ∧ inPhase phases j d;
  inv_unique : ∀ i j p, inPhase phases i p → inPhase phases j p → i = j;
  inv_chain : ∀ i phase s,
    phases !! (S i) = Some phase → s ∈ phase →
    ∃ d, d ∈ _deps (_projectConfig s) ∧ inPhase phases i d;
  inv_blocked : ∀ phases0 lastPhase s,
    phases = phases0 ++ [lastPhase] → s ∈ projectSuites →
    _projectConfig s ∉ processed →
    ∃ d, d ∈ _deps (_projectConfig s) ∧ d ∉ projectsOf (concat phases0);
}.

(** A project from which a dependency cycle can be reached: it lies on a
    cycle or depends, directly or transitively, on a project that does. *)
Definition blockedByCycle (p : ProjectRef) : Prop :=
  ∃ q, rtc (fun a b => b ∈ _deps a) p q ∧ onCycle q.

End Phases.

(** *** Configurations of the dependency tests *)

(** One suite per project, holding the single test of [test.spec.ts]. *)
Definition suiteOf (p : ProjectRef) : Suite := mkSuite p [p +:+ "/test"].

(** [{ name: 'A' }, { name: 'B', dependencies: ['A'] },
     { name: 'C', dependencies: ['A'] }] *)
Definition depsABC (p : ProjectRef) : list ProjectRef :=
  if decide (p = "B") then ["A"] else if decide (p = "C") then ["A"] else [].

Definition suitesABC : list Suite := [suiteOf "A"; suiteOf "B"; suiteOf "C"].

(** [{ name: 'A', dependencies: ['B'] }, { name: 'B', dependencies: ['A'] }],
    next to an independent project [C]. *)
Definition depsCycle (p : ProjectRef) : list ProjectRef :=
  if decide (p = "A") then ["B"] else if decide (p = "B") then ["A"] else [].

Definition suitesCycle : list Suite := [suiteOf "C"; suiteOf "A"; suiteOf "B"].

Ltac elem_cases H :=
  match type of H with
  | ?x ∈ ?l => let l' := eval vm_compute in l in change (x ∈ l') in H
  end;
  repeat match type of H with
  | _ ∈ _ :: _ => apply elem_of_cons in H as [H|H]
  | _ ∈ [] => by apply elem_of_nil in H
  end.

Ltac solve_elem := vm_compute; repeat constructor.

(** A walk [x, l_0, l_1, ...] along a relation. *)
Fixpoint isWalk {A} (R : relation A) (x : A) (l : list A) : Prop :=
  match l with
  | [] => True
  | y :: l' => R x y ∧ isWalk R y l'
  end.

(** ** Running the phases *)

Inductive TestStatus := passed | failed | timedOut | skipped | interrupted.

Record TestResult := mkTestResult { status : TestStatus }.

(** The [results] array of every test case. *)
Definition Results := TestCase → list TestResult.

(** [test._appendTestResult().status = 'skipped'] *)
Definition appendSkipped (test : TestCase) (results : Results) : Results :=
  λ t, if decide (t = test) then results t ++ [mkTestResult skipped] else results t.

(** A [TestGroup] (declared in [runner/testGroups]); the phase runner reads
    its [tests] only. *)
Record TestGroup := mkTestGroup { tests : list TestCase }.

(** The [Dispatcher] class is outside the sources at hand; a dispatcher is
    taken by what its methods do.  [run groups results] is the state of the
    test results once [dispatcher.run(groups)] and [dispatcher.stop()] have
    resolved.  [hasWorkerErrors ran results] is the answer of
    [dispatcher.hasWorkerErrors()], [ran] being the groups it was asked to
    run, if it was asked at all. *)
Record Dispatcher := mkDispatcher {
  run : list TestGroup → Results → Results;
  hasWorkerErrors : option (list TestGroup) → Results → bool;
}.

Record ProjectWithTestGroups := mkProjectWithTestGroups {
  project : ProjectRef;
  projectSuite : Suite;
  testGroups : list TestGroup;
}.

(** An element of [TaskRunnerState.phases]. *)
Record Phase := mkPhase {
  dispatcher : Dispatcher;
  projects : list ProjectWithTestGroups;
}.

(** What [createRunTestsTask] does that can be observed, each with the
    index of the phase it belongs to. *)
Inductive Event :=
| EPushGroups (k : nat) (p : ProjectRef) (groups : list TestGroup)
    (* phaseTestGroups.push(...testGroups) *)
| ESkipTest (k : nat) (p : ProjectRef) (test : TestCase)
    (* test._appendTestResult().status = 'skipped' *)
| ERun (k : nat) (groups : list TestGroup)
    (* await dispatcher.run(phaseTestGroups) *)
| EStop (k : nat)
    (* await dispatcher.stop() *)
| EHasWorkerErrors (k : nat) (answer : bool)
    (* dispatcher.hasWorkerErrors() *)
| EAddSuccessful (k : nat) (p : ProjectRef).
    (* successfulProjects.add(project) *)

Record RunState := mkRunState {
  successfulProjects : gset ProjectRef;
  results : Results;
  trace : list Event;
}.

Section Runner.

Variable _deps : ProjectRef → list ProjectRef.

(** [test.ok()], which reads the results of the test. *)
Variable ok : TestCase → Results → bool.

(** [createTestGroups(projectSuite, config.workers)] *)
Variable createTestGroups : Suite → nat → list TestGroup.

(** The dispatcher built by the [k]-th [new Dispatcher(config, reporter)]. *)
Variable newDispatcher : nat → Dispatcher.

(** [for (const projectSuite of phase)] of [createTestGroupsTask] *)
Definition projectsWithTestGroups (workers : nat) (phase : list Suite)
  : list ProjectWithTestGroups :=
  map (λ projectSuite,
         {| project := _projectConfig projectSuite;
            projectSuite := projectSuite;
            testGroups := createTestGroups projectSuite workers |}) phase.

(** [createTestGroupsTask]: the value of [context.phases] it leaves, from
    the project suites of the root suite. *)
Definition createTestGroupsTask (workers : nat) (rootSuites : list Suite) : list Phase :=
  imap (λ k phase,
          {| dispatcher := newDispatcher k;
             projects := projectsWithTestGroups workers phase |})
       (buildPhases _deps rootSuites).

(** [project._deps.some(p => !successfulProjects.has(p))] *)
Definition hasFailedDeps (successful : gset ProjectRef) (p : ProjectRef) : bool :=
  existsb (λ d, negb (has successful d)) (_deps p).

(** The two nested loops over the test groups and tests of a project
    whose dependencies failed. *)
Definition skipTests (k : nat) (p : ProjectRef) (groups : list TestGroup)
    (st : Results * list Event) : Results * list Event :=
  foldl (λ st testGroup,
           foldl (λ '(results, events) test,
                    (appendSkipped test results, events ++ [ESkipTest k p test]))
                 st (tests testGroup))
        st groups.

(** The first loop over the projects of a phase. *)
Fixpoint collectGroups (k : nat) (successful : gset ProjectRef)
    (projects : list ProjectWithTestGroups)
    (phaseTestGroups : list TestGroup) (st : Results * list Event)
  : list TestGroup * (Results * list Event) :=
  match projects with
  | [] => (phaseTestGroups, st)
  | pw :: rest =>
      if negb (hasFailedDeps successful (project pw)) then
        collectGroups k successful rest (phaseTestGroups ++ testGroups pw)
          (st.1, st.2 ++ [EPushGroups k (project pw) (testGroups pw)])
      else
        collectGroups k successful rest phaseTestGroups
          (skipTests k (project pw) (testGroups pw) st)
  end.

(** The second loop over the projects of a phase; [successfulProjects] is
    read again after each [add]. *)
Fixpoint markSuccessful (k : nat) (results : Results)
    (projects : list ProjectWithTestGroups)
    (st : gset ProjectRef * list Event) : gset ProjectRef * list Event :=
  match projects with
  | [] => st
  | pw :: rest =>
      if negb (hasFailedDeps st.1 (project pw)) &&
         negb (existsb (λ test, negb (ok test results)) (allTests (projectSuite pw)))
      then markSuccessful k results rest
             ({[ project pw ]} ∪ st.1, st.2 ++ [EAddSuccessful k (project pw)])
      else markSuccessful k results rest st
  end.

(** The body of [for (const { dispatcher, projects } of phases)]. *)
Definition runPhase (k : nat) (phase : Phase) (st : RunState) : RunState :=
  let '(phaseTestGroups, (results1, events1)) :=
    collectGroups k (successfulProjects st) (projects phase) []
                  (results st, trace st) in
  let '(ran, results2, events2) :=
    match phaseTestGroups with
    | [] => (None, results1, events1)
    | _ :: _ =>
        (Some phaseTestGroups,
         run (dispatcher phase) phaseTestGroups results1,
         events1 ++ [ERun k phaseTestGroups; EStop k])
    end in
  let workerErrors := hasWorkerErrors (dispatcher phase) ran results2 in
  let events3 := events2 ++ [EHasWorkerErrors k workerErrors] in
  if negb workerErrors then
    let '(successful, events4) :=
      markSuccessful k results2 (projects phase) (successfulProjects st, events3) in
    mkRunState successful results2 events4
  else
    mkRunState (successfulProjects st) results2 events3.

Fixpoint runPhases (k : nat) (phases : list Phase) (st : RunState) : RunState :=
  match phases with
  | [] => st
  | phase :: rest => runPhases (S k) rest (runPhase k phase st)
  end.

(** [createRunTestsTask], on [context.phases] and the results the tests
    have when the task starts. *)
Definition createRunTestsTask (phases : list Phase) (results0 : Results) : RunState :=
  runPhases 0 phases (mkRunState ∅ results0 []).

(** The pipeline from the project suites: 'shard tests', then
    'test suite'. *)
Definition runTests (workers : nat) (rootSuites : list Suite) (results0 : Results)
  : RunState :=
  createRunTestsTask (createTestGroupsTask workers rootSuites) results0.

(** The state in which phase [k] starts. *)
Definition stateBefore (k : nat) (phases : list Phase) (results0 : Results) : RunState :=
  createRunTestsTask (take k phases) results0.

(** The groups pushed for phase [k], in the order of the pushes. *)
Fixpoint pushedGroups (k : nat) (events : list Event) : list TestGroup :=
  match events with
  | [] => []
  | EPushGroups k' _ groups :: rest =>
      if decide (k' = k) then groups ++ pushedGroups k rest else pushedGroups k rest
  | _ :: rest => pushedGroups k rest
  end.

(** Project [p] has an entry in phase [i]. *)
Definition projectIn (phases : list Phase) (i : nat) (p : ProjectRef) : Prop :=
  ∃ phase pw, phases !! i = Some phase ∧ pw ∈ projects phase ∧ project pw = p.

(** No project of phase [k] is successful when phase [k + 1] starts. *)
Definition noneSuccessful (phases : list Phase) (results0 : Results) (k : nat) : Prop :=
  ∀ p, projectIn phases k p →
       p ∉ successfulProjects (stateBefore (S k) phases results0).

(** The shape of the phases [createTestGroupsTask] builds. *)
Record Layered (phases : list Phase) : Prop := {
  layered_unique : ∀ i j p, projectIn phases i p → projectIn phases j p → i = j;
  layered_deps : ∀ i j p d,
    projectIn phases i p → d ∈ _deps p → projectIn phases j d → j < i;
  layered_chain : ∀ i p,
    projectIn phases (S i) p → ∃ d, d ∈ _deps p ∧ projectIn phases i d;
}.

(** The events of the first loop, project by project. *)
Definition projectEvents (k : nat) (successful : gset ProjectRef)
    (pw : ProjectWithTestGroups) : list Event :=
  if hasFailedDeps successful (project pw)
  then map (ESkipTest k (project pw)) (flat_map tests (testGroups pw))
  else [EPushGroups k (project pw) (testGroups pw)].

(** The groups the first loop leaves in [phaseTestGroups]. *)
Definition eligibleGroups (successful : gset ProjectRef)
    (projects : list ProjectWithTestGroups) : list TestGroup :=
  flat_map (λ pw, if hasFailedDeps successful (project pw) then [] else testGroups pw)
           projects.

Definition runEvents (k : nat) (groups : list TestGroup) : list Event :=
  match groups with
  | [] => []
  | _ :: _ => [ERun k groups; EStop k]
  end.

(** The test results the first loop leaves. *)
Definition skippedResults (successful : gset ProjectRef)
    (projects : list ProjectWithTestGroups) (results : Results) : Results :=
  foldl (λ r pw,
           if hasFailedDeps successful (project pw)
           then foldl (λ r t, appendSkipped t r) r (flat_map tests (testGroups pw))
           else r)
        results projects.

(** The projects the second loop adds, in the order of the [add] calls. *)
Fixpoint addedProjects (results : Results) (projects : list ProjectWithTestGroups)
    (successful : gset ProjectRef) : list ProjectRef :=
  match projects with
  | [] => []
  | pw :: rest =>
      if negb (hasFailedDeps successful (project pw)) &&
         negb (existsb (λ test, negb (ok test results)) (allTests (projectSuite pw)))
      then project pw :: addedProjects results rest ({[ project pw ]} ∪ successful)
      else addedProjects results rest successful
  end.

(** The events phase [k] adds when it starts in state [st]. *)
Definition phaseEvents (k : nat) (phase : Phase) (st : RunState) : list Event :=
  trace (runPhase k phase (mkRunState (successfulProjects st) (results st) [])).

End Runner.

(** *** A scripted run of the dependency tests *)

(** [{ name: 'A' }, { name: 'B', dependencies: ['A'] },
     { name: 'C', dependencies: ['B'] }] *)
Definition depsChain (p : ProjectRef) : list ProjectRef :=
  if decide (p = "B") then ["A"] else if decide (p = "C") then ["B"] else [].

(** One group per project suite, holding its tests. *)
Definition oneGroupPerSuite (projectSuite : Suite) (workers : nat) : list TestGroup :=
  [mkTestGroup (allTests projectSuite)].

(** A test is ok when its last result, if any, is a pass or a skip. *)
Definition lastResultOk (test : TestCase) (results : Results) : bool :=
  match last (results test) with
  | None => true
  | Some r => match status r with passed | skipped => true | _ => false end
  end.

(** A dispatcher that runs every test once; the tests of [failing] fail,
    and a worker breaks during the run when [crash] is set. *)
Definition scriptedDispatcher (failing : list TestCase) (crash : bool) : Dispatcher :=
  {| run groups results :=
       foldl (λ (r : Results) t, λ t',
                if decide (t' = t)
                then r t' ++ [mkTestResult (if bool_decide (t ∈ failing)
                                             then failed else passed)]
                else r t')
             results (flat_map tests groups);
     hasWorkerErrors ran _ := match ran with Some _ => crash | None => false end |}.

Definition noResults : Results := λ _, [].

(** The run of 'should not run project if dependency failed': the test of
    [B] throws. *)
Definition runChain : RunState :=
  runTests depsChain lastResultOk oneGroupPerSuite
           (λ _, scriptedDispatcher ["B/test"] false) 1 suitesABC noResults.

(** The same projects, a worker breaking while [A] runs. *)
Definition runCrash : RunState :=
  runTests depsChain lastResultOk oneGroupPerSuite
           (λ _, scriptedDispatcher [] true) 1 suitesABC noResults.

(** Two phase lists that [createTestGroupsTask] never builds: [B], which
    depends on [A], in the phase of [A]; and [B], which depends on nothing,
    in a phase after the one of [A]. *)
Definition entryOf (p : ProjectRef) : ProjectWithTestGroups :=
  mkProjectWithTestGroups p (suiteOf p) (oneGroupPerSuite (suiteOf p) 1).

Definition samePhase : list Phase :=
  [mkPhase (scriptedDispatcher [] false) [entryOf "A"; entryOf "B"]].

Definition separatePhases : list Phase :=
  [mkPhase (scriptedDispatcher [] true) [entryOf "A"];
   mkPhase (scriptedDispatcher [] true) [entryOf "B"]].

(** ** The load task *)

(** [config.shard]: [null] or [{ total, current }]. *)
Record Shard := mkShard { total : nat; current : nat }.

(** The fields of [TaskRunnerOptions] and [FullConfigInternal] the load
    task reads; [passWithNoTests?: boolean] may be undefined. *)
Record TaskRunnerOptions := mkOptions { passWithNoTests : option bool }.
Record FullConfigInternal := mkConfig { shard : option Shard; workers : nat }.

(** The root suite: one child suite per project. *)
Record RootSuite := mkRootSuite { suites : list Suite }.

(** [rootSuite.allTests()] *)
Definition rootAllTests (root : RootSuite) : list TestCase :=
  flat_map allTests (suites root).

(** The part of [TaskRunnerState] that the load task reads and
    writes. *)
Record TaskRunnerState := mkState {
  options : TaskRunnerOptions;
  config : FullConfigInternal;
  rootSuite : option RootSuite;
}.

(** Truth value of an optional boolean, and of an object or [null]. *)
Definition truthyFlag (b : option bool) : bool :=
  match b with Some true => true | _ => false end.
Definition truthyObject {A} (o : option A) : bool :=
  match o with Some _ => true | None => false end.

Section LoadTask.

(** [loadAllTests(config, reporter, options, errors)], from [loadUtils]:
    the root suite it resolves to, or the error it rejects with. *)
Variable loadAllTests : FullConfigInternal → TaskRunnerOptions → completion RootSuite.

Definition createLoadTask (context : TaskRunnerState) : completion TaskRunnerState :=
  match loadAllTests (config context) (options context) with
  | Throws e => Throws e
  | Returns root =>
      let context' := mkState (options context) (config context) (Some root) in
      (* Fail when no tests. *)
      if (length (rootAllTests root) =? 0)
         && negb (truthyFlag (passWithNoTests (options context')))
         && negb (truthyObject (shard (config context)))
      then Throws "No tests found"
      else Returns context'
  end.

End LoadTask.

(** ** The file loader *)

Inductive Environment := loader | worker.

(** A reference to a file [Suite] object. *)
Definition SuiteRef := nat.

(** A test declared by a file, with the file its location points to. *)
Record LoadedTest := mkLoadedTest { testTitle : string; testFile : string }.

(** A file [Suite] object: its title, [_requireFile], [location.file] and
    the tests below it. *)
Record FileSuite := mkFileSuite {
  title : string;
  _requireFile : string;
  locationFile : string;
  fileTests : list LoadedTest;
}.

(** A serialized error ([TestError] / [LoadError]). *)
Record TestError := mkTestError { message : string }.

(** What the loader works on: the module-level map [cachedFileSuites], the
    suite objects allocated so far (a reference is an index), the global
    set by [setCurrentlyLoadingFileSuite], and the files handed to
    [requireOrImport], in the order of the calls. *)
Record LoaderState := mkLoaderState {
  cachedFileSuites : gmap string SuiteRef;
  suiteHeap : list FileSuite;
  currentlyLoadingFileSuite : option SuiteRef;
  required : list string;
}.

Section Loader.

(** [requireOrImport(file)]: the tests the file declares while it runs,
    and the error it throws, if any.  The answer may depend on what was
    required before. *)
Variable requireOrImport : string → list string → list LoadedTest * option string.

(** [serializeError(e)] *)
Variable serializeError : string → TestError.

(** [path.relative], [path.basename], [path.extname] of Node. *)
Variable pathRelative : string → string → string.
Variable pathBasename : string → string.
Variable pathExtname : string → string.

(** [PoolBuilder.buildForLoader(rootSuite, loadErrors)], which may touch
    the suites below the root and push errors. *)
Variable buildForLoader :
  LoaderState → list SuiteRef → list TestError → LoaderState * list TestError.

(** [path.relative(this._rootDir, file) || path.basename(file)] *)
Definition suiteTitle (rootDir file : string) : string :=
  if decide (pathRelative rootDir file = "") then pathBasename file
  else pathRelative rootDir file.

(** The block that follows the [try]: when all tests of the suite point to
    one file with another extension, the location of the suite moves to
    that file. *)
Definition fixLocation (suite : FileSuite) : FileSuite :=
  match remove_dups (map testFile (fileTests suite)) with
  | [mappedFile] =>
      if decide (locationFile suite = mappedFile) then suite
      else if decide (pathExtname mappedFile = pathExtname (locationFile suite))
           then suite
           else mkFileSuite (title suite) (_requireFile suite) mappedFile
                            (fileTests suite)
  | _ => suite
  end.

(** [TestLoader.loadTestFile(file, environment, loadErrors)]: the state and
    the [loadErrors] array it leaves, and how the call completes. *)
Definition loadTestFile (rootDir file : string) (environment : Environment)
    (loadErrors : list TestError) (st : LoaderState)
  : LoaderState * list TestError * completion SuiteRef :=
  match cachedFileSuites st !! file with
  | Some cached => (st, loadErrors, Returns cached)
  | None =>
      let ref := length (suiteHeap st) in
      let '(declared, thrown) := requireOrImport file (required st) in
      let suite := mkFileSuite (suiteTitle rootDir file) file file declared in
      let required' := required st ++ [file] in
      match thrown with
      | None =>
          (* cachedFileSuites.set(file, suite); finally; location block *)
          (mkLoaderState (<[file := ref]> (cachedFileSuites st))
                         (suiteHeap st ++ [fixLocation suite]) None required',
           loadErrors, Returns ref)
      | Some e =>
          match environment with
          | worker =>
              (* throw e; the finally clause still runs *)
              (mkLoaderState (cachedFileSuites st) (suiteHeap st ++ [suite])
                             None required',
               loadErrors, Throws e)
          | loader =>
              (* loadErrors.push(serializeError(e)) *)
              (mkLoaderState (cachedFileSuites st)
                             (suiteHeap st ++ [fixLocation suite]) None required',
               loadErrors ++ [serializeError e], Returns ref)
          end
      end
  end.

(** The loop of [loadTestFilesInProcess]; [children] are the suites added
    to the root suite so far.  [rootSuite._addSuite(fileSuite)] is taken
    as the reference joining the children: what it does to the suite
    object is not rendered, the class [Suite] being outside the sources. *)
Fixpoint loadFiles (rootDir : string) (testFiles : list string)
    (children : list SuiteRef) (loadErrors : list TestError) (st : LoaderState)
  : LoaderState * list TestError * completion (list SuiteRef) :=
  match testFiles with
  | [] => (st, loadErrors, Returns children)
  | file :: rest =>
      match loadTestFile rootDir file loader loadErrors st with
      | (st', loadErrors', Returns fileSuite) =>
          loadFiles rootDir rest (children ++ [fileSuite]) loadErrors' st'
      | (st', loadErrors', Throws e) => (st', loadErrors', Throws e)
      end
  end.

Definition loadTestFilesInProcess (rootDir : string) (testFiles : list string)
    (loadErrors : list TestError) (st : LoaderState)
  : LoaderState * list TestError * completion (list SuiteRef) :=
  match loadFiles rootDir testFiles [] loadErrors st with
  | (st', loadErrors', Returns children) =>
      let '(st'', loadErrors'') := buildForLoader st' children loadErrors' in
      (st'', loadErrors'', Returns children)
  | failure => failure
  end.

End Loader.

(** The object behind [ref] is the suite of [file]. *)
Definition fileLoaded (st : LoaderState) (ref : SuiteRef) (file : string) : Prop :=
  ∃ suite, suiteHeap st !! ref = Some suite ∧ _requireFile suite = file.

(** Every cached reference points to the suite of its file. *)
Definition LoaderWf (st : LoaderState) : Prop :=
  ∀ file ref, cachedFileSuites st !! file = Some ref → fileLoaded st ref file.

(** Suite objects, cache entries and the log of required files only
    accumulate. *)
Definition extends (st st' : LoaderState) : Prop :=
  suiteHeap st `prefix_of` suiteHeap st' ∧
  required st `prefix_of` required st' ∧
  cachedFileSuites st ⊆ cachedFileSuites st'.

(** *** A scripted loading session *)

(** [broken.spec.ts] throws while it is required, after declaring nothing;
    every other file declares one test. *)
Definition scriptedRequire (file : string) (history : list string)
  : list LoadedTest * option string :=
  if decide (file = "broken.spec.ts") then ([], Some "SyntaxError")
  else ([mkLoadedTest "test" file], None).

Definition emptyLoader : LoaderState := mkLoaderState ∅ [] None [].

(** Paths taken as they are, all with the extension [.ts]; no pool
    digests. *)
Definition plainRelative (rootDir file : string) : string := file.
Definition plainBasename (file : string) : string := file.
Definition plainExtname (file : string) : string := ".ts".
Definition noPools (st : LoaderState) (children : list SuiteRef)
    (loadErrors : list TestError) : LoaderState * list TestError :=
  (st, loadErrors).

(** The configuration of 'should print "no tests found" error': no
    file at all, no [--pass-with-no-tests], no shard. *)
Definition loadNothing (c : FullConfigInternal) (o : TaskRunnerOptions)
  : completion RootSuite := Returns (mkRootSuite []).

Definition bareState : TaskRunnerState :=
  mkState (mkOptions None) (mkConfig None 1) None.

(** ** The reporter multiplexer *)

(** A notification, as the multiplexer receives it and as it hands it to
    the reporters.  [onBegin] carries the root suite; the other arguments
    ([config], [result], the step object) play no part here. *)
Inductive Call :=
| COnBegin (suite : RootSuite)
| COnTestBegin (test : TestCase)
| COnTestEnd (test : TestCase)
| COnStepBegin (test : TestCase) (step : string)
| COnStepEnd (test : TestCase) (step : string)
| COnStdOut (chunk : string) (test : option TestCase)
| COnStdErr (chunk : string) (test : option TestCase)
| COnError (error : TestError)
| COnEnd
| COnExit.

#[global] Instance TestError_eq_dec : EqDecision TestError.
Proof. solve_decision. Defined.
#[global] Instance RootSuite_eq_dec : EqDecision RootSuite.
Proof. solve_decision. Defined.
#[global] Instance Call_eq_dec : EqDecision Call.
Proof. solve_decision. Defined.

(** What a reporter does with a notification: it has no such method, the
    method returns, or the method throws. *)
Inductive Response := Absent | Done | Raises (e : string).

(** A reporter, by its answer to a notification given the notifications
    it has received so far. *)
Definition Reporter := list Call → Call → Response.

Inductive StdIOType := stdout | stderr.

Record StdIOChunk := mkChunk {
  chunkType : StdIOType;
  chunk : string;
  chunkTest : option TestCase;
}.

(** The fields [_deferredErrors] and [_deferredStdIO] of the multiplexer
    ([None] is [null]), together with what can be observed of it: the
    methods called on it ([called]), the reporter callbacks invoked, each
    with the index of its reporter ([delivered]), and the errors written
    by [console.error('Error in reporter', e)]. *)
Record MuxState := mkMuxState {
  _deferredErrors : option (list TestError);
  _deferredStdIO : option (list StdIOChunk);
  called : list Call;
  delivered : list (nat * Call);
  console : list string;
}.

(** The state of [new Multiplexer(reporters)]. *)
Definition newMultiplexer : MuxState := mkMuxState (Some []) (Some []) [] [] [].

(** The notifications reporter [i] has received. *)
Definition historyOf (i : nat) (d : list (nat * Call)) : list Call :=
  map snd (filter (λ x, x.1 = i) d).

Section Multiplexer.

(** [this._reporters] *)
Variable reporters : list Reporter.

Definition logCall (c : Call) (st : MuxState) : MuxState :=
  mkMuxState (_deferredErrors st) (_deferredStdIO st) (called st ++ [c])
             (delivered st) (console st).

(** [reporter.onX?.(...)] for the reporter of index [i]: the state it
    leaves and the exception it throws, if any. *)
Definition invoke (c : Call) (st : MuxState) (i : nat) (r : Reporter)
  : MuxState * option string :=
  match r (historyOf i (delivered st)) c with
  | Absent => (st, None)
  | Done =>
      (mkMuxState (_deferredErrors st) (_deferredStdIO st) (called st)
                  (delivered st ++ [(i, c)]) (console st), None)
  | Raises e =>
      (mkMuxState (_deferredErrors st) (_deferredStdIO st) (called st)
                  (delivered st ++ [(i, c)]) (console st), Some e)
  end.

(** [wrap(() => reporter.onX?.(...))], and the [.catch] of [onExit]. *)
Definition wrap (c : Call) (st : MuxState) (i : nat) (r : Reporter) : MuxState :=
  match invoke c st i r with
  | (st', None) => st'
  | (st', Some e) =>
      mkMuxState (_deferredErrors st') (_deferredStdIO st') (called st')
                 (delivered st') (console st' ++ [e])
  end.

(** [for (const reporter of this._reporters) wrap(...)], from the reporter
    of index [i] on. *)
Fixpoint forEachWrapped (c : Call) (i : nat) (rs : list Reporter) (st : MuxState)
  : MuxState :=
  match rs with
  | [] => st
  | r :: rest => forEachWrapped c (S i) rest (wrap c st i r)
  end.

(** The same loop without [wrap]: the first exception ends it. *)
Fixpoint forEachPlain (c : Call) (i : nat) (rs : list Reporter) (st : MuxState)
  : MuxState * completion unit :=
  match rs with
  | [] => (st, Returns tt)
  | r :: rest =>
      match invoke c st i r with
      | (st', None) => forEachPlain c (S i) rest st'
      | (st', Some e) => (st', Throws e)
      end
  end.

Definition onTestBegin (test : TestCase) (st : MuxState) : MuxState * completion unit :=
  (forEachWrapped (COnTestBegin test) 0 reporters (logCall (COnTestBegin test) st),
   Returns tt).

Definition onStdOut (chunk : string) (test : option TestCase) (st : MuxState)
  : MuxState * completion unit :=
  let st := logCall (COnStdOut chunk test) st in
  match _deferredStdIO st with
  | Some stdios =>
      (mkMuxState (_deferredErrors st) (Some (stdios ++ [mkChunk stdout chunk test]))
                  (called st) (delivered st) (console st), Returns tt)
  | None => (forEachWrapped (COnStdOut chunk test) 0 reporters st, Returns tt)
  end.

Definition onStdErr (chunk : string) (test : option TestCase) (st : MuxState)
  : MuxState * completion unit :=
  let st := logCall (COnStdErr chunk test) st in
  match _deferredStdIO st with
  | Some stdios =>
      (mkMuxState (_deferredErrors st) (Some (stdios ++ [mkChunk stderr chunk test]))
                  (called st) (delivered st) (console st), Returns tt)
  | None => (forEachWrapped (COnStdErr chunk test) 0 reporters st, Returns tt)
  end.

Definition onTestEnd (test : TestCase) (st : MuxState) : MuxState * completion unit :=
  (forEachWrapped (COnTestEnd test) 0 reporters (logCall (COnTestEnd test) st),
   Returns tt).

(** [async onEnd() { }] *)
Definition onEnd (st : MuxState) : MuxState * completion unit :=
  (logCall COnEnd st, Returns tt).

Definition onError (error : TestError) (st : MuxState) : MuxState * completion unit :=
  let st := logCall (COnError error) st in
  match _deferredErrors st with
  | Some errors =>
      (mkMuxState (Some (errors ++ [error])) (_deferredStdIO st)
                  (called st) (delivered st) (console st), Returns tt)
  | None => (forEachWrapped (COnError error) 0 reporters st, Returns tt)
  end.

Definition onStepBegin (test : TestCase) (step : string) (st : MuxState)
  : MuxState * completion unit :=
  (forEachWrapped (COnStepBegin test step) 0 reporters
     (logCall (COnStepBegin test step) st),
   Returns tt).

(** [onStepEnd] does not [wrap] the callbacks. *)
Definition onStepEnd (test : TestCase) (step : string) (st : MuxState)
  : MuxState * completion unit :=
  forEachPlain (COnStepEnd test step) 0 reporters (logCall (COnStepEnd test step) st).

(** One deferred chunk, replayed by [onBegin]. *)
Definition replayStdIO (st : MuxState) (stdio : StdIOChunk) : MuxState :=
  match chunkType stdio with
  | stdout => (onStdOut (chunk stdio) (chunkTest stdio) st).1
  | stderr => (onStdErr (chunk stdio) (chunkTest stdio) st).1
  end.

(** [onBegin]: the callbacks are not wrapped; then the deferred errors and
    the deferred output are replayed.  Iterating over [null] is a
    [TypeError]. *)
Definition onBegin (suite : RootSuite) (st : MuxState) : MuxState * completion unit :=
  match forEachPlain (COnBegin suite) 0 reporters (logCall (COnBegin suite) st) with
  | (st1, Throws e) => (st1, Throws e)
  | (st1, Returns _) =>
      let errors := _deferredErrors st1 in
      let st2 := mkMuxState None (_deferredStdIO st1) (called st1) (delivered st1)
                            (console st1) in
      match errors with
      | None => (st2, Throws "TypeError: errors is not iterable")
      | Some errors =>
          let st3 := foldl (λ s error, (onError error s).1) st2 errors in
          let stdios := _deferredStdIO st3 in
          let st4 := mkMuxState (_deferredErrors st3) None (called st3)
                                (delivered st3) (console st3) in
          match stdios with
          | None => (st4, Throws "TypeError: stdios is not iterable")
          | Some stdios => (foldl replayStdIO st4 stdios, Returns tt)
          end
      end
  end.

(** [onExit]: [onBegin] with an empty root suite when it was not reported,
    then [onEnd] and [onExit] of every reporter, each with its own
    [catch]. *)
Definition onExit (st : MuxState) : MuxState * completion unit :=
  let st := logCall COnExit st in
  let begun :=
    match _deferredErrors st with
    | Some _ => onBegin (mkRootSuite []) st
    | None => (st, Returns tt)
    end in
  match begun with
  | (st1, Throws e) => (st1, Throws e)
  | (st1, Returns _) =>
      (forEachWrapped COnExit 0 reporters (forEachWrapped COnEnd 0 reporters st1),
       Returns tt)
  end.

(** The method of the multiplexer a notification stands for. *)
Definition notify (c : Call) (st : MuxState) : MuxState * completion unit :=
  match c with
  | COnBegin suite => onBegin suite st
  | COnTestBegin test => onTestBegin test st
  | COnTestEnd test => onTestEnd test st
  | COnStepBegin test step => onStepBegin test step st
  | COnStepEnd test step => onStepEnd test step st
  | COnStdOut chunk test => onStdOut chunk test st
  | COnStdErr chunk test => onStdErr chunk test st
  | COnError error => onError error st
  | COnEnd => onEnd st
  | COnExit => onExit st
  end.

(** The notifications whose callbacks go through [wrap]. *)
Definition wrapped (c : Call) : bool :=
  match c with
  | COnTestBegin _ | COnTestEnd _ | COnStepBegin _ _
  | COnStdOut _ _ | COnStdErr _ _ | COnError _ => true
  | _ => false
  end.

(** The notification is put aside instead of being handed on. *)
Definition deferred (c : Call) (st : MuxState) : bool :=
  match c with
  | COnStdOut _ _ | COnStdErr _ _ => truthyObject (_deferredStdIO st)
  | COnError _ => truthyObject (_deferredErrors st)
  | _ => false
  end.

(** The reporters that have the callback of [c], from index [i] on, each
    asked with the notifications it has received in [d]. *)
Fixpoint receivers (c : Call) (d : list (nat * Call)) (i : nat) (rs : list Reporter)
  : list (nat * Call) :=
  match rs with
  | [] => []
  | r :: rest =>
      match r (historyOf i d) c with
      | Absent => receivers c d (S i) rest
      | _ => (i, c) :: receivers c d (S i) rest
      end
  end.

(** The exceptions those callbacks throw, in the order of the reporters. *)
Fixpoint raised (c : Call) (d : list (nat * Call)) (i : nat) (rs : list Reporter)
  : list string :=
  match rs with
  | [] => []
  | r :: rest =>
      match r (historyOf i d) c with
      | Raises e => e :: raised c d (S i) rest
      | _ => raised c d (S i) rest
      end
  end.

End Multiplexer.

(** ** The notifications of a run *)

Definition isBegin (c : Call) : bool :=
  match c with COnBegin _ => true | _ => false end.

Definition isError (c : Call) : bool :=
  match c with COnError _ => true | _ => false end.

(** The notifications other than [onBegin] and [onExit].  ([onEnd] is what
    the rollback of 'report begin' sends.) *)
Definition benign (c : Call) : bool :=
  match c with COnBegin _ | COnExit => false | _ => true end.

(** [errors] after [onError] has put [c] aside. *)
Definition bufferError (c : Call) (errors : list TestError) : list TestError :=
  match c with COnError e => errors ++ [e] | _ => errors end.

(** The root suites with which [onBegin] is called, in the order of the
    calls. *)
Definition beginsOf (calls : list Call) : list RootSuite :=
  flat_map (λ c, match c with COnBegin suite => [suite] | _ => [] end) calls.

Section Notifications.

Variable reporters : list Reporter.

(** The notifications of a task, one after the other; an exception ends
    them. *)
Fixpoint play (calls : list Call) (st : MuxState) : MuxState * completion unit :=
  match calls with
  | [] => (st, Returns tt)
  | c :: rest =>
      match notify reporters c st with
      | (st', Returns _) => play rest st'
      | failure => failure
      end
  end.

(** The state of the multiplexer after a sequence of calls of its
    methods, whoever makes them and whether or not one of them throws. *)
Definition notifyAll (calls : list Call) (st : MuxState) : MuxState :=
  foldl (λ st c, (notify reporters c st).1) st calls.

(** The 'report begin' task of [createTaskRunner], whose reporter is the
    multiplexer:
    [reporter.onBegin?.(config, rootSuite!); return () => reporter.onEnd()].
    It returns its rollback. *)
Definition reportBeginTask (root : RootSuite) (st : MuxState)
  : MuxState * completion (MuxState → MuxState * completion unit) :=
  match onBegin reporters root st with
  | (st', Throws e) => (st', Throws e)
  | (st', Returns _) => (st', Returns onEnd)
  end.

(** A delivery made before [onBegin]: neither [onBegin], [onEnd],
    [onExit] nor [onError]. *)
Definition quiet (x : nat * Call) : Prop :=
  benign x.2 = true ∧ x.2 ≠ COnEnd ∧ isError x.2 = false.

(** A delivery made between [onBegin] and [onExit]. *)
Definition plain (x : nat * Call) : Prop :=
  benign x.2 = true ∧ x.2 ≠ COnEnd.

(** Before [onBegin]: errors and output are put aside, and every error
    handed to [onError] is in the buffer. *)
Definition Deferring (st : MuxState) : Prop :=
  ∃ errors stdios,
    _deferredErrors st = Some errors ∧ _deferredStdIO st = Some stdios ∧
    Forall quiet (delivered st) ∧
    ∀ e, COnError e ∈ called st → e ∈ errors.

(** After [onBegin suite], called when the deliveries were [d1]: the
    reporters got [onBegin], and every error handed to [onError], before
    or after, has reached every reporter that has [onError]. *)
Definition BegunPending (pending : list TestError) (suite : RootSuite)
    (d1 : list (nat * Call)) (st : MuxState) : Prop :=
  _deferredErrors st = None ∧
  ∃ d2,
    delivered st = d1 ++ receivers (COnBegin suite) d1 0 reporters ++ d2 ∧
    Forall plain d2 ∧
    ∀ e, COnError e ∈ called st →
      e ∈ pending ∨
      ∀ i r, reporters !! i = Some r → (∀ h, r h (COnError e) ≠ Absent) →
             (i, COnError e) ∈ d2.

(** [pending] are the deferred errors [onBegin] has still to replay. *)
Definition Begun (suite : RootSuite) (d1 : list (nat * Call)) (st : MuxState) : Prop :=
  BegunPending [] suite d1 st.

(** No [onBegin] callback of these reporters throws. *)
Definition beginNeverThrows : Prop :=
  ∀ r, r ∈ reporters → ∀ h suite e, r h (COnBegin suite) ≠ Raises e.

End Notifications.

Definition isEnd (c : Call) : bool :=
  match c with COnEnd => true | _ => false end.

(** How many times reporter [i] received a notification that [p]
    selects. *)
Definition timesDelivered (i : nat) (p : Call → bool) (d : list (nat * Call)) : nat :=
  length (filter (λ x, x.1 = i ∧ p x.2 = true) d).

(** *** Two scripted reporters *)

(** A reporter that has every callback and throws in each of the wrapped
    ones. *)
Definition throwingReporter : Reporter :=
  λ _ c, if wrapped c then Raises "boom" else Done.

(** A reporter that has every callback, none of which throws. *)
Definition quietReporter : Reporter := λ _ _, Done.

(** *** Two scripted runs *)

(** What a run in which one test executes sends: 'report begin' is
    reached, 'test suite' reports the test, and the rollback of 'report
    begin' calls [onEnd]. *)
Definition callsOneTest : list Call :=
  [COnBegin (mkRootSuite [suiteOf "A"]);
   COnTestBegin "A/test"; COnTestEnd "A/test"; COnEnd].

(** What a run sends in which 'load tests' reports a load error and then
    fails with 'No tests found': 'report begin' is not reached. *)
Definition callsLoadFails : list Call :=
  [COnError (mkTestError "SyntaxError"); COnError (mkTestError "No tests found")].

(** ** Further readings of the phase builder *)

Section Scheduling.

Variable _deps : ProjectRef → list ProjectRef.

(** Every project that [p] reaches through [_deps], [p] included, is an
    input project, and none of them lies on a dependency cycle. *)
Definition resolvable (projectSuites : list Suite) (p : ProjectRef) : Prop :=
  ∀ q, rtc (fun a b => b ∈ _deps a) p q →
       q ∈ projectsOf projectSuites ∧ ¬ onCycle _deps q.

(** The suites whose project has no dependency. *)
Definition rootSuites (projectSuites : list Suite) : list Suite :=
  filter (λ s, _deps (_projectConfig s) = []) projectSuites.

End Scheduling.

(** ** Further readings of the phase runner *)

Section PhaseReadings.

Variable _deps : ProjectRef → list ProjectRef.

(** The test results once the dispatcher of [phase], started in [st], has
    run and stopped; they are those of the first loop when no group is left
    to run. *)
Definition resultsAfterRun (phase : Phase) (st : RunState) : Results :=
  let results1 :=
    skippedResults _deps (successfulProjects st) (projects phase) (results st) in
  match eligibleGroups _deps (successfulProjects st) (projects phase) with
  | [] => results1
  | g :: gs => run (dispatcher phase) (g :: gs) results1
  end.

(** The answer of [dispatcher.hasWorkerErrors()] in [phase] started in [st]. *)
Definition workerErrorsIn (phase : Phase) (st : RunState) : bool :=
  hasWorkerErrors (dispatcher phase)
    (match eligibleGroups _deps (successfulProjects st) (projects phase) with
     | [] => None
     | g :: gs => Some (g :: gs)
     end)
    (resultsAfterRun phase st).

End PhaseReadings.

(** The phase an event belongs to. *)
Definition phaseOf (e : Event) : nat :=
  match e with
  | EPushGroups k _ _ | ESkipTest k _ _ | ERun k _ | EStop k
  | EHasWorkerErrors k _ | EAddSuccessful k _ => k
  end.

(** ** Further readings of the multiplexer *)

Definition isStdIO (c : Call) : bool :=
  match c with COnStdOut _ _ | COnStdErr _ _ => true | _ => false end.

(** The errors [onError] is handed by [calls], and the chunks [onStdOut]
    and [onStdErr] are handed, in the order of the calls. *)
Definition errorsOf (calls : list Call) : list TestError :=
  flat_map (λ c, match c with COnError e => [e] | _ => [] end) calls.

Definition chunksOf (calls : list Call) : list StdIOChunk :=
  flat_map (λ c, match c with
                 | COnStdOut chunk test => [mkChunk stdout chunk test]
                 | COnStdErr chunk test => [mkChunk stderr chunk test]
                 | _ => []
                 end) calls.

(** The notification a deferred chunk is replayed as. *)
Definition chunkCall (stdio : StdIOChunk) : Call :=
  match chunkType stdio with
  | stdout => COnStdOut (chunk stdio) (chunkTest stdio)
  | stderr => COnStdErr (chunk stdio) (chunkTest stdio)
  end.

(** A reporter that has every callback and throws in [onBegin], and one
    that throws in [onStepEnd]. *)
Definition beginThrower : Reporter :=
  λ _ c, if isBegin c then Raises "begin failed" else Done.

Definition stepEndThrower : Reporter :=
  λ _ c, match c with COnStepEnd _ _ => Raises "step failed" | _ => Done end.

(** *** A file behind a source map *)

(** [a.spec.js] was compiled from [a.spec.ts]: the test it declares points
    to [a.spec.ts]. *)
Definition mappedRequire (file : string) (history : list string)
  : list LoadedTest * option string :=
  ([mkLoadedTest "test" "a.spec.ts"], None).

Definition mappedExtname (file : string) : string :=
  if decide (file = "a.spec.ts") then ".ts" else ".js".

(** The loader once [a.spec.ts] was loaded. *)
Definition loadedOnce : LoaderState :=
  (loadTestFile scriptedRequire mkTestError plainRelative plainBasename plainExtname
     "" "a.spec.ts" loader [] emptyLoader).1.1.

(** ** The concurrency bound of [createTestGroupsTask] *)

Section ConcurrencyBound.

Variable _deps : ProjectRef → list ProjectRef.
Variable createTestGroups : Suite → nat → list TestGroup.

(** [projects.reduce((acc, project) => acc + project.testGroups.length, 0)] *)
Definition testGroupsInPhase (projects : list ProjectWithTestGroups) : nat :=
  foldl (λ acc project, acc + length (testGroups project)) 0 projects.

(** [context.config._maxConcurrentTestGroups] once [createTestGroupsTask]
    has gone over the phases, from the value it had before. *)
Definition maxConcurrentTestGroups (workers : nat) (rootSuites : list Suite)
    (initial : nat) : nat :=
  foldl (λ _maxConcurrentTestGroups phase,
           Nat.max _maxConcurrentTestGroups
             (testGroupsInPhase (projectsWithTestGroups createTestGroups workers phase)))
        initial (buildPhases _deps rootSuites).

End ConcurrencyBound.

(** ** The build cache of the component plugin *)

Module Vite.

(** [ComponentInfo] (declared in [common/tsxTransform]), by the fields the
    plugin reads. *)
Record ComponentInfo := mkComponentInfo {
  fullName : string;
  importPath : string;
  isModuleOrAlias : bool;
  importedName : option string;
}.

(** [mtimeMs] of a file; the plugin compares time stamps with [!==]
    only. *)
Definition Timestamp := Z.

(** An entry of [buildInfo.tests]: [{ timestamp, components }]. *)
Record TestFileInfo := mkTestFileInfo {
  timestamp : Timestamp;
  testComponents : list string;
}.

(** [BuildInfo]; an entry of [sources] is [{ timestamp }]. *)
Record BuildInfo := mkBuildInfo {
  version : string;
  viteVersion : string;
  registerSourceHash : string;
  sources : gmap string Timestamp;
  components : list ComponentInfo;
  tests : gmap string TestFileInfo;
}.

(** [ComponentRegistry = Map<string, ComponentInfo>], in insertion
    order. *)
Definition ComponentRegistry := list (string * ComponentInfo).

(** [componentRegistry.set(key, value)]: the value of a key that is present
    is replaced where it is, a new key goes to the end. *)
Fixpoint registrySet (key : string) (value : ComponentInfo) (registry : ComponentRegistry)
  : ComponentRegistry :=
  match registry with
  | [] => [(key, value)]
  | (key', value') :: rest =>
      if decide (key' = key) then (key, value) :: rest
      else (key', value') :: registrySet key value rest
  end.

(** [componentRegistry.get(key)] *)
Fixpoint registryGet (key : string) (registry : ComponentRegistry)
  : option ComponentInfo :=
  match registry with
  | [] => None
  | (key', value') :: rest =>
      if decide (key' = key) then Some value' else registryGet key rest
  end.

(** [testFiles.add(file)] on a [Set], in insertion order. *)
Definition setAdd (file : string) (testFiles : list string) : list string :=
  if decide (file ∈ testFiles) then testFiles else testFiles ++ [file].

(** The first loop of [checkNewTests]; a project suite is given by the
    [location.file] of its file suites. *)
Definition testFilesOf (projectSuites : list (list string)) : list string :=
  foldl (λ testFiles project, foldl (λ testFiles file, setAdd file testFiles)
                                    testFiles project)
        [] projectSuites.

Section Checks.

(** [(await fs.promises.stat(file)).mtimeMs], which throws when the file
    cannot be read, and [parseTestFile(testFile)]. *)
Variable stat : string → completion Timestamp.
Variable parseTestFile : string → completion (list ComponentInfo).

(** The branch of an unchanged test file: the registry is populated from
    [buildInfo].  [component.fullName] of a component that [find] does not
    find is a [TypeError]. *)
Fixpoint populateRegistry (componentNames : list string) (buildInfo : BuildInfo)
    (registry : ComponentRegistry) : ComponentRegistry * completion unit :=
  match componentNames with
  | [] => (registry, Returns tt)
  | componentName :: rest =>
      match find (λ c, bool_decide (fullName c = componentName)) (components buildInfo) with
      | Some component =>
          populateRegistry rest buildInfo
            (registrySet (fullName component) component registry)
      | None =>
          (registry, Throws "TypeError: Cannot read properties of undefined")
      end
  end.

(** The second loop of [checkNewTests]; [buildInfo] and the registry are
    changed in place, so what was done before an exception stays done. *)
Fixpoint checkNewTestsLoop (testFiles : list string) (buildInfo : BuildInfo)
    (registry : ComponentRegistry) (hasNewTests : bool)
  : BuildInfo * ComponentRegistry * completion bool :=
  match testFiles with
  | [] => (buildInfo, registry, Returns hasNewTests)
  | testFile :: rest =>
      match stat testFile with
      | Throws e => (buildInfo, registry, Throws e)
      | Returns stamp =>
          (* buildInfo.tests[testFile]?.timestamp !== timestamp *)
          if decide (timestamp <$> tests buildInfo !! testFile ≠ Some stamp) then
            match parseTestFile testFile with
            | Throws e => (buildInfo, registry, Throws e)
            | Returns parsed =>
                checkNewTestsLoop rest
                  (mkBuildInfo (version buildInfo) (viteVersion buildInfo)
                     (registerSourceHash buildInfo) (sources buildInfo)
                     (components buildInfo)
                     (<[testFile := mkTestFileInfo stamp (map fullName parsed)]>
                        (tests buildInfo)))
                  (foldl (λ registry component,
                            registrySet (fullName component) component registry)
                         registry parsed)
                  true
            end
          else
            match tests buildInfo !! testFile with
            | None =>
                (buildInfo, registry,
                 Throws "TypeError: Cannot read properties of undefined")
            | Some info =>
                match populateRegistry (testComponents info) buildInfo registry with
                | (registry', Returns _) =>
                    checkNewTestsLoop rest buildInfo registry' hasNewTests
                | (registry', Throws e) => (buildInfo, registry', Throws e)
                end
            end
      end
  end.

(** [checkNewTests(suite, buildInfo, componentRegistry)] *)
Definition checkNewTests (projectSuites : list (list string)) (buildInfo : BuildInfo)
    (registry : ComponentRegistry)
  : BuildInfo * ComponentRegistry * completion bool :=
  checkNewTestsLoop (testFilesOf projectSuites) buildInfo registry false.

(** [checkNewComponents(buildInfo, componentRegistry)]; [get] of a key that
    [keys()] lists is never undefined. *)
Definition checkNewComponents (buildInfo : BuildInfo) (registry : ComponentRegistry)
  : BuildInfo * bool :=
  let newComponents := map fst registry in
  let oldComponents := map fullName (components buildInfo) in
  let hasNewComponents :=
    existsb (λ c, negb (bool_decide (c ∈ oldComponents))) newComponents in
  if negb hasNewComponents then (buildInfo, false)
  else
    (mkBuildInfo (version buildInfo) (viteVersion buildInfo)
       (registerSourceHash buildInfo) (sources buildInfo)
       (omap (λ n, registryGet n registry) newComponents)
       (tests buildInfo),
     true).

(** Steps 1 and 2 of [begin], on a new registry: the build info and the
    registry they leave, and the two answers. *)
Definition checkBuild (projectSuites : list (list string)) (buildInfo : BuildInfo)
  : BuildInfo * ComponentRegistry * completion (bool * bool) :=
  match checkNewTests projectSuites buildInfo [] with
  | (buildInfo1, registry, Throws e) => (buildInfo1, registry, Throws e)
  | (buildInfo1, registry, Returns hasNewTests) =>
      let '(buildInfo2, hasNewComponents) := checkNewComponents buildInfo1 registry in
      (buildInfo2, registry, Returns (hasNewTests, hasNewComponents))
  end.

End Checks.

End Vite.

(** Every entry of the registry is filed under the full name of its
    component. *)
Definition Keyed (registry : Vite.ComponentRegistry) : Prop :=
  ∀ key value, (key, value) ∈ registry → Vite.fullName value = key.

(** [a.spec.tsx] uses the component [Button]; its time stamp is 7. *)
Definition buttonInfo : Vite.ComponentInfo :=
  Vite.mkComponentInfo "Button" "src/Button.tsx" false (Some "Button").

Definition statSeven (file : string) : completion Vite.Timestamp :=
  if decide (file = "a.spec.tsx") then Returns 7%Z else Throws "ENOENT".

Definition parseButton (file : string) : completion (list Vite.ComponentInfo) :=
  Returns [buttonInfo].

(** The build info of a first run: no build yet. *)
Definition noBuild : Vite.BuildInfo := Vite.mkBuildInfo "1.29" "3.2" "hash" ∅ [] ∅.

(** ** The 'prepare to run' task *)

(** A project of [config.projects], by the fields the task reads. *)
Record OutputProject := mkOutputProject { name : string; outputDir : string }.

(** The first loop of [createRemoveOutputDirsTask]: the [Set] of output
    directories, in insertion order.  [projectFilter] is
    [options.projectFilter], [None] when it is undefined. *)
Definition outputDirsToRemove (projects : list OutputProject)
    (projectFilter : option (list string)) : list string :=
  foldl (λ outputDirs p,
           if negb (truthyObject projectFilter) ||
              match projectFilter with
              | Some filter => bool_decide (name p ∈ filter)
              | None => false
              end
           then Vite.setAdd (outputDir p) outputDirs
           else outputDirs)
        [] projects.

(* ================================================================== *)
(** * Properties *)
(* ================================================================== *)

(** ** Finite graphs without sinks have a cycle *)

Section Walks.
Context {A : Type} `{EqDecision A} (R : relation A).

Lemma isWalk_reach x l y : isWalk R x l → y ∈ l → tc R x y.
Proof.
  revert x. induction l as [|z l IH]; intros x Hw Hy.
  - by apply elem_of_nil in Hy.
  - destruct Hw as [Hxz Hw]. apply elem_of_cons in Hy as [-> |Hy].
    + by apply tc_once.
    + eapply tc_l; [exact Hxz|]. by apply IH.
Qed.

Lemma isWalk_dup_cycle x l : isWalk R x l → ¬ NoDup (x :: l) → ∃ y, tc R y y.
Proof.
  revert x. induction l as [|z l IH]; intros x Hw Hnd.
  - destruct Hnd. apply NoDup_singleton.
  - destruct (decide (x ∈ z :: l)) as [Hin|Hnin].
    + exists x. by eapply isWalk_reach.
    + destruct Hw as [_ Hw]. apply (IH z Hw). intros Hnd'.
      apply Hnd. by apply NoDup_cons.
Qed.

Lemma walk_exists (V : list A) :
  (∀ x, x ∈ V → ∃ y, y ∈ V ∧ R x y) →
  ∀ n x, x ∈ V → ∃ l, length l = n ∧ isWalk R x l ∧ ∀ y, y ∈ l → y ∈ V.
Proof.
  intros Hsucc n. induction n as [|n IH]; intros x Hx.
  - exists []. split; [done|]. split; [done|]. intros y Hy. by apply elem_of_nil in Hy.
  - destruct (Hsucc x Hx) as (y & Hy & Hxy).
    destruct (IH y Hy) as (l & Hlen & Hw & Hin).
    exists (y :: l). split; [simpl; by rewrite Hlen|]. split; [done|].
    intros z Hz. apply elem_of_cons in Hz as [-> |Hz]; auto.
Qed.

Lemma no_sink_cycle (V : list A) x :
  x ∈ V → (∀ x, x ∈ V → ∃ y, y ∈ V ∧ R x y) → ∃ y, tc R y y.
Proof.
  intros Hx Hsucc.
  destruct (walk_exists V Hsucc (length V) x Hx) as (l & Hlen & Hw & Hin).
  apply (isWalk_dup_cycle x l Hw). intros Hnd.
  assert (x :: l ⊆+ V) as Hsub.
  { apply NoDup_submseteq; [done|]. intros y Hy.
    apply elem_of_cons in Hy as [-> |Hy]; auto. }
  apply submseteq_length in Hsub. simpl in Hsub. lia.
Qed.

End Walks.

(** ** The phase builder *)

Section PhasesFacts.
Variable _deps : ProjectRef → list ProjectRef.

Lemma has_true (S : gset ProjectRef) p : has S p = true ↔ p ∈ S.
Proof. unfold has. apply bool_decide_eq_true. Qed.

Lemma has_false (S : gset ProjectRef) p : has S p = false ↔ p ∉ S.
Proof. unfold has. apply bool_decide_eq_false. Qed.

Lemma findUnprocessedDep_false processed p :
  findUnprocessedDep _deps processed p = false ↔
  Forall (λ d, d ∈ processed) (_deps p).
Proof.
  unfold findUnprocessedDep. induction (_deps p) as [|d l IH]; simpl.
  - split; [constructor|done].
  - rewrite orb_false_iff, IH, negb_false_iff, has_true, Forall_cons. done.
Qed.

Lemma collectPhase_filter processed l :
  collectPhase _deps processed l =
  filter (λ s, eligible _deps processed (_projectConfig s)) l.
Proof.
  induction l as [|s l IH]; [done|]. simpl. rewrite filter_cons.
  destruct (has processed (_projectConfig s)) eqn:Hh.
  - apply has_true in Hh. rewrite decide_False; [done|]. by intros [? _].
  - apply has_false in Hh.
    destruct (findUnprocessedDep _deps processed (_projectConfig s)) eqn:Hf.
    + rewrite decide_False; [done|]. intros [_ Hall].
      apply findUnprocessedDep_false in Hall. congruence.
    + apply findUnprocessedDep_false in Hf. rewrite decide_True; [|done].
      by rewrite IH.
Qed.

Lemma elem_of_addAll processed phase p :
  p ∈ addAll processed phase ↔ p ∈ processed ∨ p ∈ projectsOf phase.
Proof.
  unfold addAll, projectsOf. revert processed.
  induction phase as [|s phase IH]; intros processed; simpl.
  - rewrite elem_of_nil. tauto.
  - rewrite IH, elem_of_cons, elem_of_union, elem_of_singleton. tauto.
Qed.

Lemma projectsOf_app l1 l2 : projectsOf (l1 ++ l2) = projectsOf l1 ++ projectsOf l2.
Proof. unfold projectsOf. apply map_app. Qed.

Lemma elem_of_projectsOf l p :
  p ∈ projectsOf l ↔ ∃ s, s ∈ l ∧ _projectConfig s = p.
Proof.
  unfold projectsOf. change (map _projectConfig l) with (_projectConfig <$> l).
  rewrite list_elem_of_fmap. split; intros (s & H1 & H2); eauto.
Qed.

Lemma concat_snoc {B} (ls : list (list B)) (l : list B) :
  concat (ls ++ [l]) = concat ls ++ l.
Proof. rewrite concat_app. simpl. by rewrite app_nil_r. Qed.

Lemma elem_of_projectsOf_concat phases p :
  p ∈ projectsOf (concat phases) ↔ ∃ i, inPhase phases i p.
Proof.
  rewrite elem_of_projectsOf. unfold inPhase. split.
  - intros (s & Hs & <-). rewrite list_elem_of_In, in_concat in Hs.
    destruct Hs as (phase & Hphase & Hs).
    apply list_elem_of_In in Hphase, Hs.
    apply list_elem_of_lookup in Hphase as [i Hi].
    exists i, phase. split; [done|]. apply elem_of_projectsOf. eauto.
  - intros (i & phase & Hi & Hp). apply elem_of_projectsOf in Hp as (s & Hs & <-).
    exists s. split; [|done]. rewrite list_elem_of_In, in_concat.
    exists phase. split; apply list_elem_of_In; [|done].
    apply list_elem_of_lookup. eauto.
Qed.

Lemma inPhase_snoc phases phase i p :
  inPhase (phases ++ [phase]) i p ↔
  inPhase phases i p ∨ (i = length phases ∧ p ∈ projectsOf phase).
Proof.
  unfold inPhase. split.
  - intros (ph & Hi & Hp). apply lookup_snoc_Some in Hi as [[_ Hi]|[-> ->]]; eauto.
  - intros [(ph & Hi & Hp)|[-> Hp]].
    + exists ph. split; [|done]. apply lookup_snoc_Some. left.
      split; [|done]. by eapply lookup_lt_Some.
    + exists phase. split; [|done]. apply lookup_snoc_Some. by right.
Qed.

Lemma inPhase_lt phases i p : inPhase phases i p → i < length phases.
Proof. intros (ph & Hi & _). by eapply lookup_lt_Some. Qed.

Lemma filter_split_perm {B} (P Q T : B → Prop)
    `{!∀ x, Decision (P x)} `{!∀ x, Decision (Q x)} `{!∀ x, Decision (T x)}
    (l : list B) :
  (∀ x, x ∈ l → (P x ↔ Q x ∨ T x)) → (∀ x, x ∈ l → Q x → T x → False) →
  filter P l ≡ₚ filter Q l ++ filter T l.
Proof.
  induction l as [|x l IH]; intros Hiff Hdisj; [done|].
  assert (filter P l ≡ₚ filter Q l ++ filter T l) as IH'.
  { apply IH; intros y Hy; [apply Hiff|apply Hdisj]; by apply elem_of_cons; right. }
  pose proof (Hiff x ltac:(by apply elem_of_cons; left)) as Hx.
  pose proof (Hdisj x ltac:(by apply elem_of_cons; left)) as Hd.
  rewrite !filter_cons.
  destruct (decide (Q x)) as [HQ|HQ], (decide (T x)) as [HT|HT].
  - by destruct (Hd HQ HT).
  - rewrite decide_True by tauto. simpl. by rewrite IH'.
  - rewrite decide_True by tauto. rewrite IH'. apply Permutation_middle.
  - rewrite decide_False by tauto. done.
Qed.

Lemma filter_all {B} (P : B → Prop) `{!∀ x, Decision (P x)} (l : list B) :
  (∀ x, x ∈ l → P x) → filter P l = l.
Proof.
  induction l as [|x l IH]; intros Hall; [done|].
  rewrite filter_cons_True by (apply Hall; by apply elem_of_cons; left).
  rewrite IH; [done|]. intros y Hy. apply Hall. by apply elem_of_cons; right.
Qed.

Lemma PhasesInv_init suites : PhasesInv _deps suites [] ∅.
Proof.
  split; simpl.
  - intros p. unfold projectsOf. simpl. rewrite elem_of_nil. set_solver.
  - unfold remaining. rewrite filter_all; [done|]. intros s _. set_solver.
  - intros phase H. by apply elem_of_nil in H.
  - intros phase H. by apply elem_of_nil in H.
  - intros i phase s d H. by rewrite ?lookup_nil in H.
  - intros i j p (ph & H & _). by rewrite ?lookup_nil in H.
  - intros i phase s H. by rewrite ?lookup_nil in H.
  - intros phases0 lastPhase s H. by destruct phases0.
Qed.

Lemma elem_of_collectPhase processed suites s :
  s ∈ collectPhase _deps processed suites ↔
  s ∈ suites ∧ eligible _deps processed (_projectConfig s).
Proof. rewrite collectPhase_filter, list_elem_of_filter. tauto. Qed.

Lemma projectsOf_collectPhase processed suites p :
  p ∈ projectsOf (collectPhase _deps processed suites) ↔
  p ∈ projectsOf suites ∧ eligible _deps processed p.
Proof.
  rewrite !elem_of_projectsOf. split.
  - intros (s & Hs & <-). apply elem_of_collectPhase in Hs as [Hs He]. eauto.
  - intros [(s & Hs & <-) He]. exists s. split; [|done].
    by apply elem_of_collectPhase.
Qed.

Lemma remaining_split processed suites :
  remaining processed suites ≡ₚ
  collectPhase _deps processed suites ++
  remaining (addAll processed (collectPhase _deps processed suites)) suites.
Proof.
  unfold remaining. rewrite (collectPhase_filter processed suites) at 1.
  apply filter_split_perm.
  - intros s Hs. rewrite elem_of_addAll, projectsOf_collectPhase. split.
    + intros Hn. destruct (decide (eligible _deps processed (_projectConfig s)));
        [by left|right]. intros [?|[_ ?]]; done.
    + intros [[Hn _]|Hn]; [done|]. intros Hp. apply Hn. by left.
  - intros s Hs He Hn. apply Hn. apply elem_of_addAll. right.
    apply projectsOf_collectPhase. split; [|done].
    apply elem_of_projectsOf. eauto.
Qed.

Lemma PhasesInv_step suites phases processed :
  PhasesInv _deps suites phases processed →
  PhasesInv _deps suites
    (match collectPhase _deps processed suites with
     | [] => phases
     | _ :: _ => phases ++ [collectPhase _deps processed suites]
     end)
    (addAll processed (collectPhase _deps processed suites)).
Proof.
  intros Inv. pose proof (remaining_split processed suites) as Hsplit.
  pose proof (elem_of_collectPhase processed suites) as Hel.
  pose proof (projectsOf_collectPhase processed suites) as Hpr.
  pose proof (elem_of_addAll processed (collectPhase _deps processed suites)) as Hadd.
  destruct (collectPhase _deps processed suites) as [|s0 phase0] eqn:Hphase; [done|].
  set (phase := s0 :: phase0) in *.
  destruct Inv as [Iproc Iperm Ine Iord Ilay Iuni Ich Iblk].
  assert (∀ p, p ∈ projectsOf (concat phases) → ∃ j, j < length phases ∧ inPhase phases j p)
    as Hidx.
  { intros p Hp. apply elem_of_projectsOf_concat in Hp as [j Hj].
    exists j. split; [by eapply inPhase_lt|done]. }
  split.
  - intros p. rewrite Hadd, concat_snoc, projectsOf_app, elem_of_app, Iproc. done.
  - rewrite concat_snoc, <- app_assoc, <- Hsplit. done.
  - intros ph Hph. apply elem_of_app in Hph as [Hph|Hph]; [by apply Ine|].
    apply list_elem_of_singleton in Hph as ->. done.
  - intros ph Hph. apply elem_of_app in Hph as [Hph|Hph]; [by apply Iord|].
    apply list_elem_of_singleton in Hph as ->. rewrite <- Hphase, collectPhase_filter.
    apply sublist_filter.
  - intros i ph s d Hi Hs Hd. apply lookup_snoc_Some in Hi as [[Hlt Hi]|[-> <-]].
    + destruct (Ilay i ph s d Hi Hs Hd) as (j & Hj & Hin).
      exists j. split; [done|]. apply inPhase_snoc. by left.
    + apply Hel in Hs as [_ [_ Hall]]. rewrite Forall_forall in Hall.
      apply Hall, Iproc, Hidx in Hd as (j & Hj & Hin).
      exists j. split; [done|]. apply inPhase_snoc. by left.
  - intros i j p Hi Hj. apply inPhase_snoc in Hi, Hj.
    destruct Hi as [Hi|[-> Hi]], Hj as [Hj|[-> Hj]]; [by eapply Iuni| | |done].
    + apply Hpr in Hj as [_ [Hn _]]. destruct Hn. apply Iproc.
      apply elem_of_projectsOf_concat. eauto.
    + apply Hpr in Hi as [_ [Hn _]]. destruct Hn. apply Iproc.
      apply elem_of_projectsOf_concat. eauto.
  - intros i ph s Hi Hs. apply lookup_snoc_Some in Hi as [[Hlt Hi]|[Hlen <-]].
    + destruct (Ich i ph s Hi Hs) as (d & Hd & Hin).
      exists d. split; [done|]. apply inPhase_snoc. by left.
    + apply Hel in Hs as [Hs [Hn Hall]].
      destruct (exists_last (l:=phases)) as (phases0 & lastPhase & Hlast).
      { intros ->. simpl in Hlen. lia. }
      destruct (Iblk phases0 lastPhase s Hlast Hs Hn) as (d & Hd & Hnot).
      exists d. split; [done|]. apply inPhase_snoc. left.
      rewrite Forall_forall in Hall. pose proof (Hall d Hd) as Hdp.
      apply Iproc in Hdp. subst phases.
      rewrite concat_snoc, projectsOf_app, elem_of_app in Hdp.
      destruct Hdp as [Hdp|Hdp]; [done|].
      apply inPhase_snoc. right. split; [|done].
      rewrite length_app in Hlen. simpl in Hlen. lia.
  - intros phases0 lastPhase s Heq Hs Hn.
    apply app_inj_tail in Heq as [<- <-].
    assert (¬ eligible _deps processed (_projectConfig s)) as Hne.
    { intros He. apply Hn, Hadd. right. apply Hpr. split; [|done].
      apply elem_of_projectsOf. eauto. }
    assert (_projectConfig s ∉ processed) as Hnp.
    { intros Hp. apply Hn, Hadd. by left. }
    assert (¬ Forall (λ d, d ∈ processed) (_deps (_projectConfig s))) as Hnall.
    { intros Hall. by apply Hne. }
    apply not_Forall_Exists in Hnall; [|apply _].
    apply Exists_exists in Hnall as (d & Hd & Hdn). simpl in Hdn.
    exists d. split; [done|]. intros Hc. by apply Hdn, Iproc.
Qed.

Lemma buildPhasesLoop_inv n suites phases processed :
  PhasesInv _deps suites phases processed →
  PhasesInv _deps suites
    (fst (buildPhasesLoop _deps n suites phases processed))
    (snd (buildPhasesLoop _deps n suites phases processed)).
Proof.
  revert phases processed. induction n as [|n IH]; intros phases processed Inv;
    [done|].
  simpl. apply IH. by apply PhasesInv_step.
Qed.

Lemma buildPhases_inv suites :
  ∃ processed, PhasesInv _deps suites (buildPhases _deps suites) processed.
Proof.
  eexists. unfold buildPhases. apply buildPhasesLoop_inv, PhasesInv_init.
Qed.

(** *** Progress on acyclic graphs *)

Lemma collectPhase_progress suites processed :
  closedGraph _deps suites → acyclic _deps suites →
  remaining processed suites ≠ [] → collectPhase _deps processed suites ≠ [].
Proof.
  intros Hclosed Hacyc Hrem Hnil.
  destruct (remaining processed suites) as [|s0 rem0] eqn:Hr; [done|].
  assert (∀ s, s ∈ remaining processed suites ↔ s ∈ suites ∧ _projectConfig s ∉ processed)
    as Hin.
  { intros s. unfold remaining. rewrite list_elem_of_filter. tauto. }
  destruct (no_sink_cycle (dependsOn _deps suites)
              (projectsOf (remaining processed suites)) (_projectConfig s0))
    as [y Hy].
  - apply elem_of_projectsOf. exists s0. split; [|done]. rewrite Hr. by left.
  - intros p Hp. apply elem_of_projectsOf in Hp as (s & Hs & <-).
    apply Hin in Hs as [Hs Hn].
    assert (¬ Forall (λ d, d ∈ processed) (_deps (_projectConfig s))) as Hnall.
    { intros Hall. assert (s ∈ collectPhase _deps processed suites) as Hc.
      { apply elem_of_collectPhase. done. }
      rewrite Hnil in Hc. by apply elem_of_nil in Hc. }
    apply not_Forall_Exists in Hnall; [|apply _].
    apply Exists_exists in Hnall as (d & Hd & Hdn). simpl in Hdn.
    assert (dependsOn _deps suites (_projectConfig s) d) as Hdep.
    { split; [|done]. apply elem_of_projectsOf. eauto. }
    exists d. split; [|done].
    unfold closedGraph in Hclosed. rewrite Forall_forall in Hclosed.
    pose proof (Hclosed s Hs) as Hcs. rewrite Forall_forall in Hcs.
    apply Hcs, elem_of_projectsOf in Hd as (s' & Hs' & <-).
    apply elem_of_projectsOf. exists s'. split; [|done]. by apply Hin.
  - by apply (Hacyc y).
Qed.

Lemma collectPhase_remaining_nil suites processed :
  remaining processed suites = [] → collectPhase _deps processed suites = [].
Proof.
  intros Hrem. destruct (collectPhase _deps processed suites) as [|s l] eqn:Hc;
    [done|].
  assert (s ∈ collectPhase _deps processed suites) as Hs by (rewrite Hc; by left).
  apply elem_of_collectPhase in Hs as [Hs [Hn _]].
  assert (s ∈ remaining processed suites) as Hr.
  { unfold remaining. by apply list_elem_of_filter. }
  rewrite Hrem in Hr. by apply elem_of_nil in Hr.
Qed.

Lemma buildPhasesLoop_finishes n suites phases processed :
  closedGraph _deps suites → acyclic _deps suites →
  length (remaining processed suites) ≤ n →
  remaining (snd (buildPhasesLoop _deps n suites phases processed)) suites = [].
Proof.
  intros Hclosed Hacyc. revert phases processed.
  induction n as [|n IH]; intros phases processed Hlen; simpl.
  - destruct (remaining processed suites); [done|simpl in Hlen; lia].
  - apply IH. pose proof (remaining_split processed suites) as Hsplit.
    apply Permutation_length in Hsplit. rewrite length_app in Hsplit.
    destruct (remaining processed suites) as [|s0 rem0] eqn:Hr.
    + simpl in Hsplit. lia.
    + assert (collectPhase _deps processed suites ≠ []) as Hne.
      { apply collectPhase_progress; [done..|]. by rewrite Hr. }
      destruct (collectPhase _deps processed suites); [done|].
      simpl in *. lia.
Qed.

Lemma buildPhases_complete suites :
  closedGraph _deps suites → acyclic _deps suites →
  concat (buildPhases _deps suites) ≡ₚ suites.
Proof.
  intros Hclosed Hacyc.
  pose proof (buildPhasesLoop_inv (length suites) suites [] ∅ (PhasesInv_init suites))
    as Inv.
  pose proof (buildPhasesLoop_finishes (length suites) suites [] ∅ Hclosed Hacyc)
    as Hfin.
  destruct Inv as [_ Iperm _ _ _ _ _ _]. unfold buildPhases.
  rewrite Hfin in Iperm; [by rewrite app_nil_r in Iperm|].
  unfold remaining. apply length_filter.
Qed.

(** A rank that decreases along every dependency rules cycles out. *)
Lemma acyclic_of_rank suites (rank : ProjectRef → nat) :
  (∀ p q, dependsOn _deps suites p q → rank q < rank p) → acyclic _deps suites.
Proof.
  intros Hrank p Hp.
  assert (∀ a b, tc (dependsOn _deps suites) a b → rank b < rank a) as Hlt.
  { intros a b Hab. induction Hab as [a b Hab|a b c Hab _ IH].
    - by apply Hrank.
    - apply Hrank in Hab. lia. }
  apply Hlt in Hp. lia.
Qed.

(** Dependencies, followed any number of times, lead to strictly earlier
    phases. *)
Lemma PhasesInv_tc suites phases processed :
  PhasesInv _deps suites phases processed →
  ∀ a b, tc (λ a b, b ∈ _deps a) a b →
  ∀ i, inPhase phases i a → ∃ j, j < i ∧ inPhase phases j b.
Proof.
  intros Inv a b Hab. induction Hab as [a b Hab|a b c Hab _ IH]; intros i Hi.
  - destruct Hi as (phase & Hi & Ha).
    apply elem_of_projectsOf in Ha as (s & Hs & <-).
    by eapply (inv_layer _ _ _ _ Inv).
  - destruct Hi as (phase & Hi & Ha).
    apply elem_of_projectsOf in Ha as (s & Hs & <-).
    destruct (inv_layer _ _ _ _ Inv i phase s b Hi Hs Hab) as (k & Hk & Hkb).
    destruct (IH k Hkb) as (j & Hj & Hjc). exists j. split; [lia|done].
Qed.

End PhasesFacts.

(** ** Claims about the phase builder *)

(** C2. On an acyclic dependency graph (every dependency of an input
    project being itself an input project), [buildPhases] partitions the
    input: the phases, put end to end, are a rearrangement of the input
    suites, every input project lies in a phase, no project lies in two
    phases, and every dependency of a project lies in a phase of strictly
    smaller index. *)
Theorem buildPhases_partition _deps suites :
  closedGraph _deps suites → acyclic _deps suites →
  concat (buildPhases _deps suites) ≡ₚ suites ∧
  (∀ s, s ∈ suites → ∃ i, inPhase (buildPhases _deps suites) i (_projectConfig s)) ∧
  (∀ i j p, inPhase (buildPhases _deps suites) i p →
            inPhase (buildPhases _deps suites) j p → i = j) ∧
  (∀ i p d, inPhase (buildPhases _deps suites) i p → d ∈ _deps p →
     (∃ j, j < i ∧ inPhase (buildPhases _deps suites) j d) ∧
     (∀ j, inPhase (buildPhases _deps suites) j d → j < i)).
Proof.
  intros Hclosed Hacyc.
  pose proof (buildPhases_complete _deps suites Hclosed Hacyc) as Hperm.
  destruct (buildPhases_inv _deps suites) as [processed Inv].
  split; [done|]. split; [|split].
  - intros s Hs. apply elem_of_projectsOf_concat, elem_of_projectsOf.
    exists s. split; [|done]. by rewrite Hperm.
  - apply (inv_unique _ _ _ _ Inv).
  - intros i p d (phase & Hi & Hp) Hd.
    apply elem_of_projectsOf in Hp as (s & Hs & <-).
    destruct (inv_layer _ _ _ _ Inv i phase s d Hi Hs Hd) as (j & Hj & Hjd).
    split; [eauto|]. intros j' Hj'.
    by rewrite (inv_unique _ _ _ _ Inv j' j d Hj' Hjd).
Qed.

Lemma buildPhases_partition_witness :
  concat (buildPhases depsABC suitesABC) ≡ₚ suitesABC ∧
  (∀ s, s ∈ suitesABC →
        ∃ i, inPhase (buildPhases depsABC suitesABC) i (_projectConfig s)) ∧
  (∀ i j p, inPhase (buildPhases depsABC suitesABC) i p →
            inPhase (buildPhases depsABC suitesABC) j p → i = j) ∧
  (∀ i p d, inPhase (buildPhases depsABC suitesABC) i p → d ∈ depsABC p →
     (∃ j, j < i ∧ inPhase (buildPhases depsABC suitesABC) j d) ∧
     (∀ j, inPhase (buildPhases depsABC suitesABC) j d → j < i)).
Proof.
  apply (buildPhases_partition depsABC suitesABC).
  - vm_compute. repeat constructor.
  - apply (acyclic_of_rank _ _ (λ p, if decide (p = "A") then 0 else 1)).
    intros p q [Hp Hq]. elem_cases Hp; subst p; elem_cases Hq; subst q;
      vm_compute; lia.
Defined.

(** C3, what fails.  On the two projects of the circular-dependency test,
    next to an independent project, [buildPhases] raises nothing: it
    returns a phase list, and that list schedules the independent
    project. *)
Lemma buildPhases_cycle_counterexample :
  cyclic depsCycle suitesCycle ∧
  buildPhasesCall depsCycle suitesCycle = Returns [[suiteOf "C"]] ∧
  ¬ ∃ message, buildPhasesCall depsCycle suitesCycle = Throws message.
Proof.
  split; [|split].
  - exists "A". apply tc_l with "B"; [|apply tc_once]; split; solve_elem.
  - vm_compute. reflexivity.
  - intros [message H]. discriminate H.
Qed.

(** C8. [buildPhases] is a function of the ordered input: two calls on the
    same input return the same phase list, and every phase lists its
    suites in the order in which the input lists them. *)
Theorem buildPhases_deterministic _deps suites :
  (∀ phases1 phases2,
     buildPhasesCall _deps suites = Returns phases1 →
     buildPhasesCall _deps suites = Returns phases2 → phases1 = phases2) ∧
  (∀ phase, phase ∈ buildPhases _deps suites → sublist phase suites).
Proof.
  split.
  - intros phases1 phases2 H1 H2. rewrite H1 in H2. by injection H2.
  - destruct (buildPhases_inv _deps suites) as [processed Inv].
    apply (inv_order _ _ _ _ Inv).
Qed.

Lemma buildPhases_deterministic_witness :
  buildPhasesCall depsABC suitesABC =
    Returns [[suiteOf "A"]; [suiteOf "B"; suiteOf "C"]] ∧
  sublist [suiteOf "B"; suiteOf "C"] suitesABC.
Proof.
  assert (buildPhasesCall depsABC suitesABC =
            Returns [[suiteOf "A"]; [suiteOf "B"; suiteOf "C"]]) as Hrun
    by (vm_compute; reflexivity).
  split; [exact Hrun|].
  apply (buildPhases_deterministic depsABC suitesABC).
  assert (buildPhases depsABC suitesABC =
            [[suiteOf "A"]; [suiteOf "B"; suiteOf "C"]]) as ->
    by (vm_compute; reflexivity).
  apply elem_of_cons. right. apply elem_of_cons. by left.
Defined.

(** ** The phase runner *)

Section RunnerFacts.
Variable _deps : ProjectRef → list ProjectRef.
Variable ok : TestCase → Results → bool.

Lemma hasFailedDeps_true successful p :
  hasFailedDeps _deps successful p = true ↔ ∃ d, d ∈ _deps p ∧ d ∉ successful.
Proof.
  unfold hasFailedDeps. rewrite existsb_exists. split.
  - intros (d & Hd & Hn). exists d. apply list_elem_of_In in Hd.
    apply negb_true_iff, has_false in Hn. done.
  - intros (d & Hd & Hn). exists d. split; [by apply list_elem_of_In|].
    by apply negb_true_iff, has_false.
Qed.

Lemma hasFailedDeps_false successful p :
  hasFailedDeps _deps successful p = false ↔ ∀ d, d ∈ _deps p → d ∈ successful.
Proof.
  rewrite <- not_true_iff_false, hasFailedDeps_true. split.
  - intros Hn d Hd. destruct (decide (d ∈ successful)); [done|].
    destruct Hn. eauto.
  - intros Hall (d & Hd & Hn). auto.
Qed.

Lemma inner_skip_spec k p l (results : Results) events :
  foldl (λ '(results, events) test,
           (appendSkipped test results, events ++ [ESkipTest k p test]))
        (results, events) l =
  (foldl (λ r t, appendSkipped t r) results l, events ++ map (ESkipTest k p) l).
Proof.
  revert results events. induction l as [|t l IH]; intros results events; simpl.
  - by rewrite app_nil_r.
  - rewrite IH, <- app_assoc. done.
Qed.

Lemma skipTests_spec k p groups (results : Results) events :
  skipTests k p groups (results, events) =
  (foldl (λ r t, appendSkipped t r) results (flat_map tests groups),
   events ++ map (ESkipTest k p) (flat_map tests groups)).
Proof.
  unfold skipTests. revert results events.
  induction groups as [|g groups IH]; intros results events; simpl.
  - by rewrite app_nil_r.
  - rewrite inner_skip_spec, IH, foldl_app, map_app, app_assoc. done.
Qed.

Lemma collectGroups_spec k successful projs acc (results : Results) events :
  collectGroups _deps k successful projs acc (results, events) =
  (acc ++ eligibleGroups _deps successful projs,
   (skippedResults _deps successful projs results,
    events ++ flat_map (projectEvents _deps k successful) projs)).
Proof.
  revert acc results events.
  induction projs as [|pw projs IH]; intros acc results events; simpl.
  - by rewrite !app_nil_r.
  - unfold projectEvents at 1, skippedResults. simpl.
    destruct (hasFailedDeps _deps successful (project pw)) eqn:Hf; simpl.
    + rewrite skipTests_spec, IH, <- app_assoc. done.
    + rewrite IH, <- !app_assoc. done.
Qed.

Lemma appendSkipped_fold l (r : Results) t :
  ∃ n, foldl (λ r t, appendSkipped t r) r l t =
         r t ++ replicate n (mkTestResult skipped) ∧
       (t ∈ l → 0 < n).
Proof.
  revert r. induction l as [|t0 l IH]; intros r; simpl.
  - exists 0. simpl. rewrite app_nil_r. split; [done|].
    intros Hin. by apply elem_of_nil in Hin.
  - destruct (IH (appendSkipped t0 r)) as (n & Heq & Hpos). rewrite Heq.
    unfold appendSkipped at 1. destruct (decide (t = t0)) as [->|Hne].
    + exists (S n). rewrite <- app_assoc. simpl. split; [done|lia].
    + exists n. split; [done|]. intros Hin.
      apply elem_of_cons in Hin as [?|Hin]; [done|by apply Hpos].
Qed.

(** The first loop only appends 'skipped' results, at least one for each
    test of a project whose dependencies failed. *)
Lemma skippedResults_spec successful projs (r : Results) t :
  ∃ n, skippedResults _deps successful projs r t =
         r t ++ replicate n (mkTestResult skipped) ∧
       ∀ pw, pw ∈ projs → hasFailedDeps _deps successful (project pw) = true →
             t ∈ flat_map tests (testGroups pw) → 0 < n.
Proof.
  unfold skippedResults. revert r.
  induction projs as [|pw0 projs IH]; intros r; simpl.
  - exists 0. simpl. rewrite app_nil_r. split; [done|].
    intros pw Hin. by apply elem_of_nil in Hin.
  - destruct (hasFailedDeps _deps successful (project pw0)) eqn:Hf.
    + destruct (IH (foldl (λ r t, appendSkipped t r) r
                          (flat_map tests (testGroups pw0)))) as (n2 & Heq2 & Hpos2).
      destruct (appendSkipped_fold (flat_map tests (testGroups pw0)) r t)
        as (n1 & Heq1 & Hpos1).
      exists (n1 + n2). rewrite Heq2, Heq1, <- app_assoc, replicate_add.
      split; [done|]. intros pw Hin Hfailed Ht.
      apply elem_of_cons in Hin as [->|Hin].
      * specialize (Hpos1 Ht). lia.
      * specialize (Hpos2 pw Hin Hfailed Ht). lia.
    + destruct (IH r) as (n & Heq & Hpos). exists n. split; [done|].
      intros pw Hin Hfailed Ht. apply elem_of_cons in Hin as [->|Hin];
        [congruence|by eapply Hpos].
Qed.

Lemma last_replicate_app {B} (l : list B) n x :
  0 < n → last (l ++ replicate n x) = Some x.
Proof.
  intros Hn. destruct n as [|n]; [lia|].
  by rewrite replicate_S_end, app_assoc, last_snoc.
Qed.

Lemma markSuccessful_spec k results projs successful events :
  markSuccessful _deps ok k results projs (successful, events) =
  (list_to_set (addedProjects _deps ok results projs successful) ∪ successful,
   events ++ map (EAddSuccessful k) (addedProjects _deps ok results projs successful)).
Proof.
  revert successful events.
  induction projs as [|pw projs IH]; intros successful events; simpl.
  - f_equal; [set_solver|by rewrite app_nil_r].
  - destruct (negb (hasFailedDeps _deps successful (project pw)) &&
              negb (existsb (λ test, negb (ok test results))
                            (allTests (projectSuite pw)))); simpl.
    + rewrite IH. f_equal; [set_solver|]. by rewrite <- app_assoc.
    + apply IH.
Qed.

(** Each added project passed the dependency test against a set made of
    the successful projects of earlier phases and of projects of this
    phase. *)
Lemma addedProjects_spec results projs successful p :
  p ∈ addedProjects _deps ok results projs successful →
  ∃ pw successful',
    pw ∈ projs ∧ project pw = p ∧
    hasFailedDeps _deps successful' p = false ∧
    ∀ d, d ∈ successful' →
         d ∈ successful ∨ ∃ pw', pw' ∈ projs ∧ project pw' = d.
Proof.
  revert successful. induction projs as [|pw projs IH]; intros successful Hp;
    simpl in Hp.
  - by apply elem_of_nil in Hp.
  - assert (∀ succ0,
      (∀ d, d ∈ succ0 → d ∈ successful ∨ d = project pw) →
      p ∈ addedProjects _deps ok results projs succ0 →
      ∃ pw0 successful',
        pw0 ∈ pw :: projs ∧ project pw0 = p ∧
        hasFailedDeps _deps successful' p = false ∧
        ∀ d, d ∈ successful' →
             d ∈ successful ∨ ∃ pw', pw' ∈ pw :: projs ∧ project pw' = d) as Hrest.
    { intros succ0 Hsucc0 Hin.
      destruct (IH succ0 Hin) as (pw' & s' & Hpw' & Hpp & Hfd & Hs').
      exists pw', s'. split; [by apply elem_of_cons; right|].
      split; [done|]. split; [done|]. intros d Hd.
      destruct (Hs' d Hd) as [Hd'|(pw'' & ? & ?)].
      - destruct (Hsucc0 d Hd') as [?| ->]; [by left|right].
        exists pw. split; [by apply elem_of_cons; left|done].
      - right. exists pw''. split; [by apply elem_of_cons; right|done]. }
    destruct (hasFailedDeps _deps successful (project pw)) eqn:Hf; simpl in Hp.
    + apply (Hrest successful); [by left|done].
    + destruct (existsb (λ test, negb (ok test results)) (allTests (projectSuite pw)));
        simpl in Hp.
      * apply (Hrest successful); [by left|done].
      * apply elem_of_cons in Hp as [-> |Hp].
        { exists pw, successful. split; [by apply elem_of_cons; left|].
          split; [done|]. split; [done|]. intros d Hd. by left. }
        apply (Hrest ({[project pw]} ∪ successful)); [|done].
        intros d Hd. apply elem_of_union in Hd as [Hd|Hd]; [|by left].
        apply elem_of_singleton in Hd. by right.
Qed.

(** The state a phase leaves: what it adds to the successful set, and the
    events it appends. *)
Lemma runPhase_shape k phase successful results0 events :
  ∃ added results' answer,
    runPhase _deps ok k phase (mkRunState successful results0 events) =
    mkRunState (list_to_set added ∪ successful) results'
      (events ++ flat_map (projectEvents _deps k successful) (projects phase)
              ++ runEvents k (eligibleGroups _deps successful (projects phase))
              ++ [EHasWorkerErrors k answer]
              ++ map (EAddSuccessful k) added) ∧
    (answer = true → added = []) ∧
    (∀ p, p ∈ added →
       ∃ pw successful',
         pw ∈ projects phase ∧ project pw = p ∧
         hasFailedDeps _deps successful' p = false ∧
         ∀ d, d ∈ successful' →
              d ∈ successful ∨ ∃ pw', pw' ∈ projects phase ∧ project pw' = d) ∧
    (∀ tr, runPhase _deps ok k phase (mkRunState successful results0 tr) =
           mkRunState (list_to_set added ∪ successful) results'
             (tr ++ flat_map (projectEvents _deps k successful) (projects phase)
                 ++ runEvents k (eligibleGroups _deps successful (projects phase))
                 ++ [EHasWorkerErrors k answer]
                 ++ map (EAddSuccessful k) added)).
Proof.
  set (groups := eligibleGroups _deps successful (projects phase)).
  set (results1 := skippedResults _deps successful (projects phase) results0).
  set (ran := match groups with [] => None | _ :: _ => Some groups end).
  set (results2 := match groups with
                   | [] => results1
                   | _ :: _ => run (dispatcher phase) groups results1
                   end).
  set (answer := hasWorkerErrors (dispatcher phase) ran results2).
  set (added := if answer then []
                else addedProjects _deps ok results2 (projects phase) successful).
  assert (∀ tr, runPhase _deps ok k phase (mkRunState successful results0 tr) =
           mkRunState (list_to_set added ∪ successful) results2
             (tr ++ flat_map (projectEvents _deps k successful) (projects phase)
                 ++ runEvents k groups
                 ++ [EHasWorkerErrors k answer]
                 ++ map (EAddSuccessful k) added)) as Hrun.
  { intros tr. unfold runPhase. simpl. rewrite collectGroups_spec. simpl.
    fold groups results1. subst added answer ran results2.
    destruct groups as [|g groups']; simpl.
    - destruct (hasWorkerErrors (dispatcher phase) None results1); simpl.
      + f_equal; [set_solver|]. by rewrite <- ?app_assoc; simpl; rewrite ?app_nil_r.
      + rewrite markSuccessful_spec. f_equal.
        by rewrite <- ?app_assoc; simpl; rewrite ?app_nil_r.
    - destruct (hasWorkerErrors (dispatcher phase) (Some (g :: groups'))
                  (run (dispatcher phase) (g :: groups') results1)); simpl.
      + f_equal; [set_solver|]. by rewrite <- ?app_assoc; simpl; rewrite ?app_nil_r.
      + rewrite markSuccessful_spec. f_equal.
        by rewrite <- ?app_assoc; simpl; rewrite ?app_nil_r. }
  exists added, results2, answer. split; [apply Hrun|]. split; [|split; [|done]].
  - intros Ha. subst added. by rewrite Ha.
  - intros p Hp. subst added. destruct answer; [by apply elem_of_nil in Hp|].
    by eapply addedProjects_spec.
Qed.

Lemma runPhase_trace k phase st :
  trace (runPhase _deps ok k phase st) = trace st ++ phaseEvents _deps ok k phase st.
Proof.
  destruct st as [successful results0 events]. unfold phaseEvents. simpl.
  destruct (runPhase_shape k phase successful results0 events)
    as (added & results' & answer & _ & _ & _ & Hrun).
  by rewrite !Hrun.
Qed.

Lemma runPhases_snoc k l phase st :
  runPhases _deps ok k (l ++ [phase]) st =
  runPhase _deps ok (k + length l) phase (runPhases _deps ok k l st).
Proof.
  revert k st. induction l as [|x l IH]; intros k st; simpl.
  - by rewrite Nat.add_0_r.
  - rewrite IH. by replace (S k + length l) with (k + S (length l)) by lia.
Qed.

Lemma createRunTestsTask_snoc l phase results0 :
  createRunTestsTask _deps ok (l ++ [phase]) results0 =
  runPhase _deps ok (length l) phase (createRunTestsTask _deps ok l results0).
Proof. unfold createRunTestsTask. by rewrite runPhases_snoc. Qed.

Lemma stateBefore_all phases results0 :
  stateBefore _deps ok (length phases) phases results0 =
  createRunTestsTask _deps ok phases results0.
Proof. unfold stateBefore. by rewrite firstn_all. Qed.

Lemma stateBefore_snoc k l phase results0 :
  k ≤ length l →
  stateBefore _deps ok k (l ++ [phase]) results0 = stateBefore _deps ok k l results0.
Proof. intros Hk. unfold stateBefore. by rewrite take_app_le. Qed.

Lemma stateBefore_S k phases phase results0 :
  phases !! k = Some phase →
  stateBefore _deps ok (S k) phases results0 =
  runPhase _deps ok k phase (stateBefore _deps ok k phases results0).
Proof.
  intros Hk. unfold stateBefore. rewrite (take_S_r _ _ _ Hk).
  rewrite createRunTestsTask_snoc. f_equal.
  rewrite length_take. apply lookup_lt_Some in Hk. lia.
Qed.

(** Every event of a run belongs to a phase, and is one that phase adds in
    the state in which it starts. *)
Lemma trace_elem phases results0 e :
  e ∈ trace (createRunTestsTask _deps ok phases results0) ↔
  ∃ k phase, phases !! k = Some phase ∧
             e ∈ phaseEvents _deps ok k phase (stateBefore _deps ok k phases results0).
Proof.
  induction phases as [|phase l IH] using rev_ind.
  - simpl. split; [intros H; by apply elem_of_nil in H|].
    intros (k & ph & Hk & _). by rewrite lookup_nil in Hk.
  - rewrite createRunTestsTask_snoc, runPhase_trace, elem_of_app, IH. split.
    + intros [(k & ph & Hk & He)|He].
      * exists k, ph. split.
        { apply lookup_snoc_Some. left. split; [by eapply lookup_lt_Some|done]. }
        rewrite stateBefore_snoc; [done|]. apply lookup_lt_Some in Hk. lia.
      * exists (length l), phase. split; [apply lookup_snoc_Some; by right|].
        by rewrite stateBefore_snoc, stateBefore_all.
    + intros (k & ph & Hk & He). apply lookup_snoc_Some in Hk as [[Hlt Hk]|[-> <-]].
      * left. exists k, ph. split; [done|].
        rewrite stateBefore_snoc in He; [done|lia].
      * right. by rewrite stateBefore_snoc, stateBefore_all in He.
Qed.

(** What an event of a phase can be. *)
Lemma phaseEvents_inv k phase st e :
  e ∈ phaseEvents _deps ok k phase st →
  (∃ pw t, pw ∈ projects phase ∧
           hasFailedDeps _deps (successfulProjects st) (project pw) = true ∧
           t ∈ flat_map tests (testGroups pw) ∧ e = ESkipTest k (project pw) t) ∨
  (∃ pw, pw ∈ projects phase ∧
         hasFailedDeps _deps (successfulProjects st) (project pw) = false ∧
         e = EPushGroups k (project pw) (testGroups pw)) ∨
  (eligibleGroups _deps (successfulProjects st) (projects phase) ≠ [] ∧
   (e = ERun k (eligibleGroups _deps (successfulProjects st) (projects phase)) ∨
    e = EStop k)) ∨
  (∃ answer, e = EHasWorkerErrors k answer ∧
     (answer = true →
      successfulProjects (runPhase _deps ok k phase st) = successfulProjects st)) ∨
  (∃ p, e = EAddSuccessful k p ∧
        ∃ pw successful',
          pw ∈ projects phase ∧ project pw = p ∧
          hasFailedDeps _deps successful' p = false ∧
          ∀ d, d ∈ successful' →
               d ∈ successfulProjects st ∨
               ∃ pw', pw' ∈ projects phase ∧ project pw' = d).
Proof.
  destruct st as [successful results0 events]. unfold phaseEvents. simpl.
  destruct (runPhase_shape k phase successful results0 events)
    as (added & results' & answer & Hst & Hans & Hadded & Hrun).
  rewrite Hrun, Hst. simpl. rewrite !elem_of_app, elem_of_cons.
  intros [He|[He|[He|He]]].
  - apply list_elem_of_In, in_flat_map in He as (pw & Hpw & He).
    apply list_elem_of_In in Hpw, He. unfold projectEvents in He.
    destruct (hasFailedDeps _deps successful (project pw)) eqn:Hf.
    + left. change (e ∈ ESkipTest k (project pw) <$> flat_map tests (testGroups pw))
        in He. apply list_elem_of_fmap in He as (t & -> & Ht). eauto 10.
    + right; left. apply list_elem_of_singleton in He. eauto.
  - right; right; left. unfold runEvents in He.
    destruct (eligibleGroups _deps successful (projects phase)) as [|g gs] eqn:Hg;
      [by apply elem_of_nil in He|].
    split; [done|]. apply elem_of_cons in He as [He|He]; [by left|].
    apply list_elem_of_singleton in He. by right.
  - do 3 right; left. exists answer.
    split; [done|]. intros Ha. rewrite (Hans Ha). set_solver.
  - do 4 right. change (e ∈ EAddSuccessful k <$> added) in He.
    apply list_elem_of_fmap in He as (p & -> & Hp). exists p. split; [done|].
    by apply Hadded.
Qed.

(** A skipped project leaves one skip event per test of its groups. *)
Lemma phaseEvents_skip k phase st pw t :
  pw ∈ projects phase →
  hasFailedDeps _deps (successfulProjects st) (project pw) = true →
  t ∈ flat_map tests (testGroups pw) →
  ESkipTest k (project pw) t ∈ phaseEvents _deps ok k phase st.
Proof.
  intros Hpw Hf Ht.
  destruct st as [successful results0 events]. unfold phaseEvents. simpl in *.
  destruct (runPhase_shape k phase successful results0 events)
    as (added & results' & answer & _ & _ & _ & Hrun).
  rewrite Hrun. simpl. apply elem_of_app. left.
  apply list_elem_of_In, in_flat_map. exists pw.
  split; [by apply list_elem_of_In|]. apply list_elem_of_In.
  unfold projectEvents. rewrite Hf.
  change (ESkipTest k (project pw) t ∈
          ESkipTest k (project pw) <$> flat_map tests (testGroups pw)).
  by apply list_elem_of_fmap_2.
Qed.

(** A project enters the successful set through an [add] only. *)
Lemma runPhase_successful k phase st p :
  p ∈ successfulProjects (runPhase _deps ok k phase st) →
  p ∈ successfulProjects st ∨ EAddSuccessful k p ∈ phaseEvents _deps ok k phase st.
Proof.
  destruct st as [successful results0 events]. unfold phaseEvents. simpl.
  destruct (runPhase_shape k phase successful results0 events)
    as (added & results' & answer & Hst & _ & _ & Hrun).
  rewrite Hst, (Hrun []). simpl. rewrite elem_of_union, elem_of_list_to_set.
  intros [Hp|Hp]; [right|by left]. rewrite !elem_of_app, elem_of_cons. do 3 right.
  change (EAddSuccessful k p ∈ EAddSuccessful k <$> added).
  by apply list_elem_of_fmap_2.
Qed.

Lemma successful_elem phases results0 p :
  p ∈ successfulProjects (createRunTestsTask _deps ok phases results0) →
  ∃ k, EAddSuccessful k p ∈ trace (createRunTestsTask _deps ok phases results0).
Proof.
  induction phases as [|phase l IH] using rev_ind.
  - simpl. intros H. by apply elem_of_empty in H.
  - rewrite createRunTestsTask_snoc. intros Hp.
    apply runPhase_successful in Hp as [Hp|Hp].
    + destruct (IH Hp) as [k Hk]. exists k. rewrite runPhase_trace.
      apply elem_of_app. by left.
    + exists (length l). rewrite runPhase_trace. apply elem_of_app. by right.
Qed.

Lemma phaseEvents_push k phase st pw :
  pw ∈ projects phase →
  hasFailedDeps _deps (successfulProjects st) (project pw) = false →
  EPushGroups k (project pw) (testGroups pw) ∈ phaseEvents _deps ok k phase st.
Proof.
  intros Hpw Hf.
  destruct st as [successful results0 events]. unfold phaseEvents. simpl in *.
  destruct (runPhase_shape k phase successful results0 events)
    as (added & results' & answer & _ & _ & _ & Hrun).
  rewrite Hrun. simpl. apply elem_of_app. left.
  apply list_elem_of_In, in_flat_map. exists pw.
  split; [by apply list_elem_of_In|]. apply list_elem_of_In.
  unfold projectEvents. rewrite Hf. by apply list_elem_of_singleton.
Qed.

Lemma elem_of_eligibleGroups successful projs g :
  g ∈ eligibleGroups _deps successful projs →
  ∃ pw, pw ∈ projs ∧ hasFailedDeps _deps successful (project pw) = false ∧
        g ∈ testGroups pw.
Proof.
  unfold eligibleGroups. intros Hg.
  apply list_elem_of_In, in_flat_map in Hg as (pw & Hpw & Hg).
  apply list_elem_of_In in Hpw, Hg. exists pw.
  destruct (hasFailedDeps _deps successful (project pw));
    [by apply elem_of_nil in Hg|done].
Qed.

Lemma eligibleGroups_nil successful projs :
  (∀ pw, pw ∈ projs → hasFailedDeps _deps successful (project pw) = true) →
  eligibleGroups _deps successful projs = [].
Proof.
  intros Hall. destruct (eligibleGroups _deps successful projs) as [|g gs] eqn:Hg;
    [done|].
  destruct (elem_of_eligibleGroups successful projs g) as (pw & Hpw & Hf & _).
  { rewrite Hg. by left. }
  rewrite (Hall pw Hpw) in Hf. done.
Qed.

(** The successful projects a phase starts with come from earlier phases. *)
Lemma successful_before phases results0 k p :
  p ∈ successfulProjects (stateBefore _deps ok k phases results0) →
  ∃ k', k' < k ∧ projectIn phases k' p.
Proof.
  unfold stateBefore. intros Hp. apply successful_elem in Hp as [k0 Hp].
  apply trace_elem in Hp as (k' & phase & Hk' & He).
  apply lookup_take_Some in Hk' as [Hk' Hlt].
  apply phaseEvents_inv in He
    as [(pw & t & _ & _ & _ & Heq)|[(pw & _ & _ & Heq)|[[_ [Heq|Heq]]|
        [(b & Heq & _)|(p' & Heq & pw & _ & Hpw & Hproj & _)]]]];
    try discriminate Heq.
  injection Heq as -> ->. exists k'. split; [done|]. by exists phase, pw.
Qed.

(** *** The phases built from [buildPhases] are layered *)

Section TestGroupsTask.
Variable createTestGroups : Suite → nat → list TestGroup.
Variable newDispatcher : nat → Dispatcher.

Lemma projectIn_createTestGroupsTask workers suites i p :
  projectIn (createTestGroupsTask _deps createTestGroups newDispatcher workers suites) i p ↔
  inPhase (buildPhases _deps suites) i p.
Proof.
  unfold projectIn, inPhase, createTestGroupsTask. split.
  - intros (phase & pw & Hi & Hpw & Hp). rewrite list_lookup_imap in Hi.
    destruct (buildPhases _deps suites !! i) as [ph|] eqn:Hph; [|done].
    simpl in Hi. injection Hi as <-. simpl in Hpw. exists ph. split; [done|].
    unfold projectsWithTestGroups in Hpw.
    apply list_elem_of_In, in_map_iff in Hpw as (s & <- & Hs).
    simpl in Hp. subst p. apply elem_of_projectsOf. exists s.
    split; [by apply list_elem_of_In|done].
  - intros (ph & Hi & Hp). apply elem_of_projectsOf in Hp as (s & Hs & <-).
    exists (mkPhase (newDispatcher i)
              (projectsWithTestGroups createTestGroups workers ph)),
           (mkProjectWithTestGroups (_projectConfig s) s (createTestGroups s workers)).
    rewrite list_lookup_imap, Hi. simpl. split; [done|].
    split; [|reflexivity]. unfold projectsWithTestGroups.
    apply list_elem_of_In, in_map_iff. exists s.
    split; [done|by apply list_elem_of_In].
Qed.

Lemma createTestGroupsTask_layered workers suites :
  Layered _deps (createTestGroupsTask _deps createTestGroups newDispatcher workers suites).
Proof.
  destruct (buildPhases_inv _deps suites) as [processed Inv]. split.
  - intros i j p Hi Hj. apply projectIn_createTestGroupsTask in Hi, Hj.
    by eapply (inv_unique _ _ _ _ Inv).
  - intros i j p d Hi Hd Hj. apply projectIn_createTestGroupsTask in Hi, Hj.
    destruct Hi as (ph & Hi & Hp). apply elem_of_projectsOf in Hp as (s & Hs & <-).
    destruct (inv_layer _ _ _ _ Inv i ph s d Hi Hs Hd) as (j' & Hlt & Hj').
    by rewrite (inv_unique _ _ _ _ Inv j j' d Hj Hj').
  - intros i p Hi. apply projectIn_createTestGroupsTask in Hi.
    destruct Hi as (ph & Hi & Hp). apply elem_of_projectsOf in Hp as (s & Hs & <-).
    destruct (inv_chain _ _ _ _ Inv i ph s Hi Hs) as (d & Hd & Hin).
    exists d. split; [done|]. by apply projectIn_createTestGroupsTask.
Qed.

End TestGroupsTask.

(** *** Skipping the projects whose dependencies failed *)

Lemma skipped_project phases results0 k phase pw :
  Layered _deps phases →
  phases !! k = Some phase → pw ∈ projects phase →
  hasFailedDeps _deps (successfulProjects (stateBefore _deps ok k phases results0))
                (project pw) = true →
  (∀ g t, g ∈ testGroups pw → t ∈ tests g →
     ESkipTest k (project pw) t ∈ trace (createRunTestsTask _deps ok phases results0) ∧
     last ((collectGroups _deps k
              (successfulProjects (stateBefore _deps ok k phases results0))
              (projects phase) []
              (results (stateBefore _deps ok k phases results0),
               trace (stateBefore _deps ok k phases results0))).2.1 t)
       = Some (mkTestResult skipped)) ∧
  (∀ k' gs,
     EPushGroups k' (project pw) gs ∉ trace (createRunTestsTask _deps ok phases results0)) ∧
  (∀ k' gs g,
     ERun k' gs ∈ trace (createRunTestsTask _deps ok phases results0) → g ∈ gs →
     ∃ p' gs', p' ≠ project pw ∧ g ∈ gs' ∧
       EPushGroups k' p' gs' ∈ trace (createRunTestsTask _deps ok phases results0)) ∧
  (∀ k', EAddSuccessful k' (project pw) ∉
         trace (createRunTestsTask _deps ok phases results0)) ∧
  project pw ∉ successfulProjects (createRunTestsTask _deps ok phases results0).
Proof.
  intros Hlay Hk Hpw Hfailed.
  assert (projectIn phases k (project pw)) as Hin by (by exists phase, pw).
  assert (∀ k' gs,
    EPushGroups k' (project pw) gs ∉ trace (createRunTestsTask _deps ok phases results0))
    as Hnopush.
  { intros k' gs He. apply trace_elem in He as (k0 & ph & Hk0 & He).
    apply phaseEvents_inv in He
      as [(pw' & t & _ & _ & _ & Heq)|[(pw' & Hpw' & Hf & Heq)|[[_ [Heq|Heq]]|
          [(b & Heq & _)|(p' & Heq & _)]]]];
      try discriminate Heq.
    injection Heq as -> Hproj ->.
    assert (k0 = k) as ->.
    { apply (layered_unique _ _ Hlay k0 k (project pw)); [|done].
      exists ph, pw'. by rewrite Hproj. }
    rewrite <- Hproj in Hf. congruence. }
  assert (∀ k', EAddSuccessful k' (project pw) ∉
                trace (createRunTestsTask _deps ok phases results0)) as Hnoadd.
  { intros k' He. apply trace_elem in He as (k0 & ph & Hk0 & He).
    apply phaseEvents_inv in He
      as [(pw' & t & _ & _ & _ & Heq)|[(pw' & _ & _ & Heq)|[[_ [Heq|Heq]]|
          [(b & Heq & _)|(p' & Heq & pw' & succ' & Hpw' & Hproj & Hf & Hsucc')]]]];
      try discriminate Heq.
    injection Heq as -> <-.
    assert (k0 = k) as ->.
    { apply (layered_unique _ _ Hlay k0 k (project pw)); [|done].
      by exists ph, pw'. }
    assert (ph = phase) as -> by congruence.
    apply hasFailedDeps_true in Hfailed as (d & Hd & Hdn).
    rewrite hasFailedDeps_false in Hf.
    destruct (Hsucc' d (Hf d Hd)) as [?|(pw'' & Hpw'' & Hpd)]; [done|].
    assert (k < k); [|lia].
    apply (layered_deps _ _ Hlay k k (project pw) d); [done..|].
    by exists phase, pw''. }
  split; [|split; [done|split; [|split; [done|]]]].
  - intros g t Hg Ht.
    assert (t ∈ flat_map tests (testGroups pw)) as Hin_t.
    { apply list_elem_of_In, in_flat_map. exists g. split; by apply list_elem_of_In. }
    split.
    + apply trace_elem. exists k, phase. split; [done|].
      by apply phaseEvents_skip.
    + rewrite collectGroups_spec. simpl.
      destruct (skippedResults_spec
                  (successfulProjects (stateBefore _deps ok k phases results0))
                  (projects phase)
                  (results (stateBefore _deps ok k phases results0)) t)
        as (n & -> & Hpos).
      apply last_replicate_app. by apply (Hpos pw).
  - intros k' gs g He Hg. apply trace_elem in He as (k0 & ph & Hk0 & He).
    pose proof He as He'. apply phaseEvents_inv in He'
      as [(pw' & t & _ & _ & _ & Heq)|[(pw' & _ & _ & Heq)|[[_ [Heq|Heq]]|
          [(b & Heq & _)|(p' & Heq & _)]]]];
      try discriminate Heq.
    injection Heq as -> ->.
    apply elem_of_eligibleGroups in Hg as (pw' & Hpw' & Hf & Hg).
    assert (EPushGroups k0 (project pw') (testGroups pw') ∈
            trace (createRunTestsTask _deps ok phases results0)) as Hpush.
    { apply trace_elem. exists k0, ph. split; [done|]. by apply phaseEvents_push. }
    exists (project pw'), (testGroups pw'). split; [|done].
    intros Heq. rewrite Heq in Hpush. by apply Hnopush in Hpush.
  - intros Hp. apply successful_elem in Hp as [k' Hp]. by apply Hnoadd in Hp.
Qed.

(** *** After worker errors *)

Section Layers.
Variable phases : list Phase.
Variable results0 : Results.
Hypothesis Hlay : Layered _deps phases.

Lemma noneSuccessful_after_errors i :
  EHasWorkerErrors i true ∈ trace (createRunTestsTask _deps ok phases results0) →
  noneSuccessful _deps ok phases results0 i.
Proof.
  intros He p Hp Hsucc. apply trace_elem in He as (k & ph & Hk & He).
  apply phaseEvents_inv in He
    as [(pw' & t & _ & _ & _ & Heq)|[(pw' & _ & _ & Heq)|[[_ [Heq|Heq]]|
        [(b & Heq & Hsame)|(p' & Heq & _)]]]];
    try discriminate Heq.
  injection Heq as <- <-.
  rewrite (stateBefore_S _ _ _ _ Hk), (Hsame eq_refl) in Hsucc.
  apply successful_before in Hsucc as (k' & Hlt & Hk').
  pose proof (layered_unique _ _ Hlay k' i p Hk' Hp). lia.
Qed.

Lemma phase_all_failed k phase pw :
  noneSuccessful _deps ok phases results0 k →
  phases !! S k = Some phase → pw ∈ projects phase →
  ∃ d, d ∈ _deps (project pw) ∧ projectIn phases k d ∧
       d ∉ successfulProjects (stateBefore _deps ok (S k) phases results0).
Proof.
  intros Hnone Hk Hpw.
  destruct (layered_chain _ _ Hlay k (project pw)) as (d & Hd & Hin).
  { by exists phase, pw. }
  exists d. split; [done|]. split; [done|]. by apply Hnone.
Qed.

Lemma noneSuccessful_S k :
  noneSuccessful _deps ok phases results0 k →
  noneSuccessful _deps ok phases results0 (S k).
Proof.
  intros Hnone p Hp Hsucc. pose proof Hp as (phase & pw & Hk & Hpw & Hproj).
  rewrite (stateBefore_S _ _ _ _ Hk) in Hsucc.
  apply runPhase_successful in Hsucc as [Hsucc|He].
  - apply successful_before in Hsucc as (k' & Hlt & Hk').
    pose proof (layered_unique _ _ Hlay k' (S k) p Hk' Hp). lia.
  - apply phaseEvents_inv in He
      as [(pw' & t & _ & _ & _ & Heq)|[(pw' & _ & _ & Heq)|[[_ [Heq|Heq]]|
          [(b & Heq & _)|(p' & Heq & pw' & succ' & Hpw' & Hproj' & Hf & Hsucc')]]]];
      try discriminate Heq.
    injection Heq as <-.
    destruct (phase_all_failed k phase pw Hnone Hk Hpw) as (d & Hd & Hin & Hdn).
    rewrite Hproj in Hd. rewrite hasFailedDeps_false in Hf.
    destruct (Hsucc' d (Hf d Hd)) as [?|(pw'' & Hpw'' & Hpd)]; [done|].
    assert (S k = k); [|lia].
    apply (layered_unique _ _ Hlay (S k) k d); [|done]. by exists phase, pw''.
Qed.

Lemma no_run_after_none k gs :
  noneSuccessful _deps ok phases results0 k →
  ERun (S k) gs ∉ trace (createRunTestsTask _deps ok phases results0).
Proof.
  intros Hnone He. apply trace_elem in He as (k0 & ph & Hk0 & He).
  apply phaseEvents_inv in He
    as [(pw' & t & _ & _ & _ & Heq)|[(pw' & _ & _ & Heq)|[[Hne [Heq|Heq]]|
        [(b & Heq & _)|(p' & Heq & _)]]]];
    try discriminate Heq.
  injection Heq as <- ->. apply Hne, eligibleGroups_nil. intros pw Hpw.
  apply hasFailedDeps_true.
  destruct (phase_all_failed k ph pw Hnone Hk0 Hpw) as (d & Hd & _ & Hdn).
  eauto.
Qed.

Lemma no_run_after_errors i j gs :
  EHasWorkerErrors i true ∈ trace (createRunTestsTask _deps ok phases results0) →
  i < j →
  ERun j gs ∉ trace (createRunTestsTask _deps ok phases results0).
Proof.
  intros He Hij. apply noneSuccessful_after_errors in He.
  assert (∀ n, noneSuccessful _deps ok phases results0 (i + n)) as Hall.
  { induction n as [|n IH]; [by rewrite Nat.add_0_r|].
    rewrite Nat.add_succ_r. by apply noneSuccessful_S. }
  replace j with (S (i + (j - i - 1))) by lia. by apply no_run_after_none.
Qed.

End Layers.

End RunnerFacts.

(** ** Claims about the phase runner *)

(** C1. In a run of the phases built from the project suites, let a project
    of phase [k] have, when phase [k] starts, a dependency that is not in
    the set of successful projects.  Then every test of every one of its
    test groups gets a 'skipped' result, which is its last result when the
    first loop over the projects of the phase ends; no group is pushed for
    the project, and every group handed to [dispatcher.run] was pushed for
    another project; and the project is never added to the successful
    set. *)
Theorem failed_deps_skipped _deps ok createTestGroups newDispatcher
    workers suites results0 k phase pw :
  createTestGroupsTask _deps createTestGroups newDispatcher workers suites !! k
    = Some phase →
  pw ∈ projects phase →
  hasFailedDeps _deps
    (successfulProjects
       (stateBefore _deps ok k
          (createTestGroupsTask _deps createTestGroups newDispatcher workers suites)
          results0))
    (project pw) = true →
  (∀ g t, g ∈ testGroups pw → t ∈ tests g →
     ESkipTest k (project pw) t ∈
       trace (runTests _deps ok createTestGroups newDispatcher workers suites results0) ∧
     last ((collectGroups _deps k
              (successfulProjects
                 (stateBefore _deps ok k
                    (createTestGroupsTask _deps createTestGroups newDispatcher
                       workers suites) results0))
              (projects phase) []
              (results
                 (stateBefore _deps ok k
                    (createTestGroupsTask _deps createTestGroups newDispatcher
                       workers suites) results0),
               trace
                 (stateBefore _deps ok k
                    (createTestGroupsTask _deps createTestGroups newDispatcher
                       workers suites) results0))).2.1 t)
       = Some (mkTestResult skipped)) ∧
  (∀ k' gs,
     EPushGroups k' (project pw) gs ∉
       trace (runTests _deps ok createTestGroups newDispatcher workers suites results0)) ∧
  (∀ k' gs g,
     ERun k' gs ∈
       trace (runTests _deps ok createTestGroups newDispatcher workers suites results0) →
     g ∈ gs →
     ∃ p' gs', p' ≠ project pw ∧ g ∈ gs' ∧
       EPushGroups k' p' gs' ∈
         trace (runTests _deps ok createTestGroups newDispatcher workers suites results0)) ∧
  (∀ k', EAddSuccessful k' (project pw) ∉
       trace (runTests _deps ok createTestGroups newDispatcher workers suites results0)) ∧
  project pw ∉
    successfulProjects
      (runTests _deps ok createTestGroups newDispatcher workers suites results0).
Proof.
  intros Hk Hpw Hfailed. unfold runTests.
  apply (skipped_project _deps ok _ results0 k phase pw); [|done..].
  apply createTestGroupsTask_layered.
Qed.

Lemma failed_deps_skipped_witness :
  ESkipTest 2 "C" "C/test" ∈ trace runChain ∧
  (EPushGroups 2 "C" [mkTestGroup ["C/test"]] ∉ trace runChain) ∧
  (EAddSuccessful 2 "C" ∉ trace runChain) ∧
  ("C" ∉ successfulProjects runChain).
Proof.
  destruct (failed_deps_skipped depsChain lastResultOk oneGroupPerSuite
              (λ _, scriptedDispatcher ["B/test"] false) 1 suitesABC noResults 2
              (mkPhase (scriptedDispatcher ["B/test"] false)
                 [mkProjectWithTestGroups "C" (suiteOf "C") [mkTestGroup ["C/test"]]])
              (mkProjectWithTestGroups "C" (suiteOf "C") [mkTestGroup ["C/test"]]))
    as (Hskip & Hpush & _ & Hadd & Hsucc).
  - vm_compute. reflexivity.
  - apply list_elem_of_singleton. reflexivity.
  - vm_compute. reflexivity.
  - split; [|split; [|split]].
    + apply (Hskip (mkTestGroup ["C/test"])); apply list_elem_of_singleton; reflexivity.
    + apply Hpush.
    + apply Hadd.
    + apply Hsucc.
Defined.




(** The two theorems above rest on the shape of the phases that
    [createTestGroupsTask] builds.  On a phase that holds a project next to
    its dependency, the second loop reads the successful set after the
    dependency was added to it, and adds the project whose tests it has
    just skipped; on phases that do not depend on each other, a later
    phase runs after worker errors. *)
Remark unlayered_phases :
  trace (createRunTestsTask depsABC lastResultOk samePhase noResults) =
    [EPushGroups 0 "A" [mkTestGroup ["A/test"]];
     ESkipTest 0 "B" "B/test";
     ERun 0 [mkTestGroup ["A/test"]]; EStop 0;
     EHasWorkerErrors 0 false;
     EAddSuccessful 0 "A"; EAddSuccessful 0 "B"] ∧
  trace (createRunTestsTask (λ _, []) lastResultOk separatePhases noResults) =
    [EPushGroups 0 "A" [mkTestGroup ["A/test"]];
     ERun 0 [mkTestGroup ["A/test"]]; EStop 0;
     EHasWorkerErrors 0 true;
     EPushGroups 1 "B" [mkTestGroup ["B/test"]];
     ERun 1 [mkTestGroup ["B/test"]]; EStop 1;
     EHasWorkerErrors 1 true].
Proof. split; vm_compute; reflexivity. Qed.

(** ** The load task *)

(** C6. When [loadAllTests] resolves to a root suite, the load task throws
    'No tests found' exactly when that suite has no test,
    [passWithNoTests] is not set and the run is not sharded; otherwise it
    returns, with the root suite stored in the context. *)
Theorem load_task_no_tests loadAllTests context root :
  loadAllTests (config context) (options context) = Returns root →
  (createLoadTask loadAllTests context = Throws "No tests found" ↔
   rootAllTests root = [] ∧
   passWithNoTests (options context) ≠ Some true ∧
   shard (config context) = None) ∧
  (¬ (rootAllTests root = [] ∧
      passWithNoTests (options context) ≠ Some true ∧
      shard (config context) = None) →
   createLoadTask loadAllTests context =
     Returns (mkState (options context) (config context) (Some root))).
Proof.
  intros Hload. unfold createLoadTask. rewrite Hload. simpl.
  destruct (rootAllTests root) as [|t ts] eqn:Htests; simpl.
  - destruct (passWithNoTests (options context)) as [[|]|] eqn:Hpass; simpl;
      destruct (shard (config context)) as [sh|] eqn:Hshard; simpl;
      (split; [split|]); intuition congruence.
  - split; [split|]; intuition congruence.
Qed.

Lemma load_task_no_tests_witness :
  createLoadTask loadNothing bareState = Throws "No tests found".
Proof.
  apply (load_task_no_tests loadNothing bareState (mkRootSuite []));
    [reflexivity|]. repeat split; done.
Defined.

(** ** The file loader *)

Section LoaderFacts.
Variable requireOrImport : string → list string → list LoadedTest * option string.
Variable serializeError : string → TestError.
Variable pathRelative : string → string → string.
Variable pathBasename : string → string.
Variable pathExtname : string → string.

#[local] Abbreviation loadFile :=
  (loadTestFile requireOrImport serializeError pathRelative pathBasename pathExtname).
#[local] Abbreviation loadLoop :=
  (loadFiles requireOrImport serializeError pathRelative pathBasename pathExtname).

Lemma fixLocation_requireFile suite :
  _requireFile (fixLocation pathExtname suite) = _requireFile suite.
Proof.
  unfold fixLocation.
  destruct (remove_dups (map testFile (fileTests suite))) as [|f [|g l]]; [done| |done].
  destruct (decide (locationFile suite = f)); [done|].
  by destruct (decide (pathExtname f = pathExtname (locationFile suite))).
Qed.

Lemma fileLoaded_extends st st' ref file :
  extends st st' → fileLoaded st ref file → fileLoaded st' ref file.
Proof.
  intros (Hheap & _ & _) (suite & Href & Hfile). exists suite.
  split; [|done]. by eapply prefix_lookup_Some.
Qed.

Lemma extends_refl st : extends st st.
Proof. by repeat split. Qed.

Lemma extends_trans st1 st2 st3 : extends st1 st2 → extends st2 st3 → extends st1 st3.
Proof.
  intros (H1 & H2 & H3) (H1' & H2' & H3'). repeat split; by etrans.
Qed.

Lemma elem_of_prefix {B} (l1 l2 : list B) x : l1 `prefix_of` l2 → x ∈ l1 → x ∈ l2.
Proof. intros [k ->] Hx. apply elem_of_app. by left. Qed.

Lemma loadTestFile_hit rootDir file environment loadErrors st ref :
  cachedFileSuites st !! file = Some ref →
  loadFile rootDir file environment loadErrors st = (st, loadErrors, Returns ref).
Proof. intros Hc. unfold loadTestFile. by rewrite Hc. Qed.

(** One call in the loader environment: it returns, whatever the file
    does. *)
Lemma loadTestFile_loader rootDir file loadErrors st :
  ∃ st' loadErrors' ref,
    loadFile rootDir file loader loadErrors st = (st', loadErrors', Returns ref) ∧
    loadErrors `prefix_of` loadErrors' ∧
    extends st st' ∧
    (file ∈ required st' ∨ is_Some (cachedFileSuites st !! file)) ∧
    (∀ f r, cachedFileSuites st' !! f = Some r →
            is_Some (cachedFileSuites st !! f) ∨ f ∈ required st') ∧
    (LoaderWf st → LoaderWf st' ∧ fileLoaded st' ref file) ∧
    (∀ declared e,
       cachedFileSuites st !! file = None →
       requireOrImport file (required st) = (declared, Some e) →
       loadErrors' = loadErrors ++ [serializeError e] ∧
       cachedFileSuites st' !! file = None).
Proof.
  unfold loadTestFile.
  destruct (cachedFileSuites st !! file) as [cached|] eqn:Hc.
  - exists st, loadErrors, cached. split; [done|]. split; [done|].
    split; [apply extends_refl|]. split; [right; eauto|].
    split; [intros f r Hf; left; eauto|]. split; [|done].
    intros Hwf. split; [done|]. by apply Hwf.
  - destruct (requireOrImport file (required st)) as [declared [e|]] eqn:Hreq.
    + eexists _, _, _. split; [reflexivity|]. simpl.
      split; [by apply prefix_app_r|].
      split; [split; [|split]; simpl; [by apply prefix_app_r..|done]|].
      split; [left; apply elem_of_app; right; by apply list_elem_of_singleton|].
      split; [intros f r Hf; left; eauto|].
      split.
      * intros Hwf. split.
        { intros f r Hf. destruct (Hwf f r Hf) as (suite & Hs & Hfile).
          exists suite. split; [|done]. simpl. by apply lookup_app_l_Some. }
        eexists. simpl. split; [apply list_lookup_middle; done|].
        by rewrite fixLocation_requireFile.
      * intros declared' e' _ Heq. by injection Heq as <- <-.
    + eexists _, _, _. split; [reflexivity|]. simpl.
      split; [done|].
      split; [split; [|split]; simpl;
              [by apply prefix_app_r..|by apply insert_subseteq]|].
      split; [left; apply elem_of_app; right; by apply list_elem_of_singleton|].
      split.
      { intros f r Hf. apply lookup_insert_Some in Hf as [[<- _]|[_ Hf]].
        - right. apply elem_of_app. right. by apply list_elem_of_singleton.
        - left. eauto. }
      split.
      * intros Hwf. assert (fileLoaded
          (mkLoaderState (<[file:=length (suiteHeap st)]> (cachedFileSuites st))
             (suiteHeap st ++ [fixLocation pathExtname
                 (mkFileSuite (suiteTitle pathRelative pathBasename rootDir file)
                              file file declared)])
             None (required st ++ [file]))
          (length (suiteHeap st)) file) as Hnew.
        { eexists. simpl. split; [apply list_lookup_middle; done|].
          by rewrite fixLocation_requireFile. }
        split; [|done]. intros f r Hf. simpl in Hf.
        apply lookup_insert_Some in Hf as [[<- <-]|[_ Hf]]; [done|].
        destruct (Hwf f r Hf) as (suite & Hs & Hfile).
        exists suite. split; [|done]. simpl. by apply lookup_app_l_Some.
      * intros declared' e' _ Heq. discriminate Heq.
Qed.

Lemma loadFiles_app rootDir l1 l2 children loadErrors st :
  loadLoop rootDir (l1 ++ l2) children loadErrors st =
  match loadLoop rootDir l1 children loadErrors st with
  | (st1, loadErrors1, Returns children1) =>
      loadLoop rootDir l2 children1 loadErrors1 st1
  | failure => failure
  end.
Proof.
  revert children loadErrors st.
  induction l1 as [|file l1 IH]; intros children loadErrors st; simpl; [done|].
  destruct (loadFile rootDir file loader loadErrors st) as [[st' errs'] [ref|e]];
    [apply IH|done].
Qed.

(** The loop loads every file of the list. *)
Lemma loadFiles_total rootDir testFiles children loadErrors st :
  ∃ st' loadErrors' added,
    loadLoop rootDir testFiles children loadErrors st =
      (st', loadErrors', Returns (children ++ added)) ∧
    length added = length testFiles ∧
    loadErrors `prefix_of` loadErrors' ∧
    extends st st' ∧
    (∀ f, f ∈ testFiles → f ∈ required st' ∨ is_Some (cachedFileSuites st !! f)) ∧
    (∀ f r, cachedFileSuites st' !! f = Some r →
            is_Some (cachedFileSuites st !! f) ∨ f ∈ required st') ∧
    (LoaderWf st → LoaderWf st' ∧ Forall2 (fileLoaded st') added testFiles).
Proof.
  revert children loadErrors st.
  induction testFiles as [|file rest IH]; intros children loadErrors st; simpl.
  - exists st, loadErrors, []. rewrite app_nil_r. split; [done|]. split; [done|].
    split; [done|]. split; [apply extends_refl|].
    split; [intros f Hf; by apply elem_of_nil in Hf|].
    split; [intros f r Hf; left; eauto|]. intros Hwf. split; [done|constructor].
  - destruct (loadTestFile_loader rootDir file loadErrors st)
      as (st1 & errs1 & ref & -> & Hpre1 & Hext1 & Hreq1 & Hcache1 & Hwf1 & _).
    destruct (IH (children ++ [ref]) errs1 st1)
      as (st2 & errs2 & added & -> & Hlen & Hpre2 & Hext2 & Hreq2 & Hcache2 & Hwf2).
    exists st2, errs2, (ref :: added). rewrite <- app_assoc. simpl.
    split; [done|]. split; [by rewrite Hlen|]. split; [by etrans|].
    split; [by eapply extends_trans|].
    assert (∀ f, f ∈ required st1 → f ∈ required st2) as Hmono.
    { intros f. apply elem_of_prefix. apply Hext2. }
    split; [|split].
    + intros f Hf. apply elem_of_cons in Hf as [-> |Hf].
      * destruct Hreq1 as [?|?]; [left; by apply Hmono|by right].
      * destruct (Hreq2 f Hf) as [?|[r Hr]]; [by left|].
        destruct (Hcache1 f r Hr) as [?|?]; [by right|left; by apply Hmono].
    + intros f r Hf. destruct (Hcache2 f r Hf) as [[r' Hr']|?]; [|by right].
      destruct (Hcache1 f r' Hr') as [?|?]; [by left|right; by apply Hmono].
    + intros Hwf. destruct (Hwf1 Hwf) as [Hwf1' Hloaded1].
      destruct (Hwf2 Hwf1') as [Hwf2' Hloaded2]. split; [done|].
      constructor; [by eapply fileLoaded_extends|done].
Qed.

(** A call that misses the cache requires the file. *)
Lemma loadTestFile_miss_required rootDir file environment loadErrors st :
  cachedFileSuites st !! file = None →
  required (loadFile rootDir file environment loadErrors st).1.1 =
  required st ++ [file].
Proof.
  intros Hc. unfold loadTestFile. rewrite Hc.
  destruct (requireOrImport file (required st)) as [declared [e|]];
    [by destruct environment|done].
Qed.

(** A call whose require throws leaves the cache as it is. *)
Lemma loadTestFile_threw rootDir file environment loadErrors st declared e :
  cachedFileSuites st !! file = None →
  requireOrImport file (required st) = (declared, Some e) →
  cachedFileSuites (loadFile rootDir file environment loadErrors st).1.1 =
    cachedFileSuites st ∧
  required (loadFile rootDir file environment loadErrors st).1.1 =
    required st ++ [file].
Proof.
  intros Hc Hreq. unfold loadTestFile. rewrite Hc, Hreq.
  by destruct environment.
Qed.

End LoaderFacts.

(** C7. Loading a list of files in the loader environment always
    completes: the root suite gets one child per file, in the order of the
    list, each the suite of its file; every file was handed to
    [requireOrImport] unless its suite was cached.  When the require of one
    of the files throws, the serialized error is among the load errors and
    the files after it are loaded all the same; the same call in the
    worker environment rethrows the error and records nothing. *)
Theorem load_errors_do_not_stop_loading requireOrImport serializeError
    pathRelative pathBasename pathExtname buildForLoader
    rootDir pre file post loadErrors st :
  LoaderWf st →
  ∃ st1 loadErrors1 children1 st2 loadErrors2 children2,
    loadFiles requireOrImport serializeError pathRelative pathBasename pathExtname
      rootDir pre [] loadErrors st = (st1, loadErrors1, Returns children1) ∧
    loadFiles requireOrImport serializeError pathRelative pathBasename pathExtname
      rootDir (pre ++ file :: post) [] loadErrors st
      = (st2, loadErrors2, Returns children2) ∧
    loadTestFilesInProcess requireOrImport serializeError pathRelative pathBasename
      pathExtname buildForLoader rootDir (pre ++ file :: post) loadErrors st
      = ((buildForLoader st2 children2 loadErrors2).1,
         (buildForLoader st2 children2 loadErrors2).2, Returns children2) ∧
    Forall2 (fileLoaded st2) children2 (pre ++ file :: post) ∧
    (∀ f, f ∈ pre ++ file :: post →
          f ∈ required st2 ∨ is_Some (cachedFileSuites st !! f)) ∧
    (∀ declared e,
       cachedFileSuites st1 !! file = None →
       requireOrImport file (required st1) = (declared, Some e) →
       serializeError e ∈ loadErrors2 ∧
       ∃ st1',
         loadTestFile requireOrImport serializeError pathRelative pathBasename
           pathExtname rootDir file worker loadErrors1 st1
         = (st1', loadErrors1, Throws e)).
Proof.
  intros Hwf.
  destruct (loadFiles_total requireOrImport serializeError pathRelative pathBasename
              pathExtname rootDir (pre ++ file :: post) [] loadErrors st)
    as (st2 & errs2 & children2 & Hall & _ & _ & _ & Hreq & _ & Hwf2).
  destruct (loadFiles_total requireOrImport serializeError pathRelative pathBasename
              pathExtname rootDir pre [] loadErrors st)
    as (st1 & errs1 & children1 & Hpre & _ & _ & _ & _ & _ & _).
  simpl in Hall, Hpre.
  exists st1, errs1, children1, st2, errs2, children2.
  split; [done|]. split; [done|]. split.
  { unfold loadTestFilesInProcess. rewrite Hall.
    by destruct (buildForLoader st2 children2 errs2). }
  split; [by apply Hwf2|]. split; [done|].
  intros declared e Hc Hthrown.
  rewrite loadFiles_app, Hpre in Hall. simpl in Hall.
  destruct (loadTestFile_loader requireOrImport serializeError pathRelative
              pathBasename pathExtname rootDir file errs1 st1)
    as (st1' & errs1' & ref & Hstep & _ & _ & _ & _ & _ & Herr).
  rewrite Hstep in Hall. destruct (Herr declared e Hc Hthrown) as [-> _].
  destruct (loadFiles_total requireOrImport serializeError pathRelative pathBasename
              pathExtname rootDir post (children1 ++ [ref])
              (errs1 ++ [serializeError e]) st1')
    as (st3 & errs3 & added & Hpost & _ & Hprefix & _).
  rewrite Hpost in Hall. injection Hall as _ <- _. split.
  - eapply elem_of_prefix; [exact Hprefix|]. apply elem_of_app. right.
    by apply list_elem_of_singleton.
  - unfold loadTestFile. rewrite Hc, Hthrown. eauto.
Qed.

Lemma load_errors_do_not_stop_loading_witness :
  ∃ st2 loadErrors2 children2,
    loadFiles scriptedRequire mkTestError plainRelative plainBasename plainExtname
      "" ["a.spec.ts"; "broken.spec.ts"; "b.spec.ts"] [] [] emptyLoader
    = (st2, loadErrors2, Returns children2) ∧
    length children2 = 3 ∧
    mkTestError "SyntaxError" ∈ loadErrors2.
Proof.
  destruct (load_errors_do_not_stop_loading scriptedRequire mkTestError
              plainRelative plainBasename plainExtname noPools
              "" ["a.spec.ts"] "broken.spec.ts" ["b.spec.ts"] [] emptyLoader)
    as (st1 & errs1 & children1 & st2 & errs2 & children2
        & Hpre & Hall & _ & Hloaded & _ & Herr).
  - intros f r Hf. unfold emptyLoader in Hf. simpl in Hf.
    rewrite lookup_empty in Hf. discriminate Hf.
  - exists st2, errs2, children2. split; [exact Hall|].
    split; [by apply Forall2_length in Hloaded|].
    vm_compute in Hpre. injection Hpre as <- <- <-.
    apply (Herr [] "SyntaxError"); reflexivity.
Defined.

(** C9. A file that is not cached and whose require succeeds is cached by
    the call: a second call, from any loader and in any environment,
    returns the same suite object and leaves the state as it is, the file
    not being required again.  When the require throws, the file is not
    cached, and a second call hands it to [requireOrImport] again. *)
Theorem loadTestFile_cache requireOrImport serializeError
    pathRelative pathBasename pathExtname
    rootDir rootDir' file environment environment' loadErrors loadErrors' st :
  cachedFileSuites st !! file = None →
  match requireOrImport file (required st) with
  | (_, None) =>
      ∃ st1 ref,
        loadTestFile requireOrImport serializeError pathRelative pathBasename
          pathExtname rootDir file environment loadErrors st
        = (st1, loadErrors, Returns ref) ∧
        required st1 = required st ++ [file] ∧
        loadTestFile requireOrImport serializeError pathRelative pathBasename
          pathExtname rootDir' file environment' loadErrors' st1
        = (st1, loadErrors', Returns ref)
  | (_, Some e) =>
      ∃ st1 loadErrors1 outcome1 st2 loadErrors2 outcome2,
        loadTestFile requireOrImport serializeError pathRelative pathBasename
          pathExtname rootDir file environment loadErrors st
        = (st1, loadErrors1, outcome1) ∧
        cachedFileSuites st1 !! file = None ∧
        loadTestFile requireOrImport serializeError pathRelative pathBasename
          pathExtname rootDir' file environment' loadErrors' st1
        = (st2, loadErrors2, outcome2) ∧
        required st2 = required st ++ [file; file]
  end.
Proof.
  intros Hc.
  destruct (requireOrImport file (required st)) as [declared [e|]] eqn:Hreq.
  - destruct (loadTestFile requireOrImport serializeError pathRelative pathBasename
                pathExtname rootDir file environment loadErrors st)
      as [[st1 errs1] outcome1] eqn:H1.
    destruct (loadTestFile requireOrImport serializeError pathRelative pathBasename
                pathExtname rootDir' file environment' loadErrors' st1)
      as [[st2 errs2] outcome2] eqn:H2.
    exists st1, errs1, outcome1, st2, errs2, outcome2.
    split; [done|].
    pose proof (loadTestFile_threw requireOrImport serializeError pathRelative
                  pathBasename pathExtname rootDir file environment loadErrors st
                  declared e Hc Hreq) as [Hc1 Hr1].
    rewrite H1 in Hc1, Hr1. simpl in Hc1, Hr1.
    split; [by rewrite Hc1|]. split; [done|].
    pose proof (loadTestFile_miss_required requireOrImport serializeError
                  pathRelative pathBasename pathExtname rootDir' file environment'
                  loadErrors' st1) as Hr2.
    rewrite H2 in Hr2. simpl in Hr2. rewrite Hr2, Hr1, <- app_assoc; [done|].
    by rewrite Hc1.
  - exists (mkLoaderState (<[file := length (suiteHeap st)]> (cachedFileSuites st))
              (suiteHeap st ++
               [fixLocation pathExtname
                  (mkFileSuite (suiteTitle pathRelative pathBasename rootDir file)
                               file file declared)])
              None (required st ++ [file])),
           (length (suiteHeap st)).
    split; [unfold loadTestFile; by rewrite Hc, Hreq|]. split; [done|].
    apply loadTestFile_hit. simpl. apply lookup_insert_eq.
Qed.

Lemma loadTestFile_cache_witness :
  ∃ st1 ref,
    loadTestFile scriptedRequire mkTestError plainRelative plainBasename plainExtname
      "" "a.spec.ts" loader [] emptyLoader = (st1, [], Returns ref) ∧
    required st1 = required emptyLoader ++ ["a.spec.ts"] ∧
    loadTestFile scriptedRequire mkTestError plainRelative plainBasename plainExtname
      "" "a.spec.ts" worker [] st1 = (st1, [], Returns ref).
Proof.
  exact (loadTestFile_cache scriptedRequire mkTestError plainRelative plainBasename
           plainExtname "" "" "a.spec.ts" loader worker [] [] emptyLoader eq_refl).
Defined.

(** ** The reporter multiplexer *)

Section MultiplexerFacts.
Variable reporters : list Reporter.

Lemma historyOf_app i d l :
  historyOf i (d ++ l) = historyOf i d ++ historyOf i l.
Proof. unfold historyOf. by rewrite filter_app, map_app. Qed.

Lemma historyOf_other i l :
  (∀ x, x ∈ l → x.1 ≠ i) → historyOf i l = [].
Proof.
  intros Hl. unfold historyOf.
  induction l as [|x l IH]; [done|]. rewrite filter_cons.
  rewrite decide_False by (apply Hl; by left). apply IH.
  intros y Hy. apply Hl. by right.
Qed.

(** The wrapped loop reaches every reporter: what it adds to [delivered]
    and to the console is what the reporters answer in the state in which
    the loop starts. *)
Lemma forEachWrapped_spec c i rs st d l :
  delivered st = d ++ l → (∀ x, x ∈ l → x.1 < i) →
  delivered (forEachWrapped c i rs st) = delivered st ++ receivers c d i rs ∧
  console (forEachWrapped c i rs st) = console st ++ raised c d i rs ∧
  _deferredErrors (forEachWrapped c i rs st) = _deferredErrors st ∧
  _deferredStdIO (forEachWrapped c i rs st) = _deferredStdIO st ∧
  called (forEachWrapped c i rs st) = called st.
Proof.
  revert i st l. induction rs as [|r rs IH]; intros i st l Hd Hl; simpl.
  - by rewrite !app_nil_r.
  - assert (historyOf i (delivered st) = historyOf i d) as Hh.
    { rewrite Hd, historyOf_app, (historyOf_other i l), app_nil_r; [done|].
      intros x Hx. apply Hl in Hx. lia. }
    unfold wrap, invoke. rewrite Hh.
    destruct (r (historyOf i d) c) as [| |e].
    + destruct (IH (S i) st l Hd) as (H1 & H2 & H3 & H4 & H5);
        [intros x Hx; apply Hl in Hx; lia|done].
    + destruct (IH (S i)
                  (mkMuxState (_deferredErrors st) (_deferredStdIO st) (called st)
                              (delivered st ++ [(i, c)]) (console st))
                  (l ++ [(i, c)])) as (H1 & H2 & H3 & H4 & H5).
      { simpl. by rewrite Hd, <- app_assoc. }
      { intros x Hx. apply elem_of_app in Hx as [Hx|Hx]; [apply Hl in Hx; lia|].
        apply list_elem_of_singleton in Hx as ->. simpl. lia. }
      simpl. rewrite H1, H2, H3, H4, H5. simpl. by rewrite <- ?app_assoc.
    + destruct (IH (S i)
                  (mkMuxState (_deferredErrors st) (_deferredStdIO st) (called st)
                              (delivered st ++ [(i, c)]) (console st ++ [e]))
                  (l ++ [(i, c)])) as (H1 & H2 & H3 & H4 & H5).
      { simpl. by rewrite Hd, <- app_assoc. }
      { intros x Hx. apply elem_of_app in Hx as [Hx|Hx]; [apply Hl in Hx; lia|].
        apply list_elem_of_singleton in Hx as ->. simpl. lia. }
      simpl. rewrite H1, H2, H3, H4, H5. simpl. by rewrite <- ?app_assoc.
Qed.

Lemma forEachWrapped_all c st :
  delivered (forEachWrapped c 0 reporters st) =
    delivered st ++ receivers c (delivered st) 0 reporters ∧
  console (forEachWrapped c 0 reporters st) =
    console st ++ raised c (delivered st) 0 reporters ∧
  _deferredErrors (forEachWrapped c 0 reporters st) = _deferredErrors st ∧
  _deferredStdIO (forEachWrapped c 0 reporters st) = _deferredStdIO st ∧
  called (forEachWrapped c 0 reporters st) = called st.
Proof.
  apply (forEachWrapped_spec c 0 reporters st (delivered st) []).
  - by rewrite app_nil_r.
  - intros x Hx. by apply elem_of_nil in Hx.
Qed.

Lemma elem_of_receivers c d rs k i r :
  rs !! i = Some r → r (historyOf (k + i) d) c ≠ Absent →
  (k + i, c) ∈ receivers c d k rs.
Proof.
  revert k i. induction rs as [|r0 rs IH]; intros k i Hi Hr; [done|].
  destruct i as [|i]; simpl in *.
  - injection Hi as ->. rewrite Nat.add_0_r in *.
    destruct (r (historyOf k d) c); [done|by left..].
  - replace (k + S i) with (S k + i) in * by lia.
    assert ((S k + i, c) ∈ receivers c d (S k) rs) as Hin by by apply (IH (S k) i).
    destruct (r0 (historyOf k d) c); [done|by right..].
Qed.

Lemma receivers_inv c d rs k x :
  x ∈ receivers c d k rs →
  ∃ i r, x = (k + i, c) ∧ rs !! i = Some r ∧ r (historyOf (k + i) d) c ≠ Absent.
Proof.
  revert k. induction rs as [|r0 rs IH]; intros k Hx; simpl in Hx.
  - by apply elem_of_nil in Hx.
  - assert (x ∈ receivers c d (S k) rs →
            ∃ i r, x = (k + i, c) ∧ (r0 :: rs) !! i = Some r ∧
                   r (historyOf (k + i) d) c ≠ Absent) as Hrest.
    { intros Hin. destruct (IH (S k) Hin) as (i & r & -> & Hi & Hr).
      exists (S i), r. replace (k + S i) with (S k + i) by lia. done. }
    assert (r0 (historyOf k d) c ≠ Absent →
            ∃ i r, (k, c) = (k + i, c) ∧ (r0 :: rs) !! i = Some r ∧
                   r (historyOf (k + i) d) c ≠ Absent) as Hhere.
    { intros Hne. exists 0, r0. rewrite Nat.add_0_r. done. }
    destruct (r0 (historyOf k d) c) eqn:Hr0; [by apply Hrest|..].
    + apply elem_of_cons in Hx as [-> |Hx]; [by apply Hhere|by apply Hrest].
    + apply elem_of_cons in Hx as [-> |Hx]; [by apply Hhere|by apply Hrest].
Qed.

Lemma receivers_calls c d k rs : Forall (λ x, x.2 = c) (receivers c d k rs).
Proof.
  revert k. induction rs as [|r rs IH]; intros k; simpl; [constructor|].
  destruct (r (historyOf k d) c); [apply IH|constructor; [done|apply IH]..].
Qed.

(** The loop that does not wrap: what it delivers carries the
    notification; when no callback throws, it reaches every reporter. *)
Lemma forEachPlain_spec c i rs st d l :
  delivered st = d ++ l → (∀ x, x ∈ l → x.1 < i) →
  ∃ m,
    delivered (forEachPlain c i rs st).1 = delivered st ++ m ∧
    Forall (λ x, x.2 = c) m ∧
    console (forEachPlain c i rs st).1 = console st ∧
    _deferredErrors (forEachPlain c i rs st).1 = _deferredErrors st ∧
    _deferredStdIO (forEachPlain c i rs st).1 = _deferredStdIO st ∧
    called (forEachPlain c i rs st).1 = called st ∧
    ((∀ r, r ∈ rs → ∀ h e, r h c ≠ Raises e) →
     (forEachPlain c i rs st).2 = Returns tt ∧ m = receivers c d i rs).
Proof.
  revert i st l. induction rs as [|r rs IH]; intros i st l Hd Hl; simpl.
  - exists []. rewrite app_nil_r. repeat split; constructor.
  - assert (historyOf i (delivered st) = historyOf i d) as Hh.
    { rewrite Hd, historyOf_app, (historyOf_other i l), app_nil_r; [done|].
      intros x Hx. apply Hl in Hx. lia. }
    unfold invoke. rewrite Hh.
    destruct (r (historyOf i d) c) as [| |e] eqn:Hr.
    + destruct (IH (S i) st l Hd) as (m & H1 & H2 & H3 & H4 & H5 & H6 & H7).
      { intros x Hx. apply Hl in Hx. lia. }
      exists m. repeat split; try done; apply H7; intros r' Hr'; apply H;
        by apply elem_of_cons; right.
    + destruct (IH (S i)
                  (mkMuxState (_deferredErrors st) (_deferredStdIO st) (called st)
                              (delivered st ++ [(i, c)]) (console st))
                  (l ++ [(i, c)])) as (m & H1 & H2 & H3 & H4 & H5 & H6 & H7).
      { simpl. by rewrite Hd, <- app_assoc. }
      { intros x Hx. apply elem_of_app in Hx as [Hx|Hx]; [apply Hl in Hx; lia|].
        apply list_elem_of_singleton in Hx as ->. simpl. lia. }
      exists ((i, c) :: m). simpl in *.
      split; [by rewrite H1, <- app_assoc|]. split; [by constructor|].
      do 4 (split; [done|]). intros Hall.
      destruct H7 as [H7 H8];
        [intros r' Hr'; apply Hall; by apply elem_of_cons; right|].
      split; [done|by rewrite H8].
    + exists [(i, c)]. simpl. split; [done|]. split; [by constructor|].
      do 4 (split; [done|]). intros Hall. exfalso.
      apply (Hall r ltac:(by left) (historyOf i d) e Hr).
Qed.

(** A notification other than [onBegin] and [onExit]: the multiplexer
    logs it, delivers nothing but it, and keeps [_deferredErrors] as it
    is, an error put aside apart. *)
Lemma notify_benign c st :
  benign c = true →
  ∃ m,
    delivered (notify reporters c st).1 = delivered st ++ m ∧
    Forall (λ x, x.2 = c) m ∧
    called (notify reporters c st).1 = called st ++ [c] ∧
    (c = COnEnd → m = []) ∧
    match _deferredErrors st with
    | Some errors =>
        _deferredErrors (notify reporters c st).1 = Some (bufferError c errors) ∧
        (isError c = true → m = [])
    | None =>
        _deferredErrors (notify reporters c st).1 = None ∧
        (isError c = true → m = receivers c (delivered st) 0 reporters)
    end ∧
    (is_Some (_deferredStdIO st) → is_Some (_deferredStdIO (notify reporters c st).1)).
Proof.
  intros Hb.
  assert (∀ c' st0,
    _deferredErrors (forEachWrapped c' 0 reporters (logCall c' st0)) = _deferredErrors st0 ∧
    _deferredStdIO (forEachWrapped c' 0 reporters (logCall c' st0)) = _deferredStdIO st0 ∧
    called (forEachWrapped c' 0 reporters (logCall c' st0)) = called st0 ++ [c'] ∧
    delivered (forEachWrapped c' 0 reporters (logCall c' st0)) =
      delivered st0 ++ receivers c' (delivered st0) 0 reporters) as Hw.
  { intros c' st0.
    destruct (forEachWrapped_all c' (logCall c' st0))
      as (H1 & _ & H3 & H4 & H5). by rewrite H1, H3, H4, H5. }
  assert (∀ c' st0,
    isError c' = false → c' ≠ COnEnd →
    notify reporters c' st0 =
      (forEachWrapped c' 0 reporters (logCall c' st0), Returns tt) →
    ∃ m,
      delivered (notify reporters c' st0).1 = delivered st0 ++ m ∧
      Forall (λ x, x.2 = c') m ∧
      called (notify reporters c' st0).1 = called st0 ++ [c'] ∧
      (c' = COnEnd → m = []) ∧
      match _deferredErrors st0 with
      | Some errors =>
          _deferredErrors (notify reporters c' st0).1 = Some (bufferError c' errors) ∧
          (isError c' = true → m = [])
      | None =>
          _deferredErrors (notify reporters c' st0).1 = None ∧
          (isError c' = true → m = receivers c' (delivered st0) 0 reporters)
      end ∧
      (is_Some (_deferredStdIO st0) →
       is_Some (_deferredStdIO (notify reporters c' st0).1))) as Hgen.
  { intros c' st0 He Hne Heq. rewrite Heq. simpl.
    destruct (Hw c' st0) as (H1 & H2 & H3 & H4).
    exists (receivers c' (delivered st0) 0 reporters).
    split; [done|]. split; [apply receivers_calls|]. split; [done|].
    split; [done|]. rewrite H1, H2. split; [|done].
    destruct (_deferredErrors st0); (split; [|congruence]); [|done].
    by destruct c'. }
  destruct c; try discriminate Hb.
  - by apply Hgen.
  - by apply Hgen.
  - by apply Hgen.
  - simpl. unfold onStepEnd.
    destruct (forEachPlain_spec (COnStepEnd test step) 0 reporters
                (logCall (COnStepEnd test step) st) (delivered st) [])
      as (m & H1 & H2 & _ & H4 & H5 & H6 & _).
    { simpl. by rewrite app_nil_r. }
    { intros x Hx. by apply elem_of_nil in Hx. }
    exists m. simpl in *. rewrite H1, H4, H5, H6.
    split; [done|]. split; [done|]. split; [done|]. split; [done|]. split; [|done].
    by destruct (_deferredErrors st).
  - simpl. unfold onStdOut. simpl.
    destruct (_deferredStdIO st) as [stdios|] eqn:Hs; simpl.
    + exists []. rewrite app_nil_r. split; [done|]. split; [constructor|].
      split; [done|]. split; [done|]. split; [|eauto].
      by destruct (_deferredErrors st).
    + destruct (Hw (COnStdOut chunk0 test) st) as (H1 & H2 & H3 & H4).
      exists (receivers (COnStdOut chunk0 test) (delivered st) 0 reporters).
      split; [done|]. split; [apply receivers_calls|]. split; [done|].
      split; [done|]. rewrite H1. split; [|by intros [? ?]].
      by destruct (_deferredErrors st).
  - simpl. unfold onStdErr. simpl.
    destruct (_deferredStdIO st) as [stdios|] eqn:Hs; simpl.
    + exists []. rewrite app_nil_r. split; [done|]. split; [constructor|].
      split; [done|]. split; [done|]. split; [|eauto].
      by destruct (_deferredErrors st).
    + destruct (Hw (COnStdErr chunk0 test) st) as (H1 & H2 & H3 & H4).
      exists (receivers (COnStdErr chunk0 test) (delivered st) 0 reporters).
      split; [done|]. split; [apply receivers_calls|]. split; [done|].
      split; [done|]. rewrite H1. split; [|by intros [? ?]].
      by destruct (_deferredErrors st).
  - simpl. unfold onError. simpl.
    destruct (_deferredErrors st) as [errors|] eqn:He; simpl.
    + exists []. rewrite app_nil_r. split; [done|]. split; [constructor|].
      split; [done|]. split; [done|]. done.
    + destruct (Hw (COnError error) st) as (H1 & H2 & H3 & H4).
      exists (receivers (COnError error) (delivered st) 0 reporters).
      split; [done|]. split; [apply receivers_calls|]. split; [done|].
      split; [done|]. rewrite H1, H2. split; [|done]. by rewrite He.
  - simpl. exists []. rewrite app_nil_r. split; [done|]. split; [constructor|].
    split; [done|]. split; [done|]. split; [|done].
    by destruct (_deferredErrors st).
Qed.

End MultiplexerFacts.

(** ** The notifications of a run *)

Section NotificationFacts.
Variable reporters : list Reporter.

Lemma elem_of_bufferError c errors e : e ∈ errors → e ∈ bufferError c errors.
Proof. intros He. destruct c; try done. simpl. apply elem_of_app. by left. Qed.

Lemma Deferring_notify c st :
  benign c = true → Deferring st → Deferring (notify reporters c st).1.
Proof.
  intros Hb (errors & stdios & HE & HS & Hq & Herr).
  destruct (notify_benign reporters c st Hb)
    as (m & Hd & Hm & Hc & Hend & Hmatch & Hstd).
  rewrite HE in Hmatch. destruct Hmatch as [HE' Hnil].
  destruct Hstd as [stdios' HS']; [by rewrite HS|].
  exists (bufferError c errors), stdios'. split; [done|]. split; [done|]. split.
  - rewrite Hd. apply Forall_app. split; [done|].
    destruct (decide (c = COnEnd)) as [Hce|Hce]; [rewrite (Hend Hce); constructor|].
    destruct (isError c) eqn:Hie; [rewrite (Hnil eq_refl); constructor|].
    eapply Forall_impl; [exact Hm|]. intros x Hx. unfold quiet. by rewrite Hx.
  - intros e He. rewrite Hc in He. apply elem_of_app in He as [He|He].
    + by apply elem_of_bufferError, Herr.
    + apply list_elem_of_singleton in He as <-. simpl. apply elem_of_app. right.
      by apply list_elem_of_singleton.
Qed.

Lemma BegunPending_notify pending suite d1 c st :
  benign c = true →
  BegunPending reporters pending suite d1 st →
  BegunPending reporters pending suite d1 (notify reporters c st).1.
Proof.
  intros Hb (HE & d2 & Hd2 & Hp & Herr).
  destruct (notify_benign reporters c st Hb)
    as (m & Hd & Hm & Hc & Hend & Hmatch & _).
  rewrite HE in Hmatch. destruct Hmatch as [HE' Hrec].
  split; [done|]. exists (d2 ++ m). split; [by rewrite Hd, Hd2, <- !app_assoc|].
  split.
  - apply Forall_app. split; [done|].
    destruct (decide (c = COnEnd)) as [Hce|Hce]; [rewrite (Hend Hce); constructor|].
    eapply Forall_impl; [exact Hm|]. intros x Hx. unfold plain. by rewrite Hx.
  - intros e He. rewrite Hc in He. apply elem_of_app in He as [He|He].
    + destruct (Herr e He) as [?|Hall]; [by left|right].
      intros i r Hi Hr. apply elem_of_app. left. by apply (Hall i r).
    + apply list_elem_of_singleton in He as <-. right. intros i r Hi Hr.
      apply elem_of_app. right. rewrite (Hrec eq_refl).
      by apply (elem_of_receivers (COnError e) (delivered st) reporters 0 i r).
Qed.

(** Replaying a deferred error hands it to the reporters. *)
Lemma BegunPending_onError e pending suite d1 st :
  BegunPending reporters (e :: pending) suite d1 st →
  BegunPending reporters pending suite d1 (onError reporters e st).1.
Proof.
  intros (HE & d2 & Hd2 & Hp & Herr).
  destruct (notify_benign reporters (COnError e) st eq_refl)
    as (m & Hd & Hm & Hc & Hend & Hmatch & _).
  simpl in Hd, Hc, Hmatch.
  rewrite HE in Hmatch. destruct Hmatch as [HE' Hrec].
  split; [done|]. exists (d2 ++ m). split; [by rewrite Hd, Hd2, <- !app_assoc|].
  split.
  - apply Forall_app. split; [done|].
    eapply Forall_impl; [exact Hm|]. intros x Hx. unfold plain. by rewrite Hx.
  - assert (∀ i r, reporters !! i = Some r → (∀ h, r h (COnError e) ≠ Absent) →
                   (i, COnError e) ∈ d2 ++ m) as Hnow.
    { intros i r Hi Hr. apply elem_of_app. right. rewrite (Hrec eq_refl).
      by apply (elem_of_receivers (COnError e) (delivered st) reporters 0 i r). }
    intros e' He'. rewrite Hc in He'. apply elem_of_app in He' as [He'|He'].
    + destruct (Herr e' He') as [Hin|Hall].
      * apply elem_of_cons in Hin as [-> |Hin]; [right; exact Hnow|by left].
      * right. intros i r Hi Hr. apply elem_of_app. left. by apply (Hall i r).
    + apply list_elem_of_singleton in He'. injection He' as ->.
      right. exact Hnow.
Qed.

Lemma flush_errors errors pending suite d1 st :
  BegunPending reporters (errors ++ pending) suite d1 st →
  is_Some (_deferredStdIO st) →
  BegunPending reporters pending suite d1
    (foldl (λ s error, (onError reporters error s).1) st errors) ∧
  is_Some (_deferredStdIO (foldl (λ s error, (onError reporters error s).1) st errors)).
Proof.
  revert st. induction errors as [|e errors IH]; intros st Hb Hs; simpl; [done|].
  apply IH.
  - by apply BegunPending_onError.
  - destruct (notify_benign reporters (COnError e) st eq_refl)
      as (_ & _ & _ & _ & _ & _ & Hstd). by apply Hstd.
Qed.

Lemma replay_stdios stdios suite d1 st :
  Begun reporters suite d1 st →
  Begun reporters suite d1 (foldl (replayStdIO reporters) st stdios).
Proof.
  revert st. induction stdios as [|stdio stdios IH]; intros st Hb; simpl; [done|].
  apply IH. unfold replayStdIO. destruct (chunkType stdio).
  - by apply (BegunPending_notify [] suite d1 (COnStdOut (chunk stdio) (chunkTest stdio))).
  - by apply (BegunPending_notify [] suite d1 (COnStdErr (chunk stdio) (chunkTest stdio))).
Qed.

(** [onBegin], called before any other [onBegin], returns when no
    [onBegin] callback throws; the reporters get [onBegin], then the
    errors and the output put aside. *)
Lemma onBegin_begins suite st :
  beginNeverThrows reporters → Deferring st →
  ∃ st', onBegin reporters suite st = (st', Returns tt) ∧
         Begun reporters suite (delivered st) st'.
Proof.
  intros Hnt (errors & stdios & HE & HS & Hq & Herr). unfold onBegin.
  destruct (forEachPlain_spec (COnBegin suite) 0 reporters
              (logCall (COnBegin suite) st) (delivered st) [])
    as (m & H1 & H2 & _ & H4 & H5 & H6 & H7).
  { simpl. by rewrite app_nil_r. }
  { intros x Hx. by apply elem_of_nil in Hx. }
  destruct H7 as [Hret ->]; [intros r Hr h e; by apply Hnt|].
  destruct (forEachPlain (COnBegin suite) 0 reporters (logCall (COnBegin suite) st))
    as [st1 outcome]. simpl in *. subst outcome. rewrite H4, HE.
  set (st2 := mkMuxState None (_deferredStdIO st1) (called st1) (delivered st1)
                         (console st1)).
  assert (BegunPending reporters (errors ++ []) suite (delivered st) st2) as Hb2.
  { split; [done|]. exists []. simpl. rewrite H1, app_nil_r.
    split; [done|]. split; [constructor|]. intros e He. left.
    rewrite app_nil_r. rewrite H6 in He. apply elem_of_app in He as [He|He];
      [by apply Herr|]. by apply list_elem_of_singleton in He. }
  destruct (flush_errors errors [] suite (delivered st) st2 Hb2) as [Hb3 [stdios3 Hs3]].
  { simpl. rewrite H5, HS. eauto. }
  rewrite Hs3.
  set (st3 := foldl (λ s error, (onError reporters error s).1) st2 errors) in *.
  eexists. split; [reflexivity|].
  apply replay_stdios. destruct Hb3 as (HE3 & d2 & Hd3 & Hp3 & Herr3).
  split; [done|]. exists d2. done.
Qed.

(** *** What a sequence of notifications preserves *)

Section Preserved.
Variable P : MuxState → Prop.
Hypothesis P_notify : ∀ c st, benign c = true → P st → P (notify reporters c st).1.

Lemma notifyAll_preserves calls st :
  Forall (λ c, benign c = true) calls → P st → P (notifyAll reporters calls st).
Proof.
  unfold notifyAll. revert st.
  induction calls as [|c calls IH]; intros st Hall Hst; simpl; [done|].
  apply Forall_cons in Hall as [Hc Hall]. apply IH; [done|]. by apply P_notify.
Qed.

End Preserved.

Lemma notifyAll_app l1 l2 st :
  notifyAll reporters (l1 ++ l2) st = notifyAll reporters l2 (notifyAll reporters l1 st).
Proof. unfold notifyAll. by rewrite foldl_app. Qed.

(** A sequence without [onExit] and with at most one [onBegin]. *)
Lemma one_begin_split calls :
  COnExit ∉ calls → length (beginsOf calls) ≤ 1 →
  (beginsOf calls = [] ∧ Forall (λ c, benign c = true) calls) ∨
  ∃ calls1 root calls2,
    calls = calls1 ++ COnBegin root :: calls2 ∧ beginsOf calls = [root] ∧
    Forall (λ c, benign c = true) calls1 ∧ Forall (λ c, benign c = true) calls2.
Proof.
  induction calls as [|c calls IH]; intros Hexit Hlen.
  - left. by split.
  - apply not_elem_of_cons in Hexit as [Hc Hexit].
    destruct (decide (isBegin c = true)) as [Hb|Hb].
    + destruct c as [root| | | | | | | | |]; try discriminate Hb.
      simpl in Hlen. right. exists [], root, calls.
      assert (beginsOf calls = []) as Hnil
        by (destruct (beginsOf calls); [done|simpl in Hlen; lia]).
      split; [done|]. simpl. rewrite Hnil. split; [done|]. split; [constructor|].
      destruct (IH Hexit) as [[_ Hall]|(l1 & r & l2 & _ & Hone & _)];
        [rewrite Hnil; simpl; lia|done|by rewrite Hnil in Hone].
    + assert (benign c = true) as Hbc by (by destruct c).
      assert (beginsOf (c :: calls) = beginsOf calls) as Heq by (by destruct c).
      rewrite Heq in *.
      destruct (IH Hexit Hlen) as [[Hnil Hall]|(l1 & r & l2 & -> & Hone & H1 & H2)].
      * left. split; [done|]. by constructor.
      * right. exists (c :: l1), r, l2. split; [done|]. split; [done|].
        split; [by constructor|done].
Qed.

(** *** The deliveries of [onExit] *)

Lemma onExit_begun suite d1 st :
  Begun reporters suite d1 st →
  onExit reporters st =
    (forEachWrapped COnExit 0 reporters
       (forEachWrapped COnEnd 0 reporters (logCall COnExit st)), Returns tt).
Proof. intros (HE & _). unfold onExit. simpl. by rewrite HE. Qed.

Lemma onExit_deferring st :
  beginNeverThrows reporters → Deferring st →
  ∃ st1,
    Begun reporters (mkRootSuite []) (delivered st) st1 ∧
    onExit reporters st =
      (forEachWrapped COnExit 0 reporters (forEachWrapped COnEnd 0 reporters st1),
       Returns tt).
Proof.
  intros Hnt Hd.
  assert (Deferring (logCall COnExit st)) as Hd'.
  { destruct Hd as (errors & stdios & HE & HS & Hq & Herr).
    exists errors, stdios. simpl. split; [done|]. split; [done|]. split; [done|].
    intros e He. apply elem_of_app in He as [He|He]; [by apply Herr|].
    by apply list_elem_of_singleton in He. }
  destruct (onBegin_begins (mkRootSuite []) (logCall COnExit st) Hnt Hd')
    as (st1 & Hbegin & Hb).
  exists st1. split; [done|]. unfold onExit.
  destruct Hd' as (errors & stdios & HE & _). rewrite HE, Hbegin. done.
Qed.

Lemma exit_deliveries st :
  delivered (forEachWrapped COnExit 0 reporters (forEachWrapped COnEnd 0 reporters st)) =
  delivered st ++ receivers COnEnd (delivered st) 0 reporters
    ++ receivers COnExit (delivered st ++ receivers COnEnd (delivered st) 0 reporters)
         0 reporters ∧
  called (forEachWrapped COnExit 0 reporters (forEachWrapped COnEnd 0 reporters st)) =
  called st.
Proof.
  destruct (forEachWrapped_all reporters COnEnd st) as (H1 & _ & _ & _ & H5).
  destruct (forEachWrapped_all reporters COnExit
              (forEachWrapped COnEnd 0 reporters st)) as (H1' & _ & _ & _ & H5').
  by rewrite H1', H5', H1, H5, <- app_assoc.
Qed.

(** *** Counting deliveries *)

Lemma timesDelivered_app i p d1 d2 :
  timesDelivered i p (d1 ++ d2) = timesDelivered i p d1 + timesDelivered i p d2.
Proof. unfold timesDelivered. by rewrite filter_app, length_app. Qed.

Lemma timesDelivered_none i p d :
  Forall (λ x, p x.2 = false) d → timesDelivered i p d = 0.
Proof.
  intros Hall. unfold timesDelivered. induction Hall as [|x d Hx Hall IH]; [done|].
  rewrite filter_cons, decide_False; [done|]. intros [_ Hp]. congruence.
Qed.

Lemma timesDelivered_receivers_other c d k rs i p :
  i < k → timesDelivered i p (receivers c d k rs) = 0.
Proof.
  revert k. induction rs as [|r rs IH]; intros k Hik; simpl; [done|].
  assert (timesDelivered i p ((k, c) :: receivers c d (S k) rs) = 0) as Hcons.
  { unfold timesDelivered. rewrite filter_cons, decide_False by (simpl; lia).
    apply IH. lia. }
  destruct (r (historyOf k d) c); [apply IH; lia|done..].
Qed.

Lemma timesDelivered_receivers c d k rs i r p :
  rs !! i = Some r → p c = true →
  timesDelivered (k + i) p (receivers c d k rs) =
    match r (historyOf (k + i) d) c with Absent => 0 | _ => 1 end.
Proof.
  revert k i. induction rs as [|r0 rs IH]; intros k i Hi Hp; [done|].
  destruct i as [|i]; simpl in *.
  - injection Hi as ->. rewrite Nat.add_0_r.
    assert (timesDelivered k p ((k, c) :: receivers c d (S k) rs) = 1) as Hcons.
    { unfold timesDelivered. rewrite filter_cons, decide_True by done. simpl.
      f_equal. apply (timesDelivered_receivers_other c d (S k) rs k p). lia. }
    destruct (r (historyOf k d) c);
      [apply timesDelivered_receivers_other; lia|done..].
  - replace (k + S i) with (S k + i) by lia.
    assert (timesDelivered (S k + i) p ((k, c) :: receivers c d (S k) rs) =
            timesDelivered (S k + i) p (receivers c d (S k) rs)) as Hcons.
    { unfold timesDelivered. rewrite filter_cons, decide_False; [done|].
      simpl. lia. }
    destruct (r0 (historyOf k d) c); rewrite ?Hcons; by apply IH.
Qed.

Lemma timesDelivered_receivers_not c d k rs i p :
  p c = false → timesDelivered i p (receivers c d k rs) = 0.
Proof.
  intros Hp. apply timesDelivered_none. eapply Forall_impl; [apply receivers_calls|].
  intros x Hx. simpl in Hx. by rewrite Hx.
Qed.

(** *** A sequence of notifications *)

Lemma Deferring_new : Deferring newMultiplexer.
Proof.
  exists [], []. simpl. split; [done|]. split; [done|]. split; [constructor|].
  intros e He. by apply elem_of_nil in He.
Qed.

(** After such a sequence, either [onBegin] was not called, or it was
    called with the one root suite of the sequence. *)
Lemma notifyAll_inv calls :
  beginNeverThrows reporters →
  COnExit ∉ calls → length (beginsOf calls) ≤ 1 →
  (beginsOf calls = [] ∧ Deferring (notifyAll reporters calls newMultiplexer)) ∨
  ∃ root d1,
    beginsOf calls = [root] ∧ Forall quiet d1 ∧
    Begun reporters root d1 (notifyAll reporters calls newMultiplexer).
Proof.
  intros Hnt Hexit Hlen.
  destruct (one_begin_split calls Hexit Hlen)
    as [[Hnil Hall]|(calls1 & root & calls2 & -> & Hone & H1 & H2)].
  - left. split; [done|].
    by apply (notifyAll_preserves Deferring Deferring_notify), Deferring_new.
  - right. rewrite notifyAll_app.
    pose proof (notifyAll_preserves Deferring Deferring_notify calls1 newMultiplexer
                  H1 Deferring_new) as Hd1.
    set (st1 := notifyAll reporters calls1 newMultiplexer) in *.
    exists root, (delivered st1). split; [done|].
    split; [by destruct Hd1 as (? & ? & _ & _ & ? & _)|].
    destruct (onBegin_begins root st1 Hnt Hd1) as (st2 & Hbegin & Hb2).
    change (notifyAll reporters (COnBegin root :: calls2) st1)
      with (notifyAll reporters calls2 (onBegin reporters root st1).1).
    rewrite Hbegin. simpl.
    apply (notifyAll_preserves (Begun reporters root (delivered st1))); [|done..].
    intros c st Hc Hst. by apply BegunPending_notify.
Qed.

Lemma quiet_not_begin d : Forall quiet d → Forall (λ x, isBegin x.2 = false) d.
Proof.
  intros H. eapply Forall_impl; [exact H|]. intros [i c] (Hb & _ & _). simpl in *. by destruct c.
Qed.

Lemma quiet_not_end d : Forall quiet d → Forall (λ x, isEnd x.2 = false) d.
Proof.
  intros H. eapply Forall_impl; [exact H|]. intros [i c] (_ & Hne & _). simpl in *. by destruct c.
Qed.

Lemma plain_not_begin d : Forall plain d → Forall (λ x, isBegin x.2 = false) d.
Proof.
  intros H. eapply Forall_impl; [exact H|]. intros [i c] (Hb & _). simpl in *. by destruct c.
Qed.

Lemma plain_not_end d : Forall plain d → Forall (λ x, isEnd x.2 = false) d.
Proof.
  intros H. eapply Forall_impl; [exact H|]. intros [i c] (_ & Hne). simpl in *. by destruct c.
Qed.

(** The state [onExit] leaves, from the state in which it is called. *)
Lemma onExit_shape root st :
  beginNeverThrows reporters →
  (Deferring st ∨ ∃ d1, Forall quiet d1 ∧ Begun reporters root d1 st) →
  (∀ i, (i, COnEnd) ∉ delivered st) ∧
  ∃ final suite d1 d2,
    onExit reporters st = (final, Returns tt) ∧
    delivered final =
      d1 ++ receivers (COnBegin suite) d1 0 reporters ++ d2
         ++ receivers COnEnd (d1 ++ receivers (COnBegin suite) d1 0 reporters ++ d2)
              0 reporters
         ++ receivers COnExit
              ((d1 ++ receivers (COnBegin suite) d1 0 reporters ++ d2)
               ++ receivers COnEnd
                    (d1 ++ receivers (COnBegin suite) d1 0 reporters ++ d2)
                    0 reporters)
              0 reporters ∧
    Forall quiet d1 ∧ Forall plain d2 ∧
    ((suite = root ∧ _deferredErrors st = None) ∨
     (suite = mkRootSuite [] ∧ d1 = delivered st ∧ is_Some (_deferredErrors st))) ∧
    (∀ e, COnError e ∈ called final →
       ∀ i r, reporters !! i = Some r → (∀ h, r h (COnError e) ≠ Absent) →
              (i, COnError e) ∈ d2).
Proof.
  intros Hnt [Hd|(d1 & Hq1 & Hb)].
  - split.
    { intros i Hin. destruct Hd as (? & ? & _ & _ & Hq & _).
      rewrite Forall_forall in Hq. by destruct (Hq _ Hin) as (_ & Hne & _). }
    destruct (onExit_deferring st Hnt Hd) as (st1 & Hb1 & Hexit).
    pose proof Hb1 as (HE1 & d2 & Hd2 & Hp2 & Herr2).
    destruct (exit_deliveries st1) as [Hdel Hcalled].
    eexists _, (mkRootSuite []), (delivered st), d2. split; [exact Hexit|].
    split; [by rewrite Hdel, Hd2, <- !app_assoc|].
    split; [by destruct Hd as (? & ? & _ & _ & ? & _)|]. split; [done|].
    split.
    { right. split; [done|]. split; [done|].
      destruct Hd as (errors & ? & HE & _). rewrite HE. eauto. }
    intros e He. rewrite Hcalled in He.
    destruct (Herr2 e He) as [Hin|Hall]; [by apply elem_of_nil in Hin|done].
  - pose proof Hb as (HE & d2 & Hd2 & Hp2 & Herr2). split.
    { intros i Hin. rewrite Hd2 in Hin.
      apply elem_of_app in Hin as [Hin|Hin].
      - rewrite Forall_forall in Hq1. by destruct (Hq1 _ Hin) as (_ & Hne & _).
      - apply elem_of_app in Hin as [Hin|Hin].
        + pose proof (receivers_calls (COnBegin root) d1 0 reporters) as Hc.
          rewrite Forall_forall in Hc. by apply Hc in Hin.
        + rewrite Forall_forall in Hp2. by destruct (Hp2 _ Hin) as (_ & Hne). }
    destruct (exit_deliveries (logCall COnExit st)) as [Hdel Hcalled].
    eexists _, root, d1, d2. split; [by eapply onExit_begun|].
    simpl in Hdel. split; [by rewrite Hdel, Hd2, <- !app_assoc|].
    split; [done|]. split; [done|]. split; [by left|].
    intros e He. rewrite Hcalled in He. simpl in He.
    apply elem_of_app in He as [He|He]; [|by apply list_elem_of_singleton in He].
    destruct (Herr2 e He) as [Hin|Hall]; [by apply elem_of_nil in Hin|done].
Qed.

(** In a delivery list of that shape every reporter got [onBegin] once and
    [onEnd] once, if it has the callback. *)
Lemma shape_counts suite d1 d2 i r :
  Forall quiet d1 → Forall plain d2 → reporters !! i = Some r →
  let d := d1 ++ receivers (COnBegin suite) d1 0 reporters ++ d2 in
  let final :=
    d ++ receivers COnEnd d 0 reporters
      ++ receivers COnExit (d ++ receivers COnEnd d 0 reporters) 0 reporters in
  timesDelivered i isBegin final =
    match r (historyOf i d1) (COnBegin suite) with Absent => 0 | _ => 1 end ∧
  timesDelivered i isEnd final =
    match r (historyOf i d) COnEnd with Absent => 0 | _ => 1 end.
Proof.
  intros Hq1 Hp2 Hi d final. subst final d.
  rewrite !timesDelivered_app.
  rewrite (timesDelivered_none i isBegin d1) by by apply quiet_not_begin.
  rewrite (timesDelivered_none i isBegin d2) by by apply plain_not_begin.
  rewrite (timesDelivered_none i isEnd d1) by by apply quiet_not_end.
  rewrite (timesDelivered_none i isEnd d2) by by apply plain_not_end.
  rewrite (timesDelivered_receivers_not COnEnd _ 0 reporters i isBegin) by done.
  rewrite (timesDelivered_receivers_not COnExit _ 0 reporters i isBegin) by done.
  rewrite (timesDelivered_receivers_not COnExit _ 0 reporters i isEnd) by done.
  rewrite (timesDelivered_receivers_not (COnBegin suite) _ 0 reporters i isEnd) by done.
  pose proof (timesDelivered_receivers (COnBegin suite) d1 0 reporters i r isBegin
                Hi eq_refl) as Hbegin.
  pose proof (timesDelivered_receivers COnEnd
                (d1 ++ receivers (COnBegin suite) d1 0 reporters ++ d2)
                0 reporters i r isEnd Hi eq_refl) as Hend.
  simpl in Hbegin, Hend. rewrite Hbegin, Hend. split; lia.
Qed.

End NotificationFacts.




(** C10. For [onTestBegin], [onTestEnd], [onStepBegin], [onStdOut],
    [onStdErr] and [onError], whatever the reporters do, the call on the
    multiplexer returns.  When the notification is not put aside, every
    reporter that has the callback has it invoked, those after a throwing
    reporter included, and each exception goes to the console; when it is
    put aside (before [onBegin]), no callback is invoked. *)
Theorem wrapped_notifications_isolated reporters c st :
  wrapped c = true →
  ∃ st',
    notify reporters c st = (st', Returns tt) ∧
    if deferred c st
    then delivered st' = delivered st ∧ console st' = console st
    else
      delivered st' = delivered st ++ receivers c (delivered st) 0 reporters ∧
      console st' = console st ++ raised c (delivered st) 0 reporters ∧
      ∀ i r, reporters !! i = Some r →
             r (historyOf i (delivered st)) c ≠ Absent →
             (i, c) ∈ receivers c (delivered st) 0 reporters.
Proof.
  intros Hw.
  assert (∀ i r, reporters !! i = Some r →
                 r (historyOf i (delivered st)) c ≠ Absent →
                 (i, c) ∈ receivers c (delivered st) 0 reporters) as Hall.
  { intros i r Hi Hr. by apply (elem_of_receivers c (delivered st) reporters 0 i r). }
  destruct c; try discriminate Hw; simpl;
    unfold onTestBegin, onTestEnd, onStepBegin, onStdOut, onStdErr, onError; simpl.
  - eexists. split; [reflexivity|].
    destruct (forEachWrapped_all reporters (COnTestBegin test)
                (logCall (COnTestBegin test) st)) as (H1 & H2 & _).
    by rewrite H1, H2.
  - eexists. split; [reflexivity|].
    destruct (forEachWrapped_all reporters (COnTestEnd test)
                (logCall (COnTestEnd test) st)) as (H1 & H2 & _).
    by rewrite H1, H2.
  - eexists. split; [reflexivity|].
    destruct (forEachWrapped_all reporters (COnStepBegin test step)
                (logCall (COnStepBegin test step) st)) as (H1 & H2 & _).
    by rewrite H1, H2.
  - destruct (_deferredStdIO st) as [stdios|]; simpl.
    + eexists. split; [reflexivity|]. done.
    + eexists. split; [reflexivity|].
      destruct (forEachWrapped_all reporters (COnStdOut chunk0 test)
                  (logCall (COnStdOut chunk0 test) st)) as (H1 & H2 & _).
      by rewrite H1, H2.
  - destruct (_deferredStdIO st) as [stdios|]; simpl.
    + eexists. split; [reflexivity|]. done.
    + eexists. split; [reflexivity|].
      destruct (forEachWrapped_all reporters (COnStdErr chunk0 test)
                  (logCall (COnStdErr chunk0 test) st)) as (H1 & H2 & _).
      by rewrite H1, H2.
  - destruct (_deferredErrors st) as [errors|]; simpl.
    + eexists. split; [reflexivity|]. done.
    + eexists. split; [reflexivity|].
      destruct (forEachWrapped_all reporters (COnError error)
                  (logCall (COnError error) st)) as (H1 & H2 & _).
      by rewrite H1, H2.
Qed.

Lemma wrapped_notifications_isolated_witness :
  ∃ st',
    notify [throwingReporter; quietReporter] (COnTestBegin "t") newMultiplexer
      = (st', Returns tt) ∧
    delivered st' = [(0, COnTestBegin "t"); (1, COnTestBegin "t")] ∧
    console st' = ["boom"].
Proof.
  destruct (wrapped_notifications_isolated [throwingReporter; quietReporter]
              (COnTestBegin "t") newMultiplexer eq_refl) as (st' & Hret & Hd & Hc & _).
  exists st'. split; [exact Hret|]. split; [exact Hd|exact Hc].
Defined.

(* ================================================================== *)
(** * Further properties *)
(* ================================================================== *)

(** ** The phase builder on any input *)

Section Walks2.
Context {A : Type} `{EqDecision A} (R : relation A).

Lemma isWalk_dup_cycle_in x l :
  isWalk R x l → ¬ NoDup (x :: l) → ∃ y, y ∈ x :: l ∧ tc R y y.
Proof.
  revert x. induction l as [|z l IH]; intros x Hw Hnd.
  - destruct Hnd. apply NoDup_singleton.
  - destruct (decide (x ∈ z :: l)) as [Hin|Hnin].
    + exists x. split; [by left|]. by eapply isWalk_reach.
    + destruct Hw as [_ Hw]. destruct (IH z Hw) as (y & Hy & Hc).
      { intros Hnd'. apply Hnd. by apply NoDup_cons. }
      exists y. split; [by right|done].
Qed.

Lemma walk_exists_inv (V : list A) (Q : A → Prop) :
  (∀ x, x ∈ V → Q x → ∃ y, y ∈ V ∧ Q y ∧ R x y) →
  ∀ n x, x ∈ V → Q x →
    ∃ l, length l = n ∧ isWalk R x l ∧ ∀ y, y ∈ l → y ∈ V ∧ Q y.
Proof.
  intros Hsucc n. induction n as [|n IH]; intros x Hx HQ.
  - exists []. split; [done|]. split; [done|]. intros y Hy. by apply elem_of_nil in Hy.
  - destruct (Hsucc x Hx HQ) as (y & Hy & HQy & Hxy).
    destruct (IH y Hy HQy) as (l & Hlen & Hw & Hin).
    exists (y :: l). split; [simpl; by rewrite Hlen|]. split; [done|].
    intros z Hz. apply elem_of_cons in Hz as [-> |Hz]; auto.
Qed.

(** A walk that can always be continued inside a finite set, along nodes
    that satisfy [Q], runs into a cycle through such a node. *)
Lemma no_sink_cycle_inv (V : list A) (Q : A → Prop) x :
  x ∈ V → Q x →
  (∀ x, x ∈ V → Q x → ∃ y, y ∈ V ∧ Q y ∧ R x y) →
  ∃ y, Q y ∧ tc R y y.
Proof.
  intros Hx HQ Hsucc.
  destruct (walk_exists_inv V Q Hsucc (length V) x Hx HQ) as (l & Hlen & Hw & Hin).
  destruct (isWalk_dup_cycle_in x l Hw) as (y & Hy & Hc).
  - intros Hnd. assert (x :: l ⊆+ V) as Hsub.
    { apply NoDup_submseteq; [done|]. intros y Hy.
      apply elem_of_cons in Hy as [-> |Hy]; [done|]. by apply Hin. }
    apply submseteq_length in Hsub. simpl in Hsub. lia.
  - exists y. split; [|done].
    apply elem_of_cons in Hy as [-> |Hy]; [done|]. by apply Hin.
Qed.

End Walks2.

Section PhasesMore.
Variable _deps : ProjectRef → list ProjectRef.

Lemma length_concat_nonempty {B} (ls : list (list B)) :
  (∀ l, l ∈ ls → l ≠ []) → length ls ≤ length (concat ls).
Proof.
  induction ls as [|l ls IH]; intros Hne; simpl; [done|].
  rewrite length_app.
  assert (l ≠ []) as Hl by (apply Hne; by left).
  assert (length ls ≤ length (concat ls)) as IH'
    by (apply IH; intros l' Hl'; apply Hne; by right).
  destruct l; [done|]. simpl. lia.
Qed.

(** A pass that finds no suite leaves the loop where it is. *)
Lemma buildPhasesLoop_stuck n suites phases processed :
  collectPhase _deps processed suites = [] →
  buildPhasesLoop _deps n suites phases processed = (phases, processed).
Proof.
  intros Hnil. induction n as [|n IH]; simpl; [done|]. by rewrite Hnil.
Qed.

Lemma buildPhasesLoop_extends n suites phases processed :
  ∃ l, (buildPhasesLoop _deps n suites phases processed).1 = phases ++ l.
Proof.
  revert phases processed. induction n as [|n IH]; intros phases processed; simpl.
  - exists []. by rewrite app_nil_r.
  - destruct (collectPhase _deps processed suites) as [|s0 phase0] eqn:Hc.
    + apply IH.
    + destruct (IH (phases ++ [s0 :: phase0]) (addAll processed (s0 :: phase0)))
        as [l Hl].
      exists ((s0 :: phase0) :: l). by rewrite Hl, <- app_assoc.
Qed.

(** When the loop ends, no suite is left that a further pass would
    take. *)
Lemma buildPhasesLoop_fixpoint n suites phases processed :
  length (remaining processed suites) ≤ n →
  collectPhase _deps (buildPhasesLoop _deps n suites phases processed).2 suites = [].
Proof.
  revert phases processed. induction n as [|n IH]; intros phases processed Hlen; simpl.
  - apply collectPhase_remaining_nil.
    destruct (remaining processed suites); [done|simpl in Hlen; lia].
  - destruct (collectPhase _deps processed suites) as [|s0 phase0] eqn:Hc.
    + simpl. rewrite buildPhasesLoop_stuck; done.
    + apply IH. pose proof (remaining_split _deps processed suites) as Hsplit.
      apply Permutation_length in Hsplit.
      rewrite length_app, Hc, length_cons in Hsplit. lia.
Qed.

Lemma eligible_empty p : eligible _deps ∅ p ↔ _deps p = [].
Proof.
  unfold eligible. split.
  - intros [_ Hall]. destruct (_deps p) as [|d l]; [done|].
    apply Forall_cons in Hall as [Hd _]. by apply elem_of_empty in Hd.
  - intros ->. split; [apply not_elem_of_empty|constructor].
Qed.

Lemma collectPhase_empty suites :
  collectPhase _deps ∅ suites = rootSuites _deps suites.
Proof.
  rewrite collectPhase_filter. unfold rootSuites.
  apply list_filter_iff. intros s. apply eligible_empty.
Qed.

End PhasesMore.

(** X1. Whatever the input, [buildPhases] returns no empty phase, and no
    more phases than there are project suites. *)
Theorem buildPhases_no_empty_phase _deps suites :
  (∀ phase, phase ∈ buildPhases _deps suites → phase ≠ []) ∧
  length (buildPhases _deps suites) ≤ length suites.
Proof.
  destruct (buildPhases_inv _deps suites) as [processed Inv].
  pose proof (inv_nonempty _ _ _ _ Inv) as Hne. split; [done|].
  pose proof (inv_perm _ _ _ _ Inv) as Hperm.
  apply Permutation_length in Hperm. rewrite length_app in Hperm.
  pose proof (length_concat_nonempty (buildPhases _deps suites) Hne). lia.
Qed.

(** X2. Whatever the input, cycles included, the phases hold only input
    suites, each at most as often as the input lists it: when the input
    lists no suite twice, no suite is scheduled twice. *)
Theorem buildPhases_schedules_input_once _deps suites :
  concat (buildPhases _deps suites) ⊆+ suites ∧
  (NoDup suites → NoDup (concat (buildPhases _deps suites))).
Proof.
  destruct (buildPhases_inv _deps suites) as [processed Inv].
  pose proof (inv_perm _ _ _ _ Inv) as Hperm.
  assert (concat (buildPhases _deps suites) ⊆+ suites) as Hsub.
  { etrans; [|apply Permutation_submseteq, Hperm]. by apply submseteq_inserts_r. }
  split; [done|]. intros Hnd.
  apply (NoDup_Permutation_proper _ _ (symmetry Hperm)) in Hnd.
  by apply NoDup_app in Hnd as (? & _ & _).
Qed.

(** X3. The first phase holds the suites whose project has no dependency,
    in input order; when every project has a dependency, no phase is
    built at all. *)
Theorem buildPhases_first_phase _deps suites :
  (rootSuites _deps suites = [] → buildPhases _deps suites = []) ∧
  (rootSuites _deps suites ≠ [] →
   buildPhases _deps suites !! 0 = Some (rootSuites _deps suites)).
Proof.
  unfold buildPhases. split.
  - intros Hnil. rewrite buildPhasesLoop_stuck; [done|].
    by rewrite collectPhase_empty.
  - intros Hne. destruct suites as [|s suites]; [by destruct Hne|].
    remember (s :: suites) as all eqn:Hall.
    replace (length all) with (S (length suites)) by (by subst all).
    cbn [buildPhasesLoop]. rewrite collectPhase_empty.
    destruct (rootSuites _deps all) as [|r roots] eqn:Hr; [done|].
    destruct (buildPhasesLoop_extends _deps (length suites) all ([] ++ [r :: roots])
                (addAll ∅ (r :: roots))) as [l ->].
    done.
Qed.

Lemma buildPhases_first_phase_witness :
  buildPhases depsABC suitesABC !! 0 = Some [suiteOf "A"].
Proof.
  apply (proj2 (buildPhases_first_phase depsABC suitesABC)). by vm_compute.
Defined.

(** X4. A project is placed in a phase exactly when every project it
    reaches through the dependencies, itself included, is an input project
    and none of them lies on a dependency cycle. *)
Theorem buildPhases_schedules_iff _deps suites p :
  (∃ i, inPhase (buildPhases _deps suites) i p) ↔ resolvable _deps suites p.
Proof.
  pose proof (buildPhasesLoop_inv _deps (length suites) suites [] ∅
                (PhasesInv_init _deps suites)) as Inv.
  pose proof (buildPhasesLoop_fixpoint _deps (length suites) suites [] ∅) as Hfix.
  fold (buildPhases _deps suites) in Inv.
  set (processed := (buildPhasesLoop _deps (length suites) suites [] ∅).2) in *.
  split.
  - intros [i Hi] q Hpq.
    assert (∃ k, inPhase (buildPhases _deps suites) k q) as [k Hk].
    { revert i Hi. induction Hpq as [a|a b c Hab _ IH]; intros i Hi; [eauto|].
      destruct (PhasesInv_tc _ _ _ _ Inv a b (tc_once _ _ _ Hab) i Hi)
        as (j & _ & Hj). by apply (IH j). }
    split.
    + assert (q ∈ projectsOf (concat (buildPhases _deps suites))) as Hq
        by (apply elem_of_projectsOf_concat; eauto).
      apply elem_of_projectsOf in Hq as (s & Hs & <-).
      apply elem_of_projectsOf. exists s. split; [|done].
      pose proof (inv_perm _ _ _ _ Inv) as Hperm. rewrite <- Hperm.
      apply elem_of_app. by left.
    + intros Hc.
      destruct (PhasesInv_tc _ _ _ _ Inv q q Hc k Hk) as (j & Hj & Hjq).
      pose proof (inv_unique _ _ _ _ Inv j k q Hjq Hk). lia.
  - intros Hres.
    destruct (decide (p ∈ processed)) as [Hin|Hout].
    { apply elem_of_projectsOf_concat. by apply (inv_processed _ _ _ _ Inv). }
    exfalso.
    assert (∀ x, x ∈ projectsOf (remaining processed suites) ↔
                 x ∈ projectsOf suites ∧ x ∉ processed) as Hrem.
    { intros x. rewrite !elem_of_projectsOf. unfold remaining. split.
      - intros (s & Hs & <-). apply list_elem_of_filter in Hs as [? ?]. eauto.
      - intros [(s & Hs & <-) Hn]. exists s. split; [|done].
        by apply list_elem_of_filter. }
    destruct (no_sink_cycle_inv (λ a b, b ∈ _deps a)
                (projectsOf (remaining processed suites))
                (λ x, rtc (λ a b, b ∈ _deps a) p x) p) as (y & Hy & Hc).
    + apply Hrem. split; [|done]. by apply (Hres p).
    + apply rtc_refl.
    + intros x Hx Hpx. apply Hrem in Hx as [Hx Hxn].
      apply elem_of_projectsOf in Hx as (s & Hs & <-).
      assert (¬ Forall (λ d, d ∈ processed) (_deps (_projectConfig s))) as Hnall.
      { intros Hall. assert (s ∈ collectPhase _deps processed suites) as Hc.
        { apply elem_of_collectPhase. done. }
        rewrite Hfix in Hc; [by apply elem_of_nil in Hc|].
        unfold remaining. apply length_filter. }
      apply not_Forall_Exists in Hnall; [|apply _].
      apply Exists_exists in Hnall as (d & Hd & Hdn). simpl in Hdn.
      assert (rtc (λ a b, b ∈ _deps a) p d) as Hpd by (eapply rtc_r; eauto).
      exists d. split; [|done]. apply Hrem. split; [|done]. by apply (Hres d).
    + by apply (Hres y).
Qed.

Lemma buildPhases_schedules_iff_witness :
  resolvable depsCycle suitesCycle "C" ∧
  ¬ ∃ i, inPhase (buildPhases depsCycle suitesCycle) i "A".
Proof.
  split.
  - apply (proj1 (buildPhases_schedules_iff depsCycle suitesCycle "C")).
    exists 0. exists [suiteOf "C"]. split; [by vm_compute|]. solve_elem.
  - intros Hin.
    apply (proj1 (buildPhases_schedules_iff depsCycle suitesCycle "A")) in Hin.
    destruct (Hin "A" (rtc_refl _ _)) as [_ Hn]. apply Hn.
    apply tc_l with "B"; [|apply tc_once]; solve_elem.
Defined.

(** ** The phase runner on any list of phases *)

Section RunnerMore.
Variable _deps : ProjectRef → list ProjectRef.
Variable ok : TestCase → Results → bool.

#[local] Abbreviation runAll := (createRunTestsTask _deps ok).
#[local] Abbreviation before := (stateBefore _deps ok).

(** What a phase leaves, in terms of the state in which it starts. *)
Lemma runPhase_exact k phase st :
  runPhase _deps ok k phase st =
  let added :=
    if workerErrorsIn _deps phase st then []
    else addedProjects _deps ok (resultsAfterRun _deps phase st) (projects phase)
           (successfulProjects st) in
  mkRunState (list_to_set added ∪ successfulProjects st)
    (resultsAfterRun _deps phase st)
    (trace st ++ flat_map (projectEvents _deps k (successfulProjects st)) (projects phase)
       ++ runEvents k (eligibleGroups _deps (successfulProjects st) (projects phase))
       ++ [EHasWorkerErrors k (workerErrorsIn _deps phase st)]
       ++ map (EAddSuccessful k) added).
Proof.
  destruct st as [successful results0 tr]. unfold workerErrorsIn, resultsAfterRun.
  unfold runPhase. simpl. rewrite collectGroups_spec. simpl.
  destruct (eligibleGroups _deps successful (projects phase)) as [|g groups']; simpl.
  - destruct (hasWorkerErrors (dispatcher phase) None _); simpl.
    + f_equal; [set_solver|]. by rewrite <- ?app_assoc; simpl; rewrite ?app_nil_r.
    + rewrite markSuccessful_spec. f_equal.
      by rewrite <- ?app_assoc; simpl; rewrite ?app_nil_r.
  - destruct (hasWorkerErrors (dispatcher phase) (Some (g :: groups')) _); simpl.
    + f_equal; [set_solver|]. by rewrite <- ?app_assoc; simpl; rewrite ?app_nil_r.
    + rewrite markSuccessful_spec. f_equal.
      by rewrite <- ?app_assoc; simpl; rewrite ?app_nil_r.
Qed.

Lemma phaseEvents_exact k phase st :
  phaseEvents _deps ok k phase st =
  flat_map (projectEvents _deps k (successfulProjects st)) (projects phase)
    ++ runEvents k (eligibleGroups _deps (successfulProjects st) (projects phase))
    ++ [EHasWorkerErrors k (workerErrorsIn _deps phase st)]
    ++ map (EAddSuccessful k)
         (if workerErrorsIn _deps phase st then []
          else addedProjects _deps ok (resultsAfterRun _deps phase st) (projects phase)
                 (successfulProjects st)).
Proof.
  unfold phaseEvents. rewrite runPhase_exact. simpl.
  unfold workerErrorsIn, resultsAfterRun. simpl. done.
Qed.

Lemma projectEvents_not_answer k successful projs a :
  EHasWorkerErrors k a ∉ flat_map (projectEvents _deps k successful) projs.
Proof.
  intros He. apply list_elem_of_In, in_flat_map in He as (pw & _ & He).
  apply list_elem_of_In in He. unfold projectEvents in He.
  destruct (hasFailedDeps _deps successful (project pw)).
  - change (EHasWorkerErrors k a ∈
            ESkipTest k (project pw) <$> flat_map tests (testGroups pw)) in He.
    by apply list_elem_of_fmap in He as (t & Heq & _).
  - by apply list_elem_of_singleton in He.
Qed.

Lemma projectEvents_not_add k successful projs p :
  EAddSuccessful k p ∉ flat_map (projectEvents _deps k successful) projs.
Proof.
  intros He. apply list_elem_of_In, in_flat_map in He as (pw & _ & He).
  apply list_elem_of_In in He. unfold projectEvents in He.
  destruct (hasFailedDeps _deps successful (project pw)).
  - change (EAddSuccessful k p ∈
            ESkipTest k (project pw) <$> flat_map tests (testGroups pw)) in He.
    by apply list_elem_of_fmap in He as (t & Heq & _).
  - by apply list_elem_of_singleton in He.
Qed.

Lemma answer_event k phase st a :
  EHasWorkerErrors k a ∈ phaseEvents _deps ok k phase st ↔
  a = workerErrorsIn _deps phase st.
Proof.
  rewrite phaseEvents_exact, !elem_of_app, list_elem_of_singleton. split.
  - intros [He|[He|[He|He]]].
    + by apply projectEvents_not_answer in He.
    + unfold runEvents in He. destruct (eligibleGroups _ _ _);
        [by apply elem_of_nil in He|].
      apply elem_of_cons in He as [He|He]; [done|].
      by apply list_elem_of_singleton in He.
    + by injection He.
    + change (EHasWorkerErrors k a ∈ EAddSuccessful k <$>
                (if workerErrorsIn _deps phase st then []
                 else addedProjects _deps ok (resultsAfterRun _deps phase st)
                        (projects phase) (successfulProjects st))) in He.
      by apply list_elem_of_fmap in He as (t & Heq & _).
  - intros ->. auto.
Qed.

Lemma add_event k phase st p :
  EAddSuccessful k p ∈ phaseEvents _deps ok k phase st ↔
  workerErrorsIn _deps phase st = false ∧
  p ∈ addedProjects _deps ok (resultsAfterRun _deps phase st) (projects phase)
        (successfulProjects st).
Proof.
  rewrite phaseEvents_exact, !elem_of_app, list_elem_of_singleton. split.
  - intros [He|[He|[He|He]]].
    + by apply projectEvents_not_add in He.
    + unfold runEvents in He. destruct (eligibleGroups _ _ _);
        [by apply elem_of_nil in He|].
      apply elem_of_cons in He as [He|He]; [done|].
      by apply list_elem_of_singleton in He.
    + done.
    + destruct (workerErrorsIn _deps phase st); [by apply elem_of_nil in He|].
      split; [done|].
      change (EAddSuccessful k p ∈ EAddSuccessful k <$>
                addedProjects _deps ok (resultsAfterRun _deps phase st)
                  (projects phase) (successfulProjects st)) in He.
      apply list_elem_of_fmap in He as (q & Heq & Hq). by injection Heq as ->.
  - intros [-> Hp]. do 3 right.
    change (EAddSuccessful k p ∈ EAddSuccessful k <$>
              addedProjects _deps ok (resultsAfterRun _deps phase st)
                (projects phase) (successfulProjects st)).
    by apply list_elem_of_fmap_2.
Qed.

Lemma phaseEvents_phaseOf k phase st e :
  e ∈ phaseEvents _deps ok k phase st → phaseOf e = k.
Proof.
  intros He. apply phaseEvents_inv in He
    as [(pw & t & _ & _ & _ & ->)|[(pw & _ & _ & ->)|[[_ [-> | ->]]|
        [(b & -> & _)|(p & -> & _)]]]]; done.
Qed.

Lemma runPhases_app k l1 l2 st :
  runPhases _deps ok k (l1 ++ l2) st =
  runPhases _deps ok (k + length l1) l2 (runPhases _deps ok k l1 st).
Proof.
  revert k st. induction l1 as [|x l1 IH]; intros k st; simpl.
  - by rewrite Nat.add_0_r.
  - rewrite IH. by replace (S k + length l1) with (k + S (length l1)) by lia.
Qed.

Lemma runPhases_grows k l st :
  successfulProjects st ⊆ successfulProjects (runPhases _deps ok k l st) ∧
  trace st `prefix_of` trace (runPhases _deps ok k l st).
Proof.
  revert k st. induction l as [|phase l IH]; intros k st; simpl; [done|].
  destruct (IH (S k) (runPhase _deps ok k phase st)) as [Hs Ht]. split.
  - etrans; [|exact Hs]. rewrite runPhase_exact. simpl. set_solver.
  - etrans; [|exact Ht]. rewrite runPhase_trace. by apply prefix_app_r.
Qed.

Lemma before_grows k phases results0 :
  successfulProjects (before k phases results0) ⊆
    successfulProjects (runAll phases results0) ∧
  trace (before k phases results0) `prefix_of` trace (runAll phases results0).
Proof.
  unfold stateBefore, createRunTestsTask.
  rewrite <- (take_drop k phases) at 2 4. rewrite runPhases_app. apply runPhases_grows.
Qed.

Lemma before_mono k k' phases results0 :
  k ≤ k' →
  successfulProjects (before k phases results0) ⊆
  successfulProjects (before k' phases results0).
Proof.
  intros Hle. unfold stateBefore at 1.
  replace (take k phases) with (take k (take k' phases))
    by (rewrite take_take; f_equal; lia).
  apply (before_grows k (take k' phases) results0).
Qed.

Lemma before_trace_phaseOf k phases results0 e :
  e ∈ trace (before k phases results0) → phaseOf e < k.
Proof.
  unfold stateBefore. intros He. apply trace_elem in He as (k' & phase & Hk' & He).
  apply lookup_take_Some in Hk' as [_ Hlt].
  apply phaseEvents_phaseOf in He. lia.
Qed.

Lemma hasFailedDeps_ext s1 s2 p :
  (∀ d, d ∈ _deps p → (d ∈ s1 ↔ d ∈ s2)) →
  hasFailedDeps _deps s1 p = hasFailedDeps _deps s2 p.
Proof.
  intros Hext. destruct (hasFailedDeps _deps s2 p) eqn:H2.
  - apply hasFailedDeps_true in H2 as (d & Hd & Hn). apply hasFailedDeps_true.
    exists d. split; [done|]. by rewrite (Hext d Hd).
  - rewrite hasFailedDeps_false in H2. apply hasFailedDeps_false.
    intros d Hd. apply (Hext d Hd). auto.
Qed.

Lemma addedProjects_iff_gen results (X : ProjectRef → Prop) projs successful p :
  (∀ pw, pw ∈ projs → X (project pw)) →
  (∀ pw d, pw ∈ projs → d ∈ _deps (project pw) → ¬ X d) →
  ∀ succ0, (∀ d, ¬ X d → (d ∈ succ0 ↔ d ∈ successful)) →
  p ∈ addedProjects _deps ok results projs succ0 ↔
  ∃ pw, pw ∈ projs ∧ project pw = p ∧
        hasFailedDeps _deps successful p = false ∧
        existsb (λ test, negb (ok test results)) (allTests (projectSuite pw)) = false.
Proof.
  induction projs as [|pw projs IH]; intros HX Hdeps succ0 Hsucc0; simpl.
  - split; [intros H; by apply elem_of_nil in H|].
    intros (pw & Hpw & _). by apply elem_of_nil in Hpw.
  - assert (hasFailedDeps _deps succ0 (project pw) =
            hasFailedDeps _deps successful (project pw)) as Hsame.
    { apply hasFailedDeps_ext. intros d Hd. apply Hsucc0.
      apply (Hdeps pw d); [by left|done]. }
    assert (∀ succ1, (∀ d, ¬ X d → (d ∈ succ1 ↔ d ∈ successful)) →
      p ∈ addedProjects _deps ok results projs succ1 ↔
      ∃ pw0, pw0 ∈ projs ∧ project pw0 = p ∧
        hasFailedDeps _deps successful p = false ∧
        existsb (λ test, negb (ok test results)) (allTests (projectSuite pw0)) = false)
      as IH'.
    { apply IH.
      - intros pw0 Hpw0. apply HX. by right.
      - intros pw0 d Hpw0. apply Hdeps. by right. }
    rewrite Hsame.
    destruct (hasFailedDeps _deps successful (project pw)) eqn:Hf; simpl.
    + rewrite (IH' succ0 Hsucc0). split.
      * intros (pw0 & Hpw0 & Hrest). exists pw0. split; [by right|done].
      * intros (pw0 & Hpw0 & Hp & Hfp & Hok).
        apply elem_of_cons in Hpw0 as [-> |Hpw0]; [congruence|]. eauto.
    + destruct (existsb (λ test, negb (ok test results)) (allTests (projectSuite pw)))
        eqn:Hok; simpl.
      * rewrite (IH' succ0 Hsucc0). split.
        { intros (pw0 & Hpw0 & Hrest). exists pw0. split; [by right|done]. }
        intros (pw0 & Hpw0 & Hp & Hfp & Hok0).
        apply elem_of_cons in Hpw0 as [-> |Hpw0]; [congruence|]. eauto.
      * rewrite elem_of_cons, (IH' ({[project pw]} ∪ succ0)).
        { split.
          - intros [-> |(pw0 & Hpw0 & Hrest)].
            + exists pw. split; [by left|done].
            + exists pw0. split; [by right|done].
          - intros (pw0 & Hpw0 & Hp & Hfp & Hok0).
            apply elem_of_cons in Hpw0 as [-> |Hpw0]; [by left|]. right. eauto. }
        intros d Hd. rewrite elem_of_union, elem_of_singleton, <- (Hsucc0 d Hd).
        split; [|by right]. intros [-> |?]; [|done].
        destruct Hd. apply HX. by left.
Qed.

(** In a phase none of whose projects depends on another of its projects,
    the second loop adds the projects that pass both tests against the
    successful set the phase started with. *)
Lemma addedProjects_iff results projs successful p :
  (∀ pw pw', pw ∈ projs → pw' ∈ projs → project pw' ∉ _deps (project pw)) →
  p ∈ addedProjects _deps ok results projs successful ↔
  ∃ pw, pw ∈ projs ∧ project pw = p ∧
        hasFailedDeps _deps successful p = false ∧
        existsb (λ test, negb (ok test results)) (allTests (projectSuite pw)) = false.
Proof.
  intros Hind.
  apply (addedProjects_iff_gen results (λ d, ∃ pw, pw ∈ projs ∧ project pw = d)).
  - intros pw Hpw. eauto.
  - intros pw d Hpw Hd (pw' & Hpw' & <-). by apply (Hind pw pw').
  - done.
Qed.

Lemma add_event_successful k phase st p :
  EAddSuccessful k p ∈ phaseEvents _deps ok k phase st →
  p ∈ successfulProjects (runPhase _deps ok k phase st).
Proof.
  intros [Hans Hp]%add_event. rewrite runPhase_exact. simpl. rewrite Hans.
  apply elem_of_union. left. by apply elem_of_list_to_set.
Qed.

(** An [add] in the trace belongs to a listed phase, which had no worker
    errors and whose second loop added the project. *)
Lemma add_in_trace phases results0 j d :
  EAddSuccessful j d ∈ trace (runAll phases results0) →
  ∃ phase, phases !! j = Some phase ∧
    workerErrorsIn _deps phase (before j phases results0) = false ∧
    d ∈ addedProjects _deps ok (resultsAfterRun _deps phase (before j phases results0))
          (projects phase) (successfulProjects (before j phases results0)) ∧
    projectIn phases j d ∧
    d ∈ successfulProjects (before (S j) phases results0).
Proof.
  intros He. apply trace_elem in He as (j0 & phase & Hj0 & He).
  pose proof (phaseEvents_phaseOf _ _ _ _ He) as Hj. simpl in Hj. subst j0.
  pose proof (add_event_successful _ _ _ _ He) as Hsucc.
  apply add_event in He as [Hans Hd]. exists phase.
  split; [done|]. split; [done|]. split; [done|]. split.
  - apply addedProjects_spec in Hd as (pw & _ & Hpw & Hp & _). by exists phase, pw.
  - by rewrite (stateBefore_S _ _ _ _ _ _ Hj0).
Qed.

(** *** The order of the events of a run *)

Lemma runPhases_trace_from j l st :
  ∃ extra,
    trace (runPhases _deps ok j l st) = trace st ++ extra ∧
    Forall (λ e, j ≤ phaseOf e) extra.
Proof.
  revert j st. induction l as [|phase l IH]; intros j st; simpl.
  - exists []. by rewrite app_nil_r.
  - destruct (IH (S j) (runPhase _deps ok j phase st)) as (extra & Heq & Hall).
    exists (phaseEvents _deps ok j phase st ++ extra).
    rewrite Heq, runPhase_trace, <- app_assoc. split; [done|].
    apply Forall_app. split.
    + apply Forall_forall. intros e He. apply phaseEvents_phaseOf in He. lia.
    + eapply Forall_impl; [exact Hall|]. intros e He. simpl in He. lia.
Qed.

(** The trace of a run: what came before phase [k], the events of phase
    [k], and the events of later phases. *)
Lemma trace_split k phase phases results0 :
  phases !! k = Some phase →
  ∃ rest,
    trace (runAll phases results0) =
      trace (before k phases results0)
        ++ phaseEvents _deps ok k phase (before k phases results0) ++ rest ∧
    Forall (λ e, k < phaseOf e) rest.
Proof.
  intros Hk.
  assert (runAll phases results0 =
          runPhases _deps ok (S k) (drop (S k) phases)
            (before (S k) phases results0)) as Hrun.
  { unfold stateBefore, createRunTestsTask.
    rewrite <- (take_drop (S k) phases) at 1. rewrite runPhases_app. f_equal.
    rewrite length_take. apply lookup_lt_Some in Hk. lia. }
  destruct (runPhases_trace_from (S k) (drop (S k) phases)
              (before (S k) phases results0)) as (rest & Heq & Hall).
  exists rest. rewrite Hrun, Heq, (stateBefore_S _ _ _ _ _ _ Hk), runPhase_trace.
  rewrite <- app_assoc. split; [done|].
  eapply Forall_impl; [exact Hall|]. intros e He. simpl in He. lia.
Qed.

Lemma projectEvents_not_run k successful projs j gs :
  ERun j gs ∉ flat_map (projectEvents _deps k successful) projs.
Proof.
  intros He. apply list_elem_of_In, in_flat_map in He as (pw & _ & He).
  apply list_elem_of_In in He. unfold projectEvents in He.
  destruct (hasFailedDeps _deps successful (project pw)).
  - change (ERun j gs ∈
            ESkipTest k (project pw) <$> flat_map tests (testGroups pw)) in He.
    by apply list_elem_of_fmap in He as (t & Heq & _).
  - by apply list_elem_of_singleton in He.
Qed.

(** Within a phase, [dispatcher.run] is followed at once by
    [dispatcher.stop()] and then by [hasWorkerErrors()]. *)
Lemma phase_run_position k phase st j gs :
  phaseEvents _deps ok k phase st !! j = Some (ERun k gs) →
  gs ≠ [] ∧
  phaseEvents _deps ok k phase st !! S j = Some (EStop k) ∧
  phaseEvents _deps ok k phase st !! S (S j) =
    Some (EHasWorkerErrors k (workerErrorsIn _deps phase st)).
Proof.
  rewrite phaseEvents_exact.
  set (pushes := flat_map (projectEvents _deps k (successfulProjects st))
                          (projects phase)).
  set (added := if workerErrorsIn _deps phase st then []
                else addedProjects _deps ok (resultsAfterRun _deps phase st)
                       (projects phase) (successfulProjects st)).
  intros Hj. apply lookup_app_Some in Hj as [Hj|[Hle Hj]].
  { apply list_elem_of_lookup_2 in Hj. by apply projectEvents_not_run in Hj. }
  assert (∀ n e, map (EAddSuccessful k) added !! n = Some e →
                 e ≠ ERun k gs) as Hadds.
  { intros n e Hn ->. apply list_elem_of_lookup_2 in Hn.
    change (ERun k gs ∈ EAddSuccessful k <$> added) in Hn.
    by apply list_elem_of_fmap in Hn as (t & Heq & _). }
  unfold runEvents in *.
  destruct (eligibleGroups _deps (successfulProjects st) (projects phase))
    as [|g groups]; simpl in Hj.
  - destruct (j - length pushes) as [|n]; simpl in Hj; [done|].
    by destruct (Hadds n _ Hj).
  - destruct (j - length pushes) as [|[|[|n]]] eqn:Hpos; simpl in Hj;
      [|done|done|by destruct (Hadds n _ Hj)].
    injection Hj as <-. assert (j = length pushes) as -> by lia.
    split; [done|]. split.
    + rewrite lookup_app_r by lia.
      by replace (S (length pushes) - length pushes) with 1 by lia.
    + rewrite lookup_app_r by lia.
      by replace (S (S (length pushes)) - length pushes) with 2 by lia.
Qed.

(** X6. Every phase of the list is visited, whatever the dispatchers of
    earlier phases answered: [hasWorkerErrors()] is asked of each
    dispatcher, with one answer.  [dispatcher.run] is called with a
    non-empty list of groups only; the next thing the loop does is
    [dispatcher.stop()] for the same phase, and the next again is
    [hasWorkerErrors()] for the same phase. *)
Theorem every_phase_visited phases results0 :
  (∀ k phase, phases !! k = Some phase →
     ∃ answer,
       EHasWorkerErrors k answer ∈
         trace (createRunTestsTask _deps ok phases results0) ∧
       ∀ answer',
         EHasWorkerErrors k answer' ∈
           trace (createRunTestsTask _deps ok phases results0) →
         answer' = answer) ∧
  (∀ i k gs,
     trace (createRunTestsTask _deps ok phases results0) !! i = Some (ERun k gs) →
     gs ≠ [] ∧
     trace (createRunTestsTask _deps ok phases results0) !! S i = Some (EStop k) ∧
     ∃ answer,
       trace (createRunTestsTask _deps ok phases results0) !! S (S i)
         = Some (EHasWorkerErrors k answer)).
Proof.
  split.
  - intros k phase Hk.
    exists (workerErrorsIn _deps phase (before k phases results0)). split.
    + apply trace_elem. exists k, phase. split; [done|]. by apply answer_event.
    + intros answer' He. apply trace_elem in He as (k0 & phase' & Hk0 & He).
      pose proof (phaseEvents_phaseOf _ _ _ _ He) as Hk'. simpl in Hk'. subst k0.
      assert (phase' = phase) as -> by congruence. by apply answer_event in He.
  - intros i k gs Hi.
    pose proof (list_elem_of_lookup_2 _ _ _ Hi) as He.
    apply trace_elem in He as (k0 & phase & Hk0 & He).
    pose proof (phaseEvents_phaseOf _ _ _ _ He) as Hk. simpl in Hk. subst k0.
    destruct (trace_split k phase phases results0 Hk0) as (rest & Heq & Hrest).
    rewrite Heq in Hi |- *.
    set (earlier := trace (before k phases results0)) in *.
    set (here := phaseEvents _deps ok k phase (before k phases results0)) in *.
    apply lookup_app_Some in Hi as [Hi|[Hle Hi]].
    { apply list_elem_of_lookup_2, before_trace_phaseOf in Hi. simpl in Hi. lia. }
    apply lookup_app_Some in Hi as [Hi|[_ Hi]].
    + destruct (phase_run_position k phase _ _ gs Hi) as (Hne & Hstop & Hans).
      split; [done|]. split.
      * rewrite lookup_app_r by lia. apply lookup_app_l_Some.
        by replace (S i - length earlier) with (S (i - length earlier)) by lia.
      * eexists. rewrite lookup_app_r by lia. apply lookup_app_l_Some.
        by replace (S (S i) - length earlier)
          with (S (S (i - length earlier))) by lia.
    + apply list_elem_of_lookup_2 in Hi. rewrite Forall_forall in Hrest.
      apply Hrest in Hi. simpl in Hi. lia.
Qed.

(** X7. When the dispatcher of a phase answers [hasWorkerErrors()] with
    true, the phase adds no project to the successful set: the set the next
    phase starts with is the set this phase started with. *)
Theorem worker_errors_add_nothing phases results0 k :
  EHasWorkerErrors k true ∈ trace (createRunTestsTask _deps ok phases results0) →
  (∀ p, EAddSuccessful k p ∉ trace (createRunTestsTask _deps ok phases results0)) ∧
  successfulProjects (stateBefore _deps ok (S k) phases results0) =
  successfulProjects (stateBefore _deps ok k phases results0).
Proof.
  intros He. apply trace_elem in He as (k0 & phase & Hk0 & He).
  pose proof (phaseEvents_phaseOf _ _ _ _ He) as Hk. simpl in Hk. subst k0.
  apply answer_event in He. split.
  - intros p Hadd. apply add_in_trace in Hadd as (phase' & Hk' & Hans & _).
    congruence.
  - rewrite (stateBefore_S _ _ _ _ _ _ Hk0), runPhase_exact. simpl.
    rewrite <- He. simpl. apply leibniz_equiv. set_solver.
Qed.

(** X8. A project all of whose dependencies are in the successful set when
    its phase starts is not skipped: its test groups are pushed, none of
    its tests gets a skip, and each of its groups is in the list handed to
    [dispatcher.run]. *)
Theorem successful_deps_dispatched phases results0 k phase pw :
  phases !! k = Some phase → pw ∈ projects phase →
  hasFailedDeps _deps (successfulProjects (stateBefore _deps ok k phases results0))
                (project pw) = false →
  EPushGroups k (project pw) (testGroups pw) ∈
    trace (createRunTestsTask _deps ok phases results0) ∧
  (∀ t, ESkipTest k (project pw) t ∉
          trace (createRunTestsTask _deps ok phases results0)) ∧
  (∀ g, g ∈ testGroups pw →
     ∃ gs, ERun k gs ∈ trace (createRunTestsTask _deps ok phases results0) ∧
           g ∈ gs).
Proof.
  intros Hk Hpw Hf. split; [|split].
  - apply trace_elem. exists k, phase. split; [done|]. by apply phaseEvents_push.
  - intros t He. apply trace_elem in He as (k0 & phase' & Hk0 & He).
    pose proof (phaseEvents_phaseOf _ _ _ _ He) as Hk'. simpl in Hk'. subst k0.
    apply phaseEvents_inv in He
      as [(pw' & t' & _ & Hf' & _ & Heq)|[(pw' & _ & _ & Heq)|[[_ [Heq|Heq]]|
          [(b & Heq & _)|(p' & Heq & _)]]]];
      try discriminate Heq.
    injection Heq as Hproj _. rewrite <- Hproj in Hf'. congruence.
  - intros g Hg.
    assert (g ∈ eligibleGroups _deps (successfulProjects (before k phases results0))
                  (projects phase)) as Hin.
    { unfold eligibleGroups. apply list_elem_of_In, in_flat_map. exists pw.
      split; [by apply list_elem_of_In|]. rewrite Hf. by apply list_elem_of_In. }
    exists (eligibleGroups _deps (successfulProjects (before k phases results0))
              (projects phase)).
    split; [|done]. apply trace_elem. exists k, phase. split; [done|].
    rewrite phaseEvents_exact, !elem_of_app. right; left. unfold runEvents.
    destruct (eligibleGroups _ _ _); [by apply elem_of_nil in Hin|]. by left.
Qed.

(** X9. [dispatcher.run] is handed the groups of a project only after
    every dependency of the project was added to the successful set, in an
    earlier phase. *)
Theorem run_after_dependencies phases results0 i k gs g :
  trace (createRunTestsTask _deps ok phases results0) !! i = Some (ERun k gs) →
  g ∈ gs →
  ∃ phase pw,
    phases !! k = Some phase ∧ pw ∈ projects phase ∧ g ∈ testGroups pw ∧
    ∀ d, d ∈ _deps (project pw) →
      ∃ j i', j < k ∧ i' < i ∧
        trace (createRunTestsTask _deps ok phases results0) !! i'
          = Some (EAddSuccessful j d).
Proof.
  intros Hi Hg.
  pose proof (list_elem_of_lookup_2 _ _ _ Hi) as He.
  apply trace_elem in He as (k0 & phase & Hk0 & He).
  pose proof (phaseEvents_phaseOf _ _ _ _ He) as Hk. simpl in Hk. subst k0.
  apply phaseEvents_inv in He
    as [(pw' & t' & _ & _ & _ & Heq)|[(pw' & _ & _ & Heq)|[[_ [Heq|Heq]]|
        [(b & Heq & _)|(p' & Heq & _)]]]];
    try discriminate Heq.
  injection Heq as ->.
  apply elem_of_eligibleGroups in Hg as (pw & Hpw & Hf & Hg).
  exists phase, pw. split; [done|]. split; [done|]. split; [done|].
  intros d Hd. rewrite hasFailedDeps_false in Hf.
  pose proof (Hf d Hd) as Hsucc. unfold stateBefore in Hsucc.
  apply successful_elem in Hsucc as [j Hadd].
  fold (before k phases results0) in Hadd.
  pose proof (before_trace_phaseOf _ _ _ _ Hadd) as Hj. simpl in Hj.
  apply list_elem_of_lookup in Hadd as [i' Hi'].
  destruct (before_grows k phases results0) as [_ [rest Hrest]].
  exists j, i'. split; [done|].
  pose proof (lookup_lt_Some _ _ _ Hi') as Hlt.
  split.
  - destruct (decide (i < length (trace (before k phases results0)))) as [Hin|]; [|lia].
    rewrite Hrest, lookup_app_l in Hi by done.
    apply list_elem_of_lookup_2, before_trace_phaseOf in Hi. simpl in Hi. lia.
  - rewrite Hrest, lookup_app_l by done. done.
Qed.

(** *** Which projects end in the successful set *)

Section LayeredSuccess.
Variable phases : list Phase.
Variable results0 : Results.
Hypothesis Hlay : Layered _deps phases.

Lemma successful_layered k phase p :
  phases !! k = Some phase →
  (∃ pw, pw ∈ projects phase ∧ project pw = p) →
  p ∈ successfulProjects (runAll phases results0) ↔
  EHasWorkerErrors k false ∈ trace (runAll phases results0) ∧
  (∀ d, d ∈ _deps p → d ∈ successfulProjects (runAll phases results0)) ∧
  ∃ pw, pw ∈ projects phase ∧ project pw = p ∧
    existsb (λ test, negb (ok test (results (before (S k) phases results0))))
            (allTests (projectSuite pw)) = false.
Proof.
  intros Hk (pw0 & Hpw0 & Hp0).
  assert (projectIn phases k p) as Hin by (by exists phase, pw0).
  assert (∀ pw pw', pw ∈ projects phase → pw' ∈ projects phase →
                    project pw' ∉ _deps (project pw)) as Hind.
  { intros pw pw' Hpw Hpw' Hd.
    assert (k < k); [|lia].
    apply (layered_deps _ _ Hlay k k (project pw) (project pw')); [|done|].
    - by exists phase, pw.
    - by exists phase, pw'. }
  assert (results (before (S k) phases results0) =
          resultsAfterRun _deps phase (before k phases results0)) as Hres.
  { by rewrite (stateBefore_S _ _ _ _ _ _ Hk), runPhase_exact. }
  assert (∀ d, d ∈ _deps p →
            (d ∈ successfulProjects (runAll phases results0) ↔
             d ∈ successfulProjects (before k phases results0))) as Hdeps.
  { intros d Hd. split; [|apply before_grows].
    intros Hsucc. apply successful_elem in Hsucc as [j Hadd].
    apply add_in_trace in Hadd as (ph & _ & _ & _ & Hjd & Hsucc).
    pose proof (layered_deps _ _ Hlay k j p d Hin Hd Hjd) as Hlt.
    revert Hsucc. apply before_mono. lia. }
  rewrite Hres. split.
  - intros Hsucc. apply successful_elem in Hsucc as [j Hadd].
    apply add_in_trace in Hadd as (ph & Hj & Hans & Hadded & Hjp & _).
    pose proof (layered_unique _ _ Hlay j k p Hjp Hin) as ->.
    assert (ph = phase) as -> by congruence.
    apply addedProjects_iff in Hadded as (pw & Hpw & Hp & Hf & Hok); [|done].
    split; [|split].
    + apply trace_elem. exists k, phase. split; [done|]. by apply answer_event.
    + intros d Hd. apply (Hdeps d Hd). rewrite hasFailedDeps_false in Hf. auto.
    + eauto.
  - intros (Hans & Hall & pw & Hpw & Hp & Hok).
    apply trace_elem in Hans as (k0 & ph & Hk0 & Hans).
    pose proof (phaseEvents_phaseOf _ _ _ _ Hans) as Hk'. simpl in Hk'. subst k0.
    assert (ph = phase) as -> by congruence.
    apply answer_event in Hans.
    apply (proj1 (before_grows (S k) phases results0)).
    rewrite (stateBefore_S _ _ _ _ _ _ Hk). apply add_event_successful.
    apply add_event. split; [done|]. apply addedProjects_iff; [done|].
    exists pw. split; [done|]. split; [done|]. split; [|done].
    apply hasFailedDeps_false. intros d Hd. apply (Hdeps d Hd). auto.
Qed.

End LayeredSuccess.

End RunnerMore.

(** X10. In a run of the phases built from the project suites, a project of
    phase [k] ends in the successful set exactly when the dispatcher of
    that phase reported no worker errors, every dependency of the project
    ends in the successful set, and no test of its project suite fails
    [ok()] once the phase has run. *)
Theorem successful_iff _deps ok createTestGroups newDispatcher
    workers suites results0 k phase p :
  createTestGroupsTask _deps createTestGroups newDispatcher workers suites !! k
    = Some phase →
  (∃ pw, pw ∈ projects phase ∧ project pw = p) →
  p ∈ successfulProjects
        (runTests _deps ok createTestGroups newDispatcher workers suites results0) ↔
  EHasWorkerErrors k false ∈
    trace (runTests _deps ok createTestGroups newDispatcher workers suites results0) ∧
  (∀ d, d ∈ _deps p →
     d ∈ successfulProjects
           (runTests _deps ok createTestGroups newDispatcher workers suites results0)) ∧
  ∃ pw, pw ∈ projects phase ∧ project pw = p ∧
    existsb (λ test,
               negb (ok test
                       (results
                          (stateBefore _deps ok (S k)
                             (createTestGroupsTask _deps createTestGroups
                                newDispatcher workers suites) results0))))
            (allTests (projectSuite pw)) = false.
Proof.
  intros Hk Hp. unfold runTests.
  apply (successful_layered _deps ok _ results0
           (createTestGroupsTask_layered _ _ _ _ _) k phase p Hk Hp).
Qed.

Lemma successful_iff_witness :
  "A" ∈ successfulProjects runChain ∧ "B" ∉ successfulProjects runChain.
Proof.
  split.
  - apply (proj2 (successful_iff depsChain lastResultOk oneGroupPerSuite
                    (λ _, scriptedDispatcher ["B/test"] false) 1 suitesABC noResults
                    0 (mkPhase (scriptedDispatcher ["B/test"] false) [entryOf "A"]) "A"
                    eq_refl
                    (ex_intro _ (entryOf "A") (conj (list_elem_of_here _ _) eq_refl)))).
    split; [solve_elem|]. split.
    + intros d Hd. by apply elem_of_nil in Hd.
    + exists (entryOf "A"). split; [by left|]. split; reflexivity.
  - intros Hin.
    apply (proj1 (successful_iff depsChain lastResultOk oneGroupPerSuite
                    (λ _, scriptedDispatcher ["B/test"] false) 1 suitesABC noResults
                    1 (mkPhase (scriptedDispatcher ["B/test"] false) [entryOf "B"]) "B"
                    eq_refl
                    (ex_intro _ (entryOf "B") (conj (list_elem_of_here _ _) eq_refl))))
      in Hin.
    destruct Hin as (_ & _ & pw & Hpw & _ & Hok).
    apply list_elem_of_singleton in Hpw as ->. vm_compute in Hok. discriminate Hok.
Defined.

Lemma worker_errors_add_nothing_witness :
  (∀ p, EAddSuccessful 0 p ∉ trace runCrash) ∧
  successfulProjects
    (stateBefore depsChain lastResultOk 1
       (createTestGroupsTask depsChain oneGroupPerSuite
          (λ _, scriptedDispatcher [] true) 1 suitesABC) noResults) =
  successfulProjects
    (stateBefore depsChain lastResultOk 0
       (createTestGroupsTask depsChain oneGroupPerSuite
          (λ _, scriptedDispatcher [] true) 1 suitesABC) noResults).
Proof.
  apply (worker_errors_add_nothing depsChain lastResultOk
           (createTestGroupsTask depsChain oneGroupPerSuite
              (λ _, scriptedDispatcher [] true) 1 suitesABC) noResults 0).
  solve_elem.
Defined.

Lemma successful_deps_dispatched_witness :
  EPushGroups 1 "B" [mkTestGroup ["B/test"]] ∈ trace runChain ∧
  (∀ t, ESkipTest 1 "B" t ∉ trace runChain) ∧
  (∀ g, g ∈ [mkTestGroup ["B/test"]] → ∃ gs, ERun 1 gs ∈ trace runChain ∧ g ∈ gs).
Proof.
  apply (successful_deps_dispatched depsChain lastResultOk
           (createTestGroupsTask depsChain oneGroupPerSuite
              (λ _, scriptedDispatcher ["B/test"] false) 1 suitesABC) noResults
           1 (mkPhase (scriptedDispatcher ["B/test"] false) [entryOf "B"]) (entryOf "B")).
  - reflexivity.
  - by left.
  - reflexivity.
Defined.

Lemma run_after_dependencies_witness :
  ∃ phase pw,
    createTestGroupsTask depsChain oneGroupPerSuite
      (λ _, scriptedDispatcher ["B/test"] false) 1 suitesABC !! 1 = Some phase ∧
    pw ∈ projects phase ∧ mkTestGroup ["B/test"] ∈ testGroups pw ∧
    ∀ d, d ∈ depsChain (project pw) →
      ∃ j i', j < 1 ∧ i' < 6 ∧ trace runChain !! i' = Some (EAddSuccessful j d).
Proof.
  apply (run_after_dependencies depsChain lastResultOk
           (createTestGroupsTask depsChain oneGroupPerSuite
              (λ _, scriptedDispatcher ["B/test"] false) 1 suitesABC) noResults
           6 1 [mkTestGroup ["B/test"]] (mkTestGroup ["B/test"])).
  - reflexivity.
  - by left.
Defined.

(** ** The multiplexer beyond the wrapped notifications *)

Section MultiplexerMore.
Variable reporters : list Reporter.

Lemma historyOf_receivers c d k (rs : list Reporter) i (r : Reporter) :
  rs !! i = Some r →
  historyOf (k + i) (receivers c d k rs) =
  match r (historyOf (k + i) d) c with Absent => [] | _ => [c] end.
Proof.
  revert k i. induction rs as [|r0 rs IH]; intros k i Hi; [done|].
  destruct i as [|i]; simpl in Hi.
  - injection Hi as ->. rewrite Nat.add_0_r. simpl.
    assert (historyOf k (receivers c d (S k) rs) = []) as Hrest.
    { apply historyOf_other. intros x Hx.
      apply receivers_inv in Hx as (j & r' & -> & _). simpl. lia. }
    destruct (r (historyOf k d) c); [done| |].
    + change ((k, c) :: receivers c d (S k) rs)
        with ([(k, c)] ++ receivers c d (S k) rs).
      rewrite historyOf_app, Hrest. unfold historyOf. rewrite filter_cons_True by done.
      done.
    + change ((k, c) :: receivers c d (S k) rs)
        with ([(k, c)] ++ receivers c d (S k) rs).
      rewrite historyOf_app, Hrest. unfold historyOf. rewrite filter_cons_True by done.
      done.
  - replace (k + S i) with (S k + i) by lia. cbn [receivers].
    destruct (r0 (historyOf k d) c); [by apply IH| |].
    + change ((k, c) :: receivers c d (S k) rs)
        with ([(k, c)] ++ receivers c d (S k) rs).
      rewrite historyOf_app, (IH (S k) i Hi).
      unfold historyOf at 1. rewrite filter_cons_False by (simpl; lia). done.
    + change ((k, c) :: receivers c d (S k) rs)
        with ([(k, c)] ++ receivers c d (S k) rs).
      rewrite historyOf_app, (IH (S k) i Hi).
      unfold historyOf at 1. rewrite filter_cons_False by (simpl; lia). done.
Qed.

(** The unwrapped loop stops at the first callback that throws. *)
Lemma forEachPlain_throws c k (rs1 : list Reporter) (r : Reporter) rs2 st d l e :
  delivered st = d ++ l → (∀ x, x ∈ l → x.1 < k) →
  (∀ r', r' ∈ rs1 → ∀ h e', r' h c ≠ Raises e') →
  r (historyOf (k + length rs1) d) c = Raises e →
  ∃ st',
    forEachPlain c k (rs1 ++ r :: rs2) st = (st', Throws e) ∧
    delivered st' = delivered st ++ receivers c d k rs1 ++ [(k + length rs1, c)] ∧
    console st' = console st ∧
    _deferredErrors st' = _deferredErrors st ∧
    _deferredStdIO st' = _deferredStdIO st ∧
    called st' = called st.
Proof.
  revert k st l. induction rs1 as [|r1 rs1 IH]; intros k st l Hd Hl Hall Hr; simpl.
  - assert (historyOf k (delivered st) = historyOf k d) as Hh.
    { rewrite Hd, historyOf_app, (historyOf_other k l), app_nil_r; [done|].
      intros x Hx. apply Hl in Hx. lia. }
    unfold invoke. rewrite Hh. simpl in Hr. rewrite Nat.add_0_r in Hr. rewrite Hr.
    eexists. split; [done|]. simpl. by rewrite Nat.add_0_r.
  - assert (historyOf k (delivered st) = historyOf k d) as Hh.
    { rewrite Hd, historyOf_app, (historyOf_other k l), app_nil_r; [done|].
      intros x Hx. apply Hl in Hx. lia. }
    unfold invoke. rewrite Hh. simpl in Hr.
    replace (k + S (length rs1)) with (S k + length rs1) in * by lia.
    assert (∀ r', r' ∈ rs1 → ∀ h e', r' h c ≠ Raises e') as Hall'
      by (intros r' Hr'; apply Hall; by right).
    destruct (r1 (historyOf k d) c) as [| |e1] eqn:Hr1.
    + destruct (IH (S k) st l Hd) as (st' & H1 & H2 & H3); [|done..|].
      { intros x Hx. apply Hl in Hx. lia. }
      exists st'. split; [done|]. by rewrite H2.
    + destruct (IH (S k)
                  (mkMuxState (_deferredErrors st) (_deferredStdIO st) (called st)
                              (delivered st ++ [(k, c)]) (console st))
                  (l ++ [(k, c)])) as (st' & H1 & H2 & H3); [| |done..|].
      { simpl. by rewrite Hd, <- app_assoc. }
      { intros x Hx. apply elem_of_app in Hx as [Hx|Hx]; [apply Hl in Hx; lia|].
        apply list_elem_of_singleton in Hx as ->. simpl. lia. }
      exists st'. split; [done|]. simpl in *. rewrite H2, <- !app_assoc. done.
    + destruct (Hall r1 ltac:(by left) _ _ Hr1).
Qed.

Lemma reporters_split i r :
  reporters !! i = Some r →
  reporters = take i reporters ++ r :: drop (S i) reporters ∧
  length (take i reporters) = i.
Proof.
  intros Hi. split; [by rewrite take_drop_middle|].
  rewrite length_take. apply lookup_lt_Some in Hi. lia.
Qed.

Lemma forEachPlain_throws_at c i (r : Reporter) st e :
  reporters !! i = Some r →
  (∀ j r', j < i → reporters !! j = Some r' → ∀ h e', r' h c ≠ Raises e') →
  r (historyOf i (delivered st)) c = Raises e →
  ∃ st',
    forEachPlain c 0 reporters st = (st', Throws e) ∧
    delivered st' =
      delivered st ++ receivers c (delivered st) 0 (take i reporters) ++ [(i, c)] ∧
    console st' = console st ∧
    _deferredErrors st' = _deferredErrors st ∧
    _deferredStdIO st' = _deferredStdIO st ∧
    called st' = called st.
Proof.
  intros Hi Hbefore Hr. destruct (reporters_split i r Hi) as [Hsplit Hlen].
  destruct (forEachPlain_throws c 0 (take i reporters) r (drop (S i) reporters)
              st (delivered st) [] e) as (st' & H1 & H2 & H3).
  - by rewrite app_nil_r.
  - intros x Hx. by apply elem_of_nil in Hx.
  - intros r' Hr' h e'. apply list_elem_of_lookup in Hr' as [j Hj].
    apply lookup_take_Some in Hj as [Hj Hlt]. by apply (Hbefore j r').
  - by rewrite Hlen.
  - rewrite <- Hsplit in H1. exists st'. split; [done|]. by rewrite Hlen in H2.
Qed.

(** X12. [onStepEnd] does not wrap the callbacks: when the callback of a
    reporter throws, the exception leaves [onStepEnd], nothing is written
    to the console, and no reporter after it is notified. *)
Theorem onStepEnd_exception_propagates test step i (r : Reporter) st e :
  reporters !! i = Some r →
  (∀ j r', j < i → reporters !! j = Some r' →
           ∀ h e', r' h (COnStepEnd test step) ≠ Raises e') →
  r (historyOf i (delivered st)) (COnStepEnd test step) = Raises e →
  (onStepEnd reporters test step st).2 = Throws e ∧
  console (onStepEnd reporters test step st).1 = console st ∧
  ∀ j, i < j →
       (j, COnStepEnd test step) ∈ delivered (onStepEnd reporters test step st).1 →
       (j, COnStepEnd test step) ∈ delivered st.
Proof.
  intros Hi Hbefore Hr. unfold onStepEnd.
  destruct (forEachPlain_throws_at (COnStepEnd test step) i r
              (logCall (COnStepEnd test step) st) e Hi Hbefore Hr)
    as (st' & -> & Hd & Hc & _).
  simpl in *. split; [done|]. split; [done|]. intros j Hj Hin.
  rewrite Hd, !elem_of_app in Hin. destruct Hin as [Hin|[Hin|Hin]]; [done| |].
  - apply receivers_inv in Hin as (i' & r' & Heq & Hi' & _).
    apply lookup_take_Some in Hi' as [_ Hlt]. injection Heq as ->. lia.
  - apply list_elem_of_singleton in Hin. injection Hin as ->. lia.
Qed.

(** X13. When the [onBegin] callback of a reporter throws, the exception
    leaves [onBegin] and the errors put aside stay put aside.  If the
    callback throws whenever it is called, [onExit] calls [onBegin] again
    and fails in the same way: no reporter is handed anything but
    [onBegin], neither the errors nor [onEnd] nor [onExit]. *)
Theorem onBegin_exception_propagates suite i (r : Reporter) st e errors :
  _deferredErrors st = Some errors →
  reporters !! i = Some r →
  (∀ j r', j < i → reporters !! j = Some r' →
           ∀ h s e', r' h (COnBegin s) ≠ Raises e') →
  (∀ h s, r h (COnBegin s) = Raises e) →
  ∃ st1 st2,
    onBegin reporters suite st = (st1, Throws e) ∧
    _deferredErrors st1 = Some errors ∧
    onExit reporters st1 = (st2, Throws e) ∧
    ∀ x, x ∈ delivered st2 → x ∈ delivered st ∨ isBegin x.2 = true.
Proof.
  intros Herr Hi Hbefore Hr. unfold onExit, onBegin.
  destruct (forEachPlain_throws_at (COnBegin suite) i r
              (logCall (COnBegin suite) st) e Hi) as (st1 & -> & Hd1 & _ & He1 & _).
  { intros j r' Hj Hr' h e'. by apply (Hbefore j r'). }
  { apply Hr. }
  exists st1. simpl in He1, Hd1. rewrite He1, Herr. simpl. rewrite He1, Herr.
  destruct (forEachPlain_throws_at (COnBegin (mkRootSuite [])) i r
              (logCall (COnBegin (mkRootSuite [])) (logCall COnExit st1)) e Hi)
    as (st2 & -> & Hd2 & _).
  { intros j r' Hj Hr' h e'. by apply (Hbefore j r'). }
  { apply Hr. }
  exists st2. split; [done|]. split; [done|]. split; [done|].
  intros x Hx. simpl in Hd2. rewrite Hd2, Hd1, !elem_of_app in Hx.
  pose proof (receivers_calls (COnBegin suite) (delivered st) 0 (take i reporters))
    as Hc1.
  pose proof (receivers_calls (COnBegin (mkRootSuite []))
                (delivered st ++
                 receivers (COnBegin suite) (delivered st) 0 (take i reporters) ++
                 [(i, COnBegin suite)]) 0 (take i reporters)) as Hc2.
  rewrite Forall_forall in Hc1, Hc2.
  destruct Hx as [[Hx|[Hx|Hx]]|[Hx|Hx]]; [by left|right..].
  - by rewrite (Hc1 x Hx).
  - by apply list_elem_of_singleton in Hx as ->.
  - by rewrite (Hc2 x Hx).
  - by apply list_elem_of_singleton in Hx as ->.
Qed.

(** X14. [onBegin] can be called once: a second call hands [onBegin] to
    the reporters again and then throws, the list of deferred errors
    being [null]. *)
Theorem onBegin_twice suite st :
  _deferredErrors st = None → beginNeverThrows reporters →
  ∃ st' e,
    onBegin reporters suite st = (st', Throws e) ∧
    delivered st' =
      delivered st ++ receivers (COnBegin suite) (delivered st) 0 reporters.
Proof.
  intros Hnone Hbegin. unfold onBegin.
  destruct (forEachPlain_spec (COnBegin suite) 0 reporters
              (logCall (COnBegin suite) st) (delivered st) [])
    as (m & Hd & _ & _ & He & _ & _ & Hret).
  { simpl. by rewrite app_nil_r. }
  { intros x Hx. by apply elem_of_nil in Hx. }
  destruct Hret as [Hret ->]; [intros r Hr h e; by apply (Hbegin r Hr)|].
  destruct (forEachPlain (COnBegin suite) 0 reporters (logCall (COnBegin suite) st))
    as [st1 res]. simpl in *. subst res. rewrite He, Hnone.
  eexists _, _. split; [done|]. done.
Qed.

(** X15. From a state in which [onBegin] was reported, [onExit] does not
    throw, whatever the callbacks do: every reporter that has [onEnd] is
    handed it, every reporter that has [onExit] is handed it, and all the
    [onEnd] calls come before the first [onExit] call. *)
Theorem onExit_after_begin st :
  _deferredErrors st = None →
  ∃ st' ends exits,
    onExit reporters st = (st', Returns tt) ∧
    delivered st' = delivered st ++ ends ++ exits ∧
    Forall (λ x, x.2 = COnEnd) ends ∧ Forall (λ x, x.2 = COnExit) exits ∧
    ∀ i r, reporters !! i = Some r →
      ((∀ h, r h COnEnd ≠ Absent) → (i, COnEnd) ∈ ends) ∧
      ((∀ h, r h COnExit ≠ Absent) → (i, COnExit) ∈ exits).
Proof.
  intros Hnone. unfold onExit. simpl. rewrite Hnone.
  destruct (exit_deliveries reporters (logCall COnExit st)) as [Hd _]. simpl in Hd.
  eexists _, _, _. split; [done|]. split; [exact Hd|].
  split; [apply receivers_calls|]. split; [apply receivers_calls|].
  intros i r Hi. split; intros Hr.
  - apply (elem_of_receivers COnEnd _ reporters 0 i r Hi), Hr.
  - apply (elem_of_receivers COnExit _ reporters 0 i r Hi), Hr.
Qed.

End MultiplexerMore.

Lemma onStepEnd_exception_propagates_witness :
  (onStepEnd [quietReporter; stepEndThrower; quietReporter] "A/test" "step"
     newMultiplexer).2 = Throws "step failed" ∧
  (2, COnStepEnd "A/test" "step") ∉
    delivered (onStepEnd [quietReporter; stepEndThrower; quietReporter]
                 "A/test" "step" newMultiplexer).1.
Proof.
  destruct (onStepEnd_exception_propagates
              [quietReporter; stepEndThrower; quietReporter] "A/test" "step" 1
              stepEndThrower newMultiplexer "step failed") as (H1 & _ & H3).
  - reflexivity.
  - intros j r' Hj Hr'. destruct j as [|j]; [|lia]. by injection Hr' as <-.
  - reflexivity.
  - split; [exact H1|]. intros Hin. apply (H3 2) in Hin; [|lia].
    by apply elem_of_nil in Hin.
Defined.

Lemma onBegin_exception_propagates_witness :
  ∃ st1 st2,
    onBegin [quietReporter; beginThrower] (mkRootSuite [suiteOf "A"])
      (onError [quietReporter; beginThrower] (mkTestError "SyntaxError")
         newMultiplexer).1 = (st1, Throws "begin failed") ∧
    _deferredErrors st1 = Some [mkTestError "SyntaxError"] ∧
    onExit [quietReporter; beginThrower] st1 = (st2, Throws "begin failed") ∧
    ∀ x, x ∈ delivered st2 → x ∈ [] ∨ isBegin x.2 = true.
Proof.
  apply (onBegin_exception_propagates [quietReporter; beginThrower]
           (mkRootSuite [suiteOf "A"]) 1 beginThrower
           (onError [quietReporter; beginThrower] (mkTestError "SyntaxError")
              newMultiplexer).1 "begin failed" [mkTestError "SyntaxError"]).
  - reflexivity.
  - reflexivity.
  - intros j r' Hj Hr'. destruct j as [|j]; [|lia]. by injection Hr' as <-.
  - reflexivity.
Defined.

Lemma onBegin_twice_witness :
  ∃ st' e,
    onBegin [quietReporter] (mkRootSuite [])
      (onBegin [quietReporter] (mkRootSuite []) newMultiplexer).1 = (st', Throws e) ∧
    delivered st' = [(0, COnBegin (mkRootSuite [])); (0, COnBegin (mkRootSuite []))].
Proof.
  apply (onBegin_twice [quietReporter] (mkRootSuite [])
           (onBegin [quietReporter] (mkRootSuite []) newMultiplexer).1).
  - reflexivity.
  - intros r Hr h suite e. by apply list_elem_of_singleton in Hr as ->.
Defined.

Lemma onExit_after_begin_witness :
  ∃ st' ends exits,
    onExit [throwingReporter; (λ _ _, Raises "boom") : Reporter]
      (mkMuxState None None [] [] []) = (st', Returns tt) ∧
    delivered st' = [] ++ ends ++ exits ∧
    Forall (λ x, x.2 = COnEnd) ends ∧ Forall (λ x, x.2 = COnExit) exits ∧
    ∀ i r, [throwingReporter; (λ _ _, Raises "boom") : Reporter] !! i = Some r →
      ((∀ h, r h COnEnd ≠ Absent) → (i, COnEnd) ∈ ends) ∧
      ((∀ h, r h COnExit ≠ Absent) → (i, COnExit) ∈ exits).
Proof.
  apply (onExit_after_begin [throwingReporter; (λ _ _, Raises "boom") : Reporter]
           (mkMuxState None None [] [] [])).
  reflexivity.
Defined.

(** *** What was put aside before [onBegin] *)

Section Replay.
Variable reporters : list Reporter.
Variable i : nat.
Variable r : Reporter.
Hypothesis Hi : reporters !! i = Some r.
Hypothesis Hall : ∀ h c, r h c ≠ Absent.

Lemma history_forEachWrapped c st :
  historyOf i (delivered (forEachWrapped c 0 reporters st)) =
  historyOf i (delivered st) ++ [c].
Proof.
  destruct (forEachWrapped_all reporters c st) as (-> & _).
  rewrite historyOf_app. f_equal.
  pose proof (historyOf_receivers c (delivered st) 0 reporters i r Hi) as Hh.
  simpl in Hh. rewrite Hh.
  pose proof (Hall (historyOf i (delivered st)) c).
  by destruct (r _ c).
Qed.

Lemma replay_errors errors st :
  _deferredErrors st = None →
  let st' := foldl (λ s error, (onError reporters error s).1) st errors in
  historyOf i (delivered st') = historyOf i (delivered st) ++ map COnError errors ∧
  _deferredErrors st' = None ∧ _deferredStdIO st' = _deferredStdIO st.
Proof.
  revert st. induction errors as [|e errors IH]; intros st Hnone; simpl.
  - by rewrite app_nil_r.
  - destruct (forEachWrapped_all reporters (COnError e) (logCall (COnError e) st))
      as (_ & _ & He & Hs & _).
    assert ((onError reporters e st).1 =
            forEachWrapped (COnError e) 0 reporters (logCall (COnError e) st))
      as Hstep by (unfold onError; simpl; by rewrite Hnone).
    destruct (IH (onError reporters e st).1) as (H1 & H2 & H3).
    { rewrite Hstep, He. done. }
    rewrite H1, H2, H3, Hstep, history_forEachWrapped, Hs, <- app_assoc. done.
Qed.

Lemma replay_chunks stdios st :
  _deferredStdIO st = None →
  historyOf i (delivered (foldl (replayStdIO reporters) st stdios)) =
  historyOf i (delivered st) ++ map chunkCall stdios.
Proof.
  revert st. induction stdios as [|stdio stdios IH]; intros st Hnone; simpl.
  - by rewrite app_nil_r.
  - assert (replayStdIO reporters st stdio =
            forEachWrapped (chunkCall stdio) 0 reporters
              (logCall (chunkCall stdio) st)) as Hstep.
    { unfold replayStdIO, chunkCall, onStdOut, onStdErr.
      destruct (chunkType stdio); simpl; by rewrite Hnone. }
    destruct (forEachWrapped_all reporters (chunkCall stdio)
                (logCall (chunkCall stdio) st)) as (_ & _ & _ & Hs & _).
    rewrite IH; [|by rewrite Hstep, Hs].
    rewrite Hstep, history_forEachWrapped, <- app_assoc. done.
Qed.

Lemma play_buffers calls st errors stdios :
  _deferredErrors st = Some errors → _deferredStdIO st = Some stdios →
  Forall (λ c, isError c || isStdIO c = true) calls →
  ∃ st',
    play reporters calls st = (st', Returns tt) ∧
    _deferredErrors st' = Some (errors ++ errorsOf calls) ∧
    _deferredStdIO st' = Some (stdios ++ chunksOf calls) ∧
    delivered st' = delivered st ∧ console st' = console st.
Proof.
  intros He Hs Hcalls. revert st errors stdios He Hs.
  induction Hcalls as [|c calls Hc _ IH]; intros st errors stdios He Hs; simpl.
  - exists st. by rewrite !app_nil_r.
  - destruct c as [?|?|?|? ?|? ?|ch t|ch t|e| |]; try discriminate Hc; simpl.
    + unfold onStdOut. simpl. rewrite Hs.
      match goal with |- context [play reporters calls ?S] =>
        destruct (IH S errors (stdios ++ [mkChunk stdout ch t]) He eq_refl)
          as (st' & H1 & H2 & H3 & H4 & H5) end.
      exists st'. simpl in *. rewrite H1, H2, H3, <- app_assoc. done.
    + unfold onStdErr. simpl. rewrite Hs.
      match goal with |- context [play reporters calls ?S] =>
        destruct (IH S errors (stdios ++ [mkChunk stderr ch t]) He eq_refl)
          as (st' & H1 & H2 & H3 & H4 & H5) end.
      exists st'. simpl in *. rewrite H1, H2, H3, <- app_assoc. done.
    + unfold onError. simpl. rewrite He.
      match goal with |- context [play reporters calls ?S] =>
        destruct (IH S (errors ++ [e]) stdios eq_refl Hs)
          as (st' & H1 & H2 & H3 & H4 & H5) end.
      exists st'. simpl in *. rewrite H1, H2, H3, <- app_assoc. done.
Qed.

Lemma errorsOf_filter calls :
  map COnError (errorsOf calls) = filter (λ c, isError c = true) calls.
Proof.
  induction calls as [|c calls IH]; [done|].
  destruct c; simpl; rewrite ?filter_cons_False by done; try done.
  rewrite filter_cons_True by done. by rewrite IH.
Qed.

Lemma chunksOf_filter calls :
  map chunkCall (chunksOf calls) = filter (λ c, isStdIO c = true) calls.
Proof.
  induction calls as [|c calls IH]; [done|].
  destruct c; simpl; rewrite ?filter_cons_False by done; try done.
  - rewrite filter_cons_True by done. by rewrite IH.
  - rewrite filter_cons_True by done. by rewrite IH.
Qed.

(** X16. Errors and output sent before [onBegin] reach no reporter until
    [onBegin] is called.  A reporter that has every callback is then
    handed [onBegin], the errors in the order they came, and then the
    output in the order it came. *)
Theorem deferred_replayed_in_order calls suite :
  Forall (λ c, isError c || isStdIO c = true) calls →
  beginNeverThrows reporters →
  ∃ st1 st2,
    play reporters calls newMultiplexer = (st1, Returns tt) ∧
    delivered st1 = [] ∧
    onBegin reporters suite st1 = (st2, Returns tt) ∧
    historyOf i (delivered st2) =
      COnBegin suite :: filter (λ c, isError c = true) calls
                     ++ filter (λ c, isStdIO c = true) calls.
Proof.
  intros Hcalls Hbegin.
  destruct (play_buffers calls newMultiplexer [] [] eq_refl eq_refl Hcalls)
    as (st1 & Hplay & He & Hs & Hd & _).
  simpl in He, Hs, Hd. exists st1.
  unfold onBegin.
  destruct (forEachPlain_spec (COnBegin suite) 0 reporters
              (logCall (COnBegin suite) st1) [] [])
    as (m & Hd1 & _ & _ & He1 & Hs1 & _ & Hret).
  { simpl. by rewrite Hd. }
  { intros x Hx. by apply elem_of_nil in Hx. }
  destruct Hret as [Hret ->]; [intros r' Hr' h e; by apply (Hbegin r' Hr')|].
  destruct (forEachPlain (COnBegin suite) 0 reporters (logCall (COnBegin suite) st1))
    as [st1' res]. simpl in *. subst res. rewrite He1, He.
  set (st2 := mkMuxState None (_deferredStdIO st1') (called st1') (delivered st1')
                         (console st1')).
  destruct (replay_errors (errorsOf calls) st2 eq_refl) as (Hh3 & He3 & Hs3).
  simpl in Hh3, He3, Hs3. rewrite Hs3. simpl. rewrite Hs1, Hs.
  eexists. split; [done|]. split; [done|]. split; [done|].
  rewrite replay_chunks by done. simpl. rewrite Hh3. simpl.
  rewrite Hd1, Hd. simpl.
  pose proof (historyOf_receivers (COnBegin suite) [] 0 reporters i r Hi) as Hh.
  simpl in Hh. rewrite Hh.
  pose proof (Hall (historyOf i []) (COnBegin suite)).
  rewrite errorsOf_filter, chunksOf_filter, <- app_assoc.
  by destruct (r _ (COnBegin suite)).
Qed.

End Replay.

Lemma deferred_replayed_in_order_witness :
  ∃ st1 st2,
    play [quietReporter; throwingReporter]
      [COnStdOut "out" None; COnError (mkTestError "SyntaxError");
       COnStdErr "err" None; COnError (mkTestError "No tests found")]
      newMultiplexer = (st1, Returns tt) ∧
    delivered st1 = [] ∧
    onBegin [quietReporter; throwingReporter] (mkRootSuite []) st1
      = (st2, Returns tt) ∧
    historyOf 1 (delivered st2) =
      [COnBegin (mkRootSuite []);
       COnError (mkTestError "SyntaxError"); COnError (mkTestError "No tests found");
       COnStdOut "out" None; COnStdErr "err" None].
Proof.
  apply (deferred_replayed_in_order [quietReporter; throwingReporter] 1
           throwingReporter eq_refl ltac:(by intros h []) 
           [COnStdOut "out" None; COnError (mkTestError "SyntaxError");
            COnStdErr "err" None; COnError (mkTestError "No tests found")]
           (mkRootSuite [])).
  - repeat constructor.
  - intros r Hr h suite e.
    apply elem_of_cons in Hr as [-> |Hr]; [done|].
    by apply list_elem_of_singleton in Hr as ->.
Defined.

(** ** The loader: the suite of a file, and the cache over a list of files *)

Section LoaderMore.
Variable requireOrImport : string → list string → list LoadedTest * option string.
Variable serializeError : string → TestError.
Variable pathRelative : string → string → string.
Variable pathBasename : string → string.
Variable pathExtname : string → string.

#[local] Abbreviation loadOne :=
  (loadTestFile requireOrImport serializeError pathRelative pathBasename pathExtname).
#[local] Abbreviation loadList :=
  (loadFiles requireOrImport serializeError pathRelative pathBasename pathExtname).

Lemma remove_dups_singleton (l : list string) g :
  remove_dups l = [g] ↔ l ≠ [] ∧ ∀ x, x ∈ l → x = g.
Proof.
  split.
  - intros Heq. split.
    + intros ->. done.
    + intros x Hx. apply elem_of_remove_dups in Hx. rewrite Heq in Hx.
      by apply list_elem_of_singleton in Hx.
  - intros [Hne Hall]. induction l as [|x l IH]; [done|]. simpl.
    assert (x = g) as -> by (apply Hall; by left).
    destruct l as [|y l].
    + done.
    + case_decide as Hin.
      * apply IH; [done|]. intros z Hz. apply Hall. by right.
      * destruct Hin.
        assert (y = g) as -> by (apply Hall; right; by left). by left.
Qed.

Lemma fixLocation_spec suite :
  title (fixLocation pathExtname suite) = title suite ∧
  _requireFile (fixLocation pathExtname suite) = _requireFile suite ∧
  fileTests (fixLocation pathExtname suite) = fileTests suite ∧
  (locationFile (fixLocation pathExtname suite) = locationFile suite ∨
   (pathExtname (locationFile (fixLocation pathExtname suite))
      ≠ pathExtname (locationFile suite) ∧
    fileTests suite ≠ [] ∧
    ∀ t, t ∈ fileTests suite →
         testFile t = locationFile (fixLocation pathExtname suite))) ∧
  (∀ g, fileTests suite ≠ [] →
        (∀ t, t ∈ fileTests suite → testFile t = g) →
        pathExtname g ≠ pathExtname (locationFile suite) →
        locationFile (fixLocation pathExtname suite) = g).
Proof.
  unfold fixLocation.
  destruct (remove_dups (map testFile (fileTests suite))) as [|f [|f' l]] eqn:Hd.
  - do 4 (split; [auto|]). intros g Hne Hall Hext. exfalso.
    assert (testFile <$> fileTests suite = []) as Hnil.
    { apply (elem_of_nil_inv (testFile <$> fileTests suite)). intros x Hx.
      apply elem_of_remove_dups in Hx.
      change (map testFile (fileTests suite)) with (testFile <$> fileTests suite) in Hd.
      rewrite Hd in Hx. by apply elem_of_nil in Hx. }
    apply fmap_nil_inv in Hnil. done.
  - apply remove_dups_singleton in Hd as [Hne Hall].
    assert (fileTests suite ≠ []) as Hne' by (by destruct (fileTests suite)).
    assert (∀ t, t ∈ fileTests suite → testFile t = f) as Hall'.
    { intros t Ht. apply Hall. by apply list_elem_of_fmap_2. }
    assert (∀ g, (∀ t, t ∈ fileTests suite → testFile t = g) → g = f) as Hgf.
    { intros g Hg. destruct (fileTests suite) as [|t ts]; [done|].
      rewrite <- (Hg t ltac:(by left)). apply Hall'. by left. }
    destruct (decide (locationFile suite = f)) as [Heq|Hneq].
    + do 4 (split; [auto|]). intros g _ Hg Hext. by rewrite (Hgf g Hg).
    + destruct (decide (pathExtname f = pathExtname (locationFile suite)))
        as [Hext|Hext]; simpl.
      * do 4 (split; [auto|]). intros g _ Hg Hext'. by rewrite (Hgf g Hg) in Hext'.
      * do 3 (split; [done|]). split; [right; auto|].
        intros g _ Hg _. by rewrite (Hgf g Hg).
  - do 4 (split; [auto|]). intros g Hne Hall Hext. exfalso.
    assert (remove_dups (map testFile (fileTests suite)) = [g]) as Hone.
    { apply remove_dups_singleton. split; [by destruct (fileTests suite)|].
      intros x Hx. apply list_elem_of_fmap in Hx as (t & -> & Ht). by apply Hall. }
    congruence.
Qed.

(** X17. The suite a call makes for a file that was not cached: its title
    and [_requireFile] are those of the file, and its tests are the ones
    the file declared.  Its location is the file, unless all its tests
    point to one file with another extension, in which case, and only
    then, the location is that file. *)
Theorem loaded_suite_location rootDir file environment loadErrors st
    st' loadErrors' ref :
  cachedFileSuites st !! file = None →
  loadTestFile requireOrImport serializeError pathRelative pathBasename
    pathExtname rootDir file environment loadErrors st
    = (st', loadErrors', Returns ref) →
  ∃ suite,
    suiteHeap st' !! ref = Some suite ∧
    title suite = suiteTitle pathRelative pathBasename rootDir file ∧
    _requireFile suite = file ∧
    fileTests suite = (requireOrImport file (required st)).1 ∧
    (locationFile suite = file ∨
     (pathExtname (locationFile suite) ≠ pathExtname file ∧
      fileTests suite ≠ [] ∧
      ∀ t, t ∈ fileTests suite → testFile t = locationFile suite)) ∧
    (∀ g, fileTests suite ≠ [] →
          (∀ t, t ∈ fileTests suite → testFile t = g) →
          pathExtname g ≠ pathExtname file →
          locationFile suite = g).
Proof.
  intros Hc Hload. unfold loadTestFile in Hload. rewrite Hc in Hload.
  destruct (requireOrImport file (required st)) as [declared thrown] eqn:Hreq.
  set (suite := mkFileSuite (suiteTitle pathRelative pathBasename rootDir file)
                            file file declared) in *.
  assert (∃ heap, suiteHeap st' = heap ++ [fixLocation pathExtname suite] ∧
                  ref = length heap) as (heap & Hheap & ->).
  { destruct thrown as [e|]; [destruct environment; [|done]|];
      injection Hload as <- _ <-; simpl; eauto. }
  exists (fixLocation pathExtname suite).
  rewrite Hheap. split; [by apply list_lookup_middle|].
  destruct (fixLocation_spec suite) as (H1 & H2 & H3 & H4 & H5).
  rewrite H1, H2, H3. simpl in *. do 3 (split; [done|]). split; [done|].
  intros g Hne Hall Hext. by apply H5.
Qed.

(** The list loop when [file] is cached from the start. *)
Lemma loadFiles_cached rootDir testFiles children loadErrors st file ref :
  cachedFileSuites st !! file = Some ref →
  ∃ st' loadErrors' added newRequired,
    loadList rootDir testFiles children loadErrors st =
      (st', loadErrors', Returns (children ++ added)) ∧
    required st' = required st ++ newRequired ∧ (file ∉ newRequired) ∧
    cachedFileSuites st' !! file = Some ref ∧
    suiteHeap st `prefix_of` suiteHeap st' ∧
    ∀ k, testFiles !! k = Some file → added !! k = Some ref.
Proof.
  revert children loadErrors st.
  induction testFiles as [|f rest IH]; intros children loadErrors st Hc; simpl.
  - exists st, loadErrors, [], []. rewrite !app_nil_r.
    do 2 (split; [done|]). split; [apply not_elem_of_nil|]. by do 2 (split; [done|]).
  - unfold loadTestFile.
    destruct (cachedFileSuites st !! f) as [cached|] eqn:Hf.
    + destruct (IH (children ++ [cached]) loadErrors st Hc)
        as (st' & errs' & added & newReq & Hrun & Hreq & Hnin & Hc' & Hheap & Hk).
      exists st', errs', (cached :: added), newReq.
      rewrite Hrun, <- app_assoc. do 5 (split; [done|]).
      intros [|k] Hlook; simpl in *; [|by apply Hk].
      injection Hlook as ->. congruence.
    + assert (f ≠ file) as Hne by congruence.
      destruct (requireOrImport f (required st)) as [declared [e|]].
      * match goal with |- context [loadList rootDir rest ?C ?E ?S] =>
          destruct (IH C E S) as
            (st' & errs' & added & newReq & Hrun & Hreq & Hnin & Hc' & Hheap & Hk)
        end; [done|].
        simpl in Hreq, Hheap.
        exists st', errs', (length (suiteHeap st) :: added), (f :: newReq).
        rewrite Hrun, <- !app_assoc. split; [done|].
        split; [by rewrite Hreq, <- app_assoc|].
        split; [by apply not_elem_of_cons|]. split; [done|]. split.
        { etrans; [|exact Hheap]. by apply prefix_app_r. }
        intros [|k] Hlook; simpl in *; [congruence|by apply Hk].
      * match goal with |- context [loadList rootDir rest ?C ?E ?S] =>
          destruct (IH C E S) as
            (st' & errs' & added & newReq & Hrun & Hreq & Hnin & Hc' & Hheap & Hk)
        end; [simpl; by rewrite lookup_insert_ne|].
        simpl in Hreq, Hheap.
        exists st', errs', (length (suiteHeap st) :: added), (f :: newReq).
        rewrite Hrun, <- !app_assoc. split; [done|].
        split; [by rewrite Hreq, <- app_assoc|].
        split; [by apply not_elem_of_cons|]. split; [done|]. split.
        { etrans; [|exact Hheap]. by apply prefix_app_r. }
        intros [|k] Hlook; simpl in *; [congruence|by apply Hk].
Qed.


End LoaderMore.

Lemma loaded_suite_location_witness :
  ∃ suite,
    suiteHeap (loadTestFile mappedRequire mkTestError plainRelative plainBasename
                 mappedExtname "" "a.spec.js" loader [] emptyLoader).1.1 !! 0
      = Some suite ∧
    title suite = "a.spec.js" ∧ _requireFile suite = "a.spec.js" ∧
    locationFile suite = "a.spec.ts".
Proof.
  destruct (loaded_suite_location mappedRequire mkTestError plainRelative
              plainBasename mappedExtname "" "a.spec.js" loader [] emptyLoader
              (loadTestFile mappedRequire mkTestError plainRelative plainBasename
                 mappedExtname "" "a.spec.js" loader [] emptyLoader).1.1
              [] 0 eq_refl eq_refl)
    as (suite & Hheap & Htitle & Hfile & Htests & _ & Hmoved).
  exists suite. do 3 (split; [done|]).
  apply Hmoved.
  - by rewrite Htests.
  - rewrite Htests. intros t Ht. by apply list_elem_of_singleton in Ht as ->.
  - done.
Defined.


(** ** The concurrency bound *)

Section ConcurrencyFacts.
Variable _deps : ProjectRef → list ProjectRef.

Lemma testGroupsInPhase_sum projs a :
  foldl (λ acc project, acc + length (testGroups project)) a projs =
  a + length (flat_map testGroups projs).
Proof.
  revert a. induction projs as [|pw projs IH]; intros a; simpl; [lia|].
  rewrite IH, length_app. lia.
Qed.

Lemma length_eligibleGroups successful projs :
  length (eligibleGroups _deps successful projs) ≤ testGroupsInPhase projs.
Proof.
  unfold testGroupsInPhase. rewrite testGroupsInPhase_sum. simpl.
  unfold eligibleGroups. induction projs as [|pw projs IH]; simpl; [done|].
  rewrite !length_app. destruct (hasFailedDeps _ _ _); simpl; lia.
Qed.

Lemma foldl_max_ge {B} (f : B → nat) l init :
  init ≤ foldl (λ m x, Nat.max m (f x)) init l ∧
  ∀ x, x ∈ l → f x ≤ foldl (λ m x, Nat.max m (f x)) init l.
Proof.
  revert init. induction l as [|y l IH]; intros init; simpl.
  - split; [done|]. intros x Hx. by apply elem_of_nil in Hx.
  - destruct (IH (Nat.max init (f y))) as [H1 H2]. split; [lia|].
    intros x Hx. apply elem_of_cons in Hx as [-> |Hx]; [lia|by apply H2].
Qed.

(** X11. [createTestGroupsTask] never lowers
    [config._maxConcurrentTestGroups], and in the run that follows
    [dispatcher.run] is never handed more test groups than that value. *)
Theorem run_within_concurrency_bound ok createTestGroups newDispatcher
    workers suites results0 initial :
  initial ≤ maxConcurrentTestGroups _deps createTestGroups workers suites initial ∧
  ∀ k gs,
    ERun k gs ∈
      trace (runTests _deps ok createTestGroups newDispatcher workers suites results0) →
    length gs ≤ maxConcurrentTestGroups _deps createTestGroups workers suites initial.
Proof.
  unfold maxConcurrentTestGroups.
  destruct (foldl_max_ge
              (λ phase, testGroupsInPhase
                          (projectsWithTestGroups createTestGroups workers phase))
              (buildPhases _deps suites) initial) as [Hinit Hall].
  split; [done|]. intros k gs He. unfold runTests in He.
  apply trace_elem in He as (k0 & phase & Hk0 & He).
  apply phaseEvents_inv in He
    as [(pw' & t' & _ & _ & _ & Heq)|[(pw' & _ & _ & Heq)|[[_ [Heq|Heq]]|
        [(b & Heq & _)|(p' & Heq & _)]]]];
    try discriminate Heq.
  injection Heq as -> ->.
  unfold createTestGroupsTask in Hk0. rewrite list_lookup_imap in Hk0.
  destruct (buildPhases _deps suites !! k0) as [ph|] eqn:Hph; [|done].
  simpl in Hk0. injection Hk0 as <-. simpl.
  etrans; [apply length_eligibleGroups|].
  apply Hall. by eapply list_elem_of_lookup_2.
Qed.

End ConcurrencyFacts.

(** ** The build cache of the component plugin *)

Section BuildCacheFacts.
Import Vite.
Variable stat : string → completion Timestamp.
Variable parseTestFile : string → completion (list ComponentInfo).

#[local] Abbreviation keys := (map (fst : string * ComponentInfo → string)).
#[local] Abbreviation names := (map fullName).

Lemma keys_registrySet key value registry x :
  x ∈ keys (registrySet key value registry) ↔ x = key ∨ x ∈ keys registry.
Proof.
  induction registry as [|[k v] rest IH]; simpl.
  - rewrite list_elem_of_singleton. split; [by left|]. intros [?|H]; [done|].
    by apply elem_of_nil in H.
  - destruct (decide (k = key)) as [-> |Hne]; simpl.
    + rewrite !elem_of_cons. tauto.
    + rewrite !elem_of_cons, IH. tauto.
Qed.

Lemma Keyed_registrySet component registry :
  Keyed registry → Keyed (registrySet (fullName component) component registry).
Proof.
  intros HK. induction registry as [|[k v] rest IH]; simpl.
  - intros key value Hin. apply list_elem_of_singleton in Hin. by injection Hin as -> ->.
  - assert (Keyed rest) as HK' by (intros key value Hin; apply HK; by right).
    destruct (decide (k = fullName component)) as [-> |Hne].
    + intros key value Hin. apply elem_of_cons in Hin as [Hin|Hin].
      * by injection Hin as -> ->.
      * by apply HK'.
    + intros key value Hin. apply elem_of_cons in Hin as [Hin|Hin].
      * injection Hin as -> ->. apply HK. by left.
      * by apply (IH HK').
Qed.

Lemma registryGet_key key registry :
  key ∈ keys registry →
  ∃ value, registryGet key registry = Some value ∧ (key, value) ∈ registry.
Proof.
  induction registry as [|[k v] rest IH]; simpl; intros Hin.
  - by apply elem_of_nil in Hin.
  - destruct (decide (k = key)) as [-> |Hne].
    + exists v. split; [done|by left].
    + apply elem_of_cons in Hin as [?|Hin]; [done|].
      destruct (IH Hin) as (value & Hget & Hval). exists value.
      split; [done|by right].
Qed.

Lemma fold_registrySet parsed registry :
  Keyed registry →
  let registry' :=
    foldl (λ registry component, registrySet (fullName component) component registry)
          registry parsed in
  Keyed registry' ∧
  ∀ x, x ∈ keys registry' ↔ x ∈ keys registry ∨ x ∈ names parsed.
Proof.
  revert registry. induction parsed as [|c parsed IH]; intros registry HK; simpl.
  - split; [done|]. intros x. split; [by left|]. intros [?|H]; [done|].
    by apply elem_of_nil in H.
  - destruct (IH (registrySet (fullName c) c registry)) as [HK' Hkeys].
    { by apply Keyed_registrySet. }
    split; [done|]. intros x. rewrite Hkeys, keys_registrySet, elem_of_cons. tauto.
Qed.

Lemma find_fullName name (l : list ComponentInfo) :
  match find (λ c, bool_decide (fullName c = name)) l with
  | Some c => fullName c = name ∧ c ∈ l
  | None => name ∉ names l
  end.
Proof.
  induction l as [|c l IH]; simpl; [apply not_elem_of_nil|].
  destruct (bool_decide (fullName c = name)) eqn:Hc.
  - apply bool_decide_eq_true in Hc. split; [done|by left].
  - apply bool_decide_eq_false in Hc.
    destruct (find _ l) as [c'|].
    + destruct IH as [? ?]. split; [done|by right].
    + apply not_elem_of_cons. done.
Qed.

Lemma populateRegistry_returns componentNames buildInfo registry registry' :
  populateRegistry componentNames buildInfo registry = (registry', Returns tt) →
  Keyed registry →
  Keyed registry' ∧
  (∀ x, x ∈ keys registry' ↔ x ∈ keys registry ∨ x ∈ componentNames) ∧
  ∀ n, n ∈ componentNames → n ∈ names (components buildInfo).
Proof.
  revert registry. induction componentNames as [|n rest IH]; intros registry Hrun HK;
    simpl in Hrun.
  - injection Hrun as <-. split; [done|]. split.
    + intros x. split; [by left|]. intros [?|H]; [done|]. by apply elem_of_nil in H.
    + intros n Hn. by apply elem_of_nil in Hn.
  - pose proof (find_fullName n (components buildInfo)) as Hfind.
    destruct (find _ (components buildInfo)) as [c|]; [|done].
    destruct Hfind as [Hname Hc].
    destruct (IH _ Hrun (Keyed_registrySet c registry HK)) as (HK' & Hkeys & Hall).
    split; [done|]. split.
    + intros x. rewrite Hkeys, keys_registrySet, elem_of_cons, Hname. tauto.
    + intros m Hm. apply elem_of_cons in Hm as [-> |Hm]; [|by apply Hall].
      rewrite <- Hname. by apply list_elem_of_fmap_2.
Qed.

Lemma populateRegistry_known componentNames buildInfo registry :
  (∀ n, n ∈ componentNames → n ∈ names (components buildInfo)) →
  (∀ k, k ∈ keys registry → k ∈ names (components buildInfo)) →
  ∃ registry',
    populateRegistry componentNames buildInfo registry = (registry', Returns tt) ∧
    ∀ k, k ∈ keys registry' → k ∈ names (components buildInfo).
Proof.
  revert registry. induction componentNames as [|n rest IH]; intros registry Hall Hk;
    simpl.
  - by exists registry.
  - pose proof (find_fullName n (components buildInfo)) as Hfind.
    destruct (find _ (components buildInfo)) as [c|].
    + destruct Hfind as [Hname Hc]. apply IH.
      * intros m Hm. apply Hall. by right.
      * intros k Hin. apply keys_registrySet in Hin as [-> |Hin]; [|by apply Hk].
        by apply list_elem_of_fmap_2.
    + destruct Hfind. apply Hall. by left.
Qed.

(** The test file is on record with its present time stamp, and the
    components it names are in the registry. *)
#[local] Abbreviation recorded := (λ (buildInfo : BuildInfo) (known : list string) file,
  ∃ info, tests buildInfo !! file = Some info ∧
          stat file = Returns (timestamp info) ∧
          ∀ n, n ∈ testComponents info → n ∈ known).

Lemma NoDup_setAdd file testFiles : NoDup testFiles → NoDup (setAdd file testFiles).
Proof.
  intros Hnd. unfold setAdd. destruct (decide (file ∈ testFiles)); [done|].
  apply NoDup_app. split; [done|]. split; [|apply NoDup_singleton].
  intros x Hx Hin. apply list_elem_of_singleton in Hin as ->. done.
Qed.

Lemma NoDup_testFilesOf projectSuites : NoDup (testFilesOf projectSuites).
Proof.
  unfold testFilesOf.
  assert (∀ l acc, NoDup acc →
            NoDup (foldl (λ testFiles file, setAdd file testFiles) acc l)) as Hinner.
  { induction l as [|f l IH]; intros acc Hacc; simpl; [done|].
    by apply IH, NoDup_setAdd. }
  assert (∀ acc, NoDup acc →
            NoDup (foldl (λ testFiles project,
                            foldl (λ testFiles file, setAdd file testFiles)
                                  testFiles project) acc projectSuites)) as Houter.
  { induction projectSuites as [|pr l IH]; intros acc Hacc; simpl; [done|].
    by apply IH, Hinner. }
  apply Houter, NoDup_nil_2.
Qed.

(** A pass of the second loop of [checkNewTests] that returns. *)
Lemma checkNewTestsLoop_returns testFiles buildInfo registry hasNewTests
    buildInfo1 registry1 answer :
  checkNewTestsLoop stat parseTestFile testFiles buildInfo registry hasNewTests
    = (buildInfo1, registry1, Returns answer) →
  NoDup testFiles → Keyed registry →
  Keyed registry1 ∧
  components buildInfo1 = components buildInfo ∧
  (∀ x, x ∈ keys registry → x ∈ keys registry1) ∧
  (∀ f, f ∈ testFiles → recorded buildInfo1 (keys registry1) f) ∧
  (∀ f, f ∉ testFiles → tests buildInfo1 !! f = tests buildInfo !! f) ∧
  (hasNewTests = true → answer = true) ∧
  (answer = false → buildInfo1 = buildInfo).
Proof.
  revert buildInfo registry hasNewTests.
  induction testFiles as [|file rest IH]; intros buildInfo registry hasNewTests
    Hrun Hnd HK; simpl in Hrun.
  - injection Hrun as <- <- <-. do 3 (split; [done|]). split.
    + intros f Hf. by apply elem_of_nil in Hf.
    + done.
  - apply NoDup_cons in Hnd as [Hnin Hnd].
    destruct (stat file) as [stamp|e] eqn:Hstat; [|done].
    destruct (decide (timestamp <$> tests buildInfo !! file ≠ Some stamp)) as [Hch|Hsame].
    + destruct (parseTestFile file) as [parsed|e]; [|done].
      destruct (fold_registrySet parsed registry HK) as [HK' Hkeys].
      destruct (IH _ _ _ Hrun Hnd HK') as (HK1 & Hc & Hsub & Hrec & Hout & Hflag & _).
      simpl in Hc, Hout. split; [done|]. split; [done|]. split.
      { intros x Hx. apply Hsub, Hkeys. by left. }
      split; [|split; [|split]].
      * intros f Hf. apply elem_of_cons in Hf as [-> |Hf]; [|by apply Hrec].
        exists (mkTestFileInfo stamp (names parsed)).
        rewrite (Hout file Hnin), lookup_insert_eq. simpl.
        split; [done|]. split; [done|]. intros n Hn. apply Hsub, Hkeys. by right.
      * intros f Hf. apply not_elem_of_cons in Hf as [Hne Hf].
        rewrite (Hout f Hf). by apply lookup_insert_ne.
      * intros _. by apply Hflag.
      * intros Hfalse. rewrite Hflag in Hfalse; done.
    + apply dec_stable in Hsame.
      destruct (tests buildInfo !! file) as [info|] eqn:Hinfo; [|done].
      simpl in Hsame. injection Hsame as Hstamp.
      destruct (populateRegistry (testComponents info) buildInfo registry)
        as [registry' [[]|e]] eqn:Hpop; [|done].
      destruct (populateRegistry_returns _ _ _ _ Hpop HK) as (HK' & Hkeys & _).
      destruct (IH _ _ _ Hrun Hnd HK') as (HK1 & Hc & Hsub & Hrec & Hout & Hflag & Heq).
      split; [done|]. split; [done|]. split.
      { intros x Hx. apply Hsub, Hkeys. by left. }
      split; [|split; [|done]].
      * intros f Hf. apply elem_of_cons in Hf as [-> |Hf]; [|by apply Hrec].
        exists info. rewrite (Hout file Hnin). split; [done|].
        split; [by rewrite Hstamp|]. intros n Hn. apply Hsub, Hkeys. by right.
      * intros f Hf. apply not_elem_of_cons in Hf as [Hne Hf]. by apply Hout.
Qed.

(** A pass over test files that are all on record with their present time
    stamp and components that the build info holds. *)
Lemma checkNewTestsLoop_up_to_date testFiles buildInfo registry hasNewTests :
  (∀ f, f ∈ testFiles → recorded buildInfo (names (components buildInfo)) f) →
  (∀ k, k ∈ keys registry → k ∈ names (components buildInfo)) →
  ∃ registry',
    checkNewTestsLoop stat parseTestFile testFiles buildInfo registry hasNewTests
      = (buildInfo, registry', Returns hasNewTests) ∧
    ∀ k, k ∈ keys registry' → k ∈ names (components buildInfo).
Proof.
  revert registry. induction testFiles as [|file rest IH]; intros registry Hrec Hk;
    simpl.
  - by exists registry.
  - destruct (Hrec file ltac:(by left)) as (info & Hinfo & Hstat & Hnames).
    rewrite Hstat, Hinfo. simpl. rewrite decide_False by (by intros []).
    destruct (populateRegistry_known (testComponents info) buildInfo registry Hnames Hk)
      as (registry' & -> & Hk').
    apply IH; [|done]. intros f Hf. apply Hrec. by right.
Qed.

Lemma checkNewComponents_spec buildInfo registry :
  Keyed registry →
  tests (checkNewComponents buildInfo registry).1 = tests buildInfo ∧
  (∀ k, k ∈ keys registry →
        k ∈ names (components (checkNewComponents buildInfo registry).1)) ∧
  ((checkNewComponents buildInfo registry).2 = false →
   (checkNewComponents buildInfo registry).1 = buildInfo).
Proof.
  intros HK. unfold checkNewComponents.
  destruct (existsb _ (keys registry)) eqn:Hex; simpl.
  - split; [done|]. split; [|done]. intros k Hin.
    destruct (registryGet_key k registry Hin) as (value & Hget & Hval).
    rewrite <- (HK k value Hval). apply list_elem_of_fmap_2.
    apply list_elem_of_omap. exists k. done.
  - split; [done|]. split; [|done]. intros k Hin.
    destruct (decide (k ∈ names (components buildInfo))) as [|Hn]; [done|].
    assert (existsb (λ c, negb (bool_decide (c ∈ names (components buildInfo))))
                    (keys registry) = true) as Habs; [|congruence].
    apply existsb_exists. exists k. split; [by apply list_elem_of_In|].
    by rewrite bool_decide_eq_false_2.
Qed.

(** X19. Once the two checks of [begin] have gone through, the build info
    they leave is up to date: as long as no test file changes, the same
    checks on it find no new test and no new component, throw nothing, and
    leave it as it is. *)
Theorem build_info_up_to_date projectSuites buildInfo buildInfo' registry answers :
  checkBuild stat parseTestFile projectSuites buildInfo
    = (buildInfo', registry, Returns answers) →
  ∃ registry',
    checkBuild stat parseTestFile projectSuites buildInfo'
      = (buildInfo', registry', Returns (false, false)).
Proof.
  unfold checkBuild, checkNewTests. intros Hrun.
  destruct (checkNewTestsLoop stat parseTestFile (testFilesOf projectSuites)
              buildInfo [] false) as [[buildInfo1 registry1] [hasNewTests|e]] eqn:Hloop;
    [|done].
  destruct (checkNewTestsLoop_returns _ _ _ _ _ _ _ Hloop
              (NoDup_testFilesOf projectSuites))
    as (HK & Hc & _ & Hrec & _).
  { intros key value Hin. by apply elem_of_nil in Hin. }
  destruct (checkNewComponents_spec buildInfo1 registry1 HK) as (Htests & Hkeys & _).
  destruct (checkNewComponents buildInfo1 registry1) as [buildInfo2 hasNew] eqn:Hcomp.
  injection Hrun as <- <- _. simpl in Htests, Hkeys.
  destruct (checkNewTestsLoop_up_to_date (testFilesOf projectSuites) buildInfo2 []
              false) as (registry' & -> & Hk').
  - intros f Hf. destruct (Hrec f Hf) as (info & Hinfo & Hstat & Hnames).
    exists info. rewrite Htests. split; [done|]. split; [done|].
    intros n Hn. by apply Hkeys, Hnames.
  - intros k Hin. by apply elem_of_nil in Hin.
  - exists registry'. unfold checkNewComponents.
    assert (existsb (λ c, negb (bool_decide (c ∈ names (components buildInfo2))))
                    (keys registry') = false) as ->; [|done].
    apply not_true_iff_false. intros Hex.
    apply existsb_exists in Hex as (k & Hin & Hneg).
    apply list_elem_of_In, Hk' in Hin. by rewrite bool_decide_eq_true_2 in Hneg.
Qed.

(** X20. When the two checks of [begin] answer that there is no new test
    and no new component, they have left the build info as it was. *)
Theorem unchanged_build_info_untouched projectSuites buildInfo buildInfo' registry :
  checkBuild stat parseTestFile projectSuites buildInfo
    = (buildInfo', registry, Returns (false, false)) →
  buildInfo' = buildInfo.
Proof.
  unfold checkBuild, checkNewTests. intros Hrun.
  destruct (checkNewTestsLoop stat parseTestFile (testFilesOf projectSuites)
              buildInfo [] false) as [[buildInfo1 registry1] [hasNewTests|e]] eqn:Hloop;
    [|done].
  destruct (checkNewTestsLoop_returns _ _ _ _ _ _ _ Hloop
              (NoDup_testFilesOf projectSuites))
    as (HK & _ & _ & _ & _ & _ & Hsame).
  { intros key value Hin. by apply elem_of_nil in Hin. }
  destruct (checkNewComponents_spec buildInfo1 registry1 HK) as (_ & _ & Hsame').
  destruct (checkNewComponents buildInfo1 registry1) as [buildInfo2 hasNew] eqn:Hcomp.
  injection Hrun as <- _ -> ->. simpl in Hsame'.
  rewrite Hsame' by done. by apply Hsame.
Qed.

End BuildCacheFacts.

Lemma build_info_up_to_date_witness :
  ∃ registry',
    Vite.checkBuild statSeven parseButton [["a.spec.tsx"]]
      (Vite.checkBuild statSeven parseButton [["a.spec.tsx"]] noBuild).1.1
    = ((Vite.checkBuild statSeven parseButton [["a.spec.tsx"]] noBuild).1.1,
       registry', Returns (false, false)).
Proof.
  apply (build_info_up_to_date statSeven parseButton [["a.spec.tsx"]] noBuild
           (Vite.checkBuild statSeven parseButton [["a.spec.tsx"]] noBuild).1.1
           [("Button", buttonInfo)] (true, true)).
  reflexivity.
Defined.

Lemma unchanged_build_info_untouched_witness :
  (Vite.checkBuild statSeven parseButton [["a.spec.tsx"]]
     (Vite.checkBuild statSeven parseButton [["a.spec.tsx"]] noBuild).1.1).1.1
  = (Vite.checkBuild statSeven parseButton [["a.spec.tsx"]] noBuild).1.1.
Proof.
  apply (unchanged_build_info_untouched statSeven parseButton [["a.spec.tsx"]]
           (Vite.checkBuild statSeven parseButton [["a.spec.tsx"]] noBuild).1.1
           _ [("Button", buttonInfo)]).
  reflexivity.
Defined.

(** ** The 'prepare to run' task *)

Lemma elem_of_setAdd file testFiles x :
  x ∈ Vite.setAdd file testFiles ↔ x = file ∨ x ∈ testFiles.
Proof.
  unfold Vite.setAdd. destruct (decide (file ∈ testFiles)) as [Hin|Hnin].
  - split; [by right|]. by intros [-> |?].
  - rewrite elem_of_app, list_elem_of_singleton. tauto.
Qed.

Lemma NoDup_setAdd_list file testFiles :
  NoDup testFiles → NoDup (Vite.setAdd file testFiles).
Proof.
  intros Hnd. unfold Vite.setAdd. destruct (decide (file ∈ testFiles)); [done|].
  apply NoDup_app. split; [done|]. split; [|apply NoDup_singleton].
  intros x Hx Hin. apply list_elem_of_singleton in Hin as ->. done.
Qed.

(** X21. The output directories the 'prepare to run' task removes are
    those of the projects the filter names, each once; without a filter
    they are those of all projects, and with an empty filter there is
    none. *)
Theorem output_dirs_of_selected_projects projects projectFilter :
  NoDup (outputDirsToRemove projects projectFilter) ∧
  (∀ d, d ∈ outputDirsToRemove projects projectFilter ↔
        ∃ p, p ∈ projects ∧ outputDir p = d ∧
             match projectFilter with
             | Some filter => name p ∈ filter
             | None => True
             end) ∧
  outputDirsToRemove projects (Some []) = [].
Proof.
  unfold outputDirsToRemove.
  assert (∀ (pf : option (list string)) (acc : list string), NoDup acc →
    let dirs := foldl (λ outputDirs p,
                         if negb (truthyObject pf) ||
                            match pf with
                            | Some filter => bool_decide (name p ∈ filter)
                            | None => false
                            end
                         then Vite.setAdd (outputDir p) outputDirs
                         else outputDirs) acc projects in
    NoDup dirs ∧
    ∀ d, d ∈ dirs ↔
         d ∈ acc ∨ ∃ p, p ∈ projects ∧ outputDir p = d ∧
                        match pf with
                        | Some filter => name p ∈ filter
                        | None => True
                        end) as Hgen.
  { intros pf. induction projects as [|p projects IH]; intros acc Hacc; simpl.
    - split; [done|]. intros d. split; [by left|].
      intros [?|(p & Hp & _)]; [done|]. by apply elem_of_nil in Hp.
    - destruct pf as [filter|]; simpl.
      + destruct (bool_decide (name p ∈ filter)) eqn:Hsel.
        * apply bool_decide_eq_true in Hsel.
          destruct (IH (Vite.setAdd (outputDir p) acc)) as [Hnd Hin];
            [by apply NoDup_setAdd_list|].
          split; [done|]. intros d. rewrite Hin, elem_of_setAdd. split.
          { intros [[-> |?]|(q & Hq & Hd & Hf)]; [right|by left|right].
            - exists p. split; [by left|done].
            - exists q. split; [by right|done]. }
          intros [?|(q & Hq & Hd & Hf)]; [by left; right|].
          apply elem_of_cons in Hq as [-> |Hq]; [by left; left|].
          right. eauto.
        * apply bool_decide_eq_false in Hsel.
          destruct (IH acc Hacc) as [Hnd Hin]. split; [done|].
          intros d. rewrite Hin. split.
          { intros [?|(q & Hq & Hd & Hf)]; [by left|right].
            exists q. split; [by right|done]. }
          intros [?|(q & Hq & Hd & Hf)]; [by left|].
          apply elem_of_cons in Hq as [-> |Hq]; [done|]. right. eauto.
      + destruct (IH (Vite.setAdd (outputDir p) acc)) as [Hnd Hin];
          [by apply NoDup_setAdd_list|].
        split; [done|]. intros d. rewrite Hin, elem_of_setAdd. split.
        { intros [[-> |?]|(q & Hq & Hd & Hf)]; [right|by left|right].
          - exists p. split; [by left|done].
          - exists q. split; [by right|done]. }
        intros [?|(q & Hq & Hd & Hf)]; [by left; right|].
        apply elem_of_cons in Hq as [-> |Hq]; [by left; left|].
        right. eauto. }
  destruct (Hgen projectFilter [] NoDup_nil_2) as [Hnd Hin].
  split; [done|]. split.
  - intros d. rewrite Hin. split; [|by right].
    intros [H|?]; [by apply elem_of_nil in H|done].
  - destruct (Hgen (Some []) [] NoDup_nil_2) as [_ Hin'].
    apply elem_of_nil_inv. intros d Hd. apply Hin' in Hd as [Hd|(p & _ & _ & Hf)].
    + by apply elem_of_nil in Hd.
    + by apply elem_of_nil in Hf.
Qed.

(** X5. Whatever the input, a project is placed as early as its
    dependencies allow: each of them lies in an earlier phase, and one of
    them lies in the phase just before. *)
Theorem buildPhases_earliest_phase _deps suites i p :
  inPhase (buildPhases _deps suites) i p →
  (∀ d, d ∈ _deps p → ∃ j, j < i ∧ inPhase (buildPhases _deps suites) j d) ∧
  (0 < i → ∃ d, d ∈ _deps p ∧ inPhase (buildPhases _deps suites) (i - 1) d).
Proof.
  destruct (buildPhases_inv _deps suites) as [processed Inv].
  intros (phase & Hi & Hp). apply elem_of_projectsOf in Hp as (s & Hs & <-). split.
  - intros d Hd. by apply (inv_layer _ _ _ _ Inv i phase s d).
  - intros Hpos. destruct i as [|i]; [lia|].
    replace (S i - 1) with i by lia. by apply (inv_chain _ _ _ _ Inv i phase s).
Qed.

Lemma buildPhases_earliest_phase_witness :
  ∃ d, d ∈ depsABC "B" ∧ inPhase (buildPhases depsABC suitesABC) (1 - 1) d.
Proof.
  apply (buildPhases_earliest_phase depsABC suitesABC 1 "B"); [|lia].
  exists [suiteOf "B"; suiteOf "C"]. split; [by vm_compute|]. solve_elem.
Defined.

Lemma buildPhases_no_empty_phase_witness :
  [suiteOf "A"] ≠ [] ∧ length (buildPhases depsABC suitesABC) ≤ length suitesABC.
Proof.
  destruct (buildPhases_no_empty_phase depsABC suitesABC) as [Hne Hlen].
  split; [|exact Hlen]. apply Hne. solve_elem.
Defined.

Lemma buildPhases_schedules_input_once_witness :
  NoDup (concat (buildPhases depsCycle suitesCycle)).
Proof.
  apply (buildPhases_schedules_input_once depsCycle suitesCycle).
  compute_done.
Defined.

Lemma every_phase_visited_witness :
  [mkTestGroup ["A/test"]] ≠ [] ∧
  trace runCrash !! 2 = Some (EStop 0) ∧
  ∃ answer, trace runCrash !! 3 = Some (EHasWorkerErrors 0 answer).
Proof.
  apply (proj2 (every_phase_visited depsChain lastResultOk
                  (createTestGroupsTask depsChain oneGroupPerSuite
                     (λ _, scriptedDispatcher [] true) 1 suitesABC) noResults)
           1 0 [mkTestGroup ["A/test"]]).
  reflexivity.
Defined.

Lemma run_within_concurrency_bound_witness :
  length [mkTestGroup ["B/test"]] ≤
  maxConcurrentTestGroups depsChain oneGroupPerSuite 1 suitesABC 0.
Proof.
  apply (proj2 (run_within_concurrency_bound depsChain lastResultOk oneGroupPerSuite
                  (λ _, scriptedDispatcher ["B/test"] false) 1 suitesABC noResults 0) 1).
  solve_elem.
Defined.

Lemma output_dirs_of_selected_projects_witness :
  outputDirsToRemove
    [mkOutputProject "A" "out"; mkOutputProject "B" "out"; mkOutputProject "C" "other"]
    (Some ["A"; "B"]) = ["out"] ∧
  ("other" ∉ outputDirsToRemove
     [mkOutputProject "A" "out"; mkOutputProject "B" "out"; mkOutputProject "C" "other"]
     (Some ["A"; "B"])).
Proof.
  split; [reflexivity|]. intros Hin.
  apply (proj1 (proj2 (output_dirs_of_selected_projects
           [mkOutputProject "A" "out"; mkOutputProject "B" "out";
            mkOutputProject "C" "other"] (Some ["A"; "B"])))) in Hin
    as (p & Hp & Hd & Hf).
  elem_cases Hp; subst p; simpl in *; try discriminate Hd.
  elem_cases Hf; discriminate.
Defined.

(** ** After worker errors *)

(** X22. In a run of the phases built from the project suites, once the
    dispatcher of a phase answers [hasWorkerErrors()] with true, every
    test of every project of every later phase is marked skipped, and none
    of these projects ends in the successful set. *)
Theorem worker_errors_skip_later_phases _deps ok createTestGroups newDispatcher
    workers suites results0 i j phase pw :
  EHasWorkerErrors i true ∈
    trace (runTests _deps ok createTestGroups newDispatcher workers suites results0) →
  i < j →
  createTestGroupsTask _deps createTestGroups newDispatcher workers suites !! j
    = Some phase →
  pw ∈ projects phase →
  (∀ g t, g ∈ testGroups pw → t ∈ tests g →
     ESkipTest j (project pw) t ∈
       trace (runTests _deps ok createTestGroups newDispatcher workers suites
                results0)) ∧
  project pw ∉
    successfulProjects
      (runTests _deps ok createTestGroups newDispatcher workers suites results0).
Proof.
  intros He Hij Hj Hpw. unfold runTests in *.
  set (phases := createTestGroupsTask _deps createTestGroups newDispatcher
                   workers suites) in *.
  pose proof (createTestGroupsTask_layered _deps createTestGroups newDispatcher
                workers suites) as Hlay. fold phases in Hlay.
  apply (noneSuccessful_after_errors _deps ok phases results0 Hlay) in He.
  assert (∀ n, noneSuccessful _deps ok phases results0 (i + n)) as Hall.
  { induction n as [|n IH]; [by rewrite Nat.add_0_r|].
    rewrite Nat.add_succ_r. by apply noneSuccessful_S. }
  assert (j = S (i + (j - i - 1))) as Hj' by lia.
  rewrite Hj' in Hj.
  destruct (phase_all_failed _deps ok phases results0 Hlay _ phase pw
              (Hall (j - i - 1)) Hj Hpw) as (d & Hd & _ & Hdn).
  rewrite <- Hj' in Hj, Hdn.
  destruct (skipped_project _deps ok phases results0 j phase pw Hlay Hj Hpw)
    as (Hskip & _ & _ & _ & Hsucc).
  { apply hasFailedDeps_true. eauto. }
  split; [|done]. intros g t Hg Ht. by apply (Hskip g t).
Qed.

Lemma worker_errors_skip_later_phases_witness :
  (∀ g t, g ∈ testGroups (entryOf "C") → t ∈ tests g →
     ESkipTest 2 (project (entryOf "C")) t ∈ trace runCrash) ∧
  project (entryOf "C") ∉ successfulProjects runCrash.
Proof.
  apply (worker_errors_skip_later_phases depsChain lastResultOk oneGroupPerSuite
           (λ _, scriptedDispatcher [] true) 1 suitesABC noResults 0 2
           (mkPhase (scriptedDispatcher [] true) [entryOf "C"]) (entryOf "C")).
  - solve_elem.
  - lia.
  - reflexivity.
  - by left.
Defined.

(** ** Failures reach the dependants *)

Section FailurePropagation.
Variable _deps : ProjectRef → list ProjectRef.
Variable ok : TestCase → Results → bool.
Variable phases : list Phase.
Variable results0 : Results.
Hypothesis Hlay : Layered _deps phases.

(** The successful set is closed under dependencies. *)
Lemma successful_deps_closed q d :
  q ∈ successfulProjects (createRunTestsTask _deps ok phases results0) →
  d ∈ _deps q →
  d ∈ successfulProjects (createRunTestsTask _deps ok phases results0).
Proof.
  intros Hq Hd. pose proof Hq as Hq'. apply successful_elem in Hq' as [k Hadd].
  apply add_in_trace in Hadd as (phase & Hk & _ & _ & (ph & pw & Hk' & Hpw & Hp) & _).
  assert (ph = phase) as -> by congruence.
  apply (successful_layered _deps ok phases results0 Hlay k phase q Hk) in Hq;
    [|eauto].
  destruct Hq as (_ & Hall & _). by apply Hall.
Qed.

Lemma failed_upstream q p :
  tc (λ a b, b ∈ _deps a) q p →
  p ∉ successfulProjects (createRunTestsTask _deps ok phases results0) →
  ∃ d, d ∈ _deps q ∧
       d ∉ successfulProjects (createRunTestsTask _deps ok phases results0).
Proof.
  intros Hqp Hp. induction Hqp as [q p Hd|q d p Hd _ IH].
  - eauto.
  - exists d. split; [done|]. destruct (IH Hp) as (d' & Hd' & Hn).
    intros Hin. apply Hn. by apply (successful_deps_closed d d').
Qed.

End FailurePropagation.



(** ** Dependency cycles *)

Section Cycles.
Variable _deps : ProjectRef → list ProjectRef.

(** An input project from which no cycle can be reached is scheduled, when
    every dependency is an input project. *)
Lemma unblocked_scheduled suites p :
  closedGraph _deps suites → p ∈ projectsOf suites →
  ¬ blockedByCycle _deps p →
  ∃ i, inPhase (buildPhases _deps suites) i p.
Proof.
  intros Hclosed Hp Hfree.
  pose proof (buildPhasesLoop_inv _deps (length suites) suites [] ∅
                (PhasesInv_init _deps suites)) as Inv.
  pose proof (buildPhasesLoop_fixpoint _deps (length suites) suites [] ∅) as Hfix.
  fold (buildPhases _deps suites) in Inv.
  set (processed := (buildPhasesLoop _deps (length suites) suites [] ∅).2) in *.
  destruct (decide (p ∈ processed)) as [Hin|Hout].
  { apply elem_of_projectsOf_concat. by apply (inv_processed _ _ _ _ Inv). }
  exfalso. apply Hfree.
  assert (∀ x, x ∈ projectsOf (remaining processed suites) ↔
               x ∈ projectsOf suites ∧ x ∉ processed) as Hrem.
  { intros x. rewrite !elem_of_projectsOf. unfold remaining. split.
    - intros (s & Hs & <-). apply list_elem_of_filter in Hs as [? ?]. eauto.
    - intros [(s & Hs & <-) Hn]. exists s. split; [|done].
      by apply list_elem_of_filter. }
  destruct (no_sink_cycle_inv (λ a b, b ∈ _deps a)
              (projectsOf (remaining processed suites))
              (λ x, rtc (λ a b, b ∈ _deps a) p x) p) as (y & Hy & Hc).
  - by apply Hrem.
  - apply rtc_refl.
  - intros x Hx Hpx. apply Hrem in Hx as [Hx Hxn].
    apply elem_of_projectsOf in Hx as (s & Hs & <-).
    assert (¬ Forall (λ d, d ∈ processed) (_deps (_projectConfig s))) as Hnall.
    { intros Hall. assert (s ∈ collectPhase _deps processed suites) as Hc.
      { apply elem_of_collectPhase. done. }
      rewrite Hfix in Hc; [by apply elem_of_nil in Hc|].
      unfold remaining. apply length_filter. }
    apply not_Forall_Exists in Hnall; [|apply _].
    apply Exists_exists in Hnall as (d & Hd & Hdn). simpl in Hdn.
    exists d. split; [|split; [by eapply rtc_r|done]].
    apply Hrem. split; [|done].
    unfold closedGraph in Hclosed. rewrite Forall_forall in Hclosed.
    pose proof (Hclosed s Hs) as Hdeps. rewrite Forall_forall in Hdeps.
    by apply Hdeps.
  - by exists y.
Qed.

Lemma cyclic_blocked suites :
  cyclic _deps suites →
  ∃ s, s ∈ suites ∧ blockedByCycle _deps (_projectConfig s).
Proof.
  intros [p Hc].
  assert (p ∈ projectsOf suites) as Hp.
  { inversion Hc as [? ? [Hin _]|? ? ? [Hin _] _]; done. }
  apply elem_of_projectsOf in Hp as (s & Hs & <-). exists s. split; [done|].
  exists (_projectConfig s). split; [apply rtc_refl|]. unfold onCycle.
  eapply tc_congruence with (f := id); [|exact Hc]. by intros a b [_ Hb].
Qed.

End Cycles.

(** C3, amended.  On an input whose dependency relation contains a cycle,
    [buildPhases] raises nothing and returns a phase list.  Some input
    project is left out of it: no project that lies on a cycle, or that
    depends directly or transitively on one that does, is placed in any
    phase.  When every dependency is an input project, every other input
    project is placed in a phase; and whatever is placed comes after all
    its dependencies. *)
Theorem buildPhases_omits_cycles _deps suites :
  cyclic _deps suites →
  ∃ phases,
    buildPhasesCall _deps suites = Returns phases ∧
    (∃ s, s ∈ suites ∧ blockedByCycle _deps (_projectConfig s)) ∧
    (∀ p, blockedByCycle _deps p → ∀ i, ¬ inPhase phases i p) ∧
    (closedGraph _deps suites →
     ∀ s, s ∈ suites → ¬ blockedByCycle _deps (_projectConfig s) →
          ∃ i, inPhase phases i (_projectConfig s)) ∧
    (∀ i p d, inPhase phases i p → d ∈ _deps p →
              ∃ j, j < i ∧ inPhase phases j d).
Proof.
  intros Hcyc. exists (buildPhases _deps suites). split; [done|].
  split; [by apply cyclic_blocked|].
  destruct (buildPhases_inv _deps suites) as [processed Inv].
  split; [|split].
  - intros p (q & Hpq & Hq) i Hi.
    assert (∃ k, inPhase (buildPhases _deps suites) k q) as [k Hk].
    { clear Hq. revert i Hi. induction Hpq as [a|a b c Hab _ IH]; intros i Hi;
        [eauto|].
      destruct (PhasesInv_tc _ _ _ _ Inv a b (tc_once _ _ _ Hab) i Hi)
        as (j & _ & Hj).
      by apply (IH j). }
    destruct (PhasesInv_tc _ _ _ _ Inv q q Hq k Hk) as (j & Hj & Hjq).
    pose proof (inv_unique _ _ _ _ Inv j k q Hjq Hk). lia.
  - intros Hclosed s Hs Hfree. apply unblocked_scheduled; [done| |done].
    apply elem_of_projectsOf. eauto.
  - intros i p d (phase & Hi & Hp) Hd.
    apply elem_of_projectsOf in Hp as (s & Hs & <-).
    by apply (inv_layer _ _ _ _ Inv i phase s d).
Qed.

Lemma buildPhases_omits_cycles_witness :
  ∃ phases,
    buildPhasesCall depsCycle suitesCycle = Returns phases ∧
    (∀ i, ¬ inPhase phases i "A") ∧ ∃ i, inPhase phases i "C".
Proof.
  destruct (buildPhases_omits_cycles depsCycle suitesCycle)
    as (phases & Hcall & _ & Hout & Hin & _).
  - exists "A". apply tc_l with "B"; [|apply tc_once]; split; solve_elem.
  - exists phases. split; [done|]. split.
    + apply Hout. exists "A". split; [apply rtc_refl|].
      apply tc_l with "B"; [|apply tc_once]; solve_elem.
    + apply (Hin ltac:(vm_compute; repeat constructor) (suiteOf "C")).
      * solve_elem.
      * intros (q & Hq & Hc).
        assert (q = "C") as ->.
        { inversion Hq as [|? b ? Hb _]; [done|].
          vm_compute in Hb. by apply elem_of_nil in Hb. }
        inversion Hc as [? ? Hb|? b ? Hb _];
          vm_compute in Hb; by apply elem_of_nil in Hb.
Defined.
